(** * RIB Mosaic export engine (render_ribmosaic/rm_export.py)

    A shallow embedding of the archive / command / orchestrator classes of
    [rm_export.py] together with the properties of its specification.

    Python objects are records of their attributes.  Everything the methods
    mutate and that can be reached through more than one reference lives in
    an explicit [world]: the file system, the Python file objects (shared by
    an archive and the archives built from it), the Python list objects
    (regex rule lists, shared in the same way) and the spawned processes.
    Methods are computations of a state-and-exception monad; exceptions keep
    the state reached when they were raised, as in Python. *)

From Stdlib Require Import ZArith Lia List String Ascii Bool.
From stdpp Require Import base option list gmap strings.

Local Open Scope string_scope.
Local Open Scope list_scope.

(** ** Exceptions and the method monad *)

(** [RibmosaicError] is the module's own exception (rm_error); every other
    exception is a Python built-in, kept by its class name. *)
Inductive exn : Type :=
| RibmosaicError (msg : string)
| PyExc (cls : string).

(** The result of running a method: a value, an exception, or a polling loop
    that was cut off by its fuel (no Python exception handler sees that). *)
Inductive outcome (A : Type) : Type :=
| Ok (a : A)
| Raise (e : exn)
| OutOfFuel.
Arguments Ok {A} a.
Arguments Raise {A} e.
Arguments OutOfFuel {A}.

(** The result of a call that touches no state: a value or an exception. *)
Inductive result (A : Type) : Type :=
| Returns (a : A)
| Raises (e : exn).
Arguments Returns {A} a.
Arguments Raises {A} e.

Definition M (S A : Type) : Type := S -> outcome A * S.

Definition ret {S A} (a : A) : M S A := fun s => (Ok a, s).

Definition raise {S A} (e : exn) : M S A := fun s => (Raise e, s).

Definition bind {S A B} (m : M S A) (k : A -> M S B) : M S B :=
  fun s =>
    match m s with
    | (Ok a, s') => k a s'
    | (Raise e, s') => (Raise e, s')
    | (OutOfFuel, s') => (OutOfFuel, s')
    end.

(** [try: m except: h] with a bare [except] clause. *)
Definition try_except {S A} (m : M S A) (h : M S A) : M S A :=
  fun s =>
    match m s with
    | (Raise _, s') => h s'
    | r => r
    end.

(** Sequencing of plain results (no state). *)
Definition rbind {A B} (r : result A) (k : A -> result B) : result B :=
  match r with
  | Returns a => k a
  | Raises e => Raises e
  end.

(** A plain result inside a method. *)
Definition of_result {S A} (r : result A) : M S A :=
  fun s => (match r with Returns a => Ok a | Raises e => Raise e end, s).

Definition get {S} : M S S := fun s => (Ok s, s).
Definition put {S} (s : S) : M S unit := fun _ => (Ok tt, s).
Definition modify {S} (f : S -> S) : M S unit := fun s => (Ok tt, f s).

(** [if c: m] *)
Definition when {S} (c : bool) (m : M S unit) : M S unit :=
  if c then m else ret tt.

Declare Scope method_scope.
Delimit Scope method_scope with method.
Notation "'do' x <- m ; k" := (bind m (fun x => k))
  (at level 10, x name, m at level 100, k at level 200,
   format "'[v' 'do'  x  <-  m ; '/' k ']'") : method_scope.
Notation "'val' x <- r ; k" := (rbind r (fun x => k))
  (at level 10, x name, r at level 100, k at level 200,
   format "'[v' 'val'  x  <-  r ; '/' k ']'") : method_scope.
Notation "m >> k" := (bind m (fun _ => k))
  (at level 100, k at level 200, right associativity) : method_scope.
Local Open Scope method_scope.

(** [for x in l: body x] *)
Fixpoint for_each {S A} (l : list A) (body : A -> M S unit) : M S unit :=
  match l with
  | [] => ret tt
  | x :: l' => body x >> for_each l' body
  end.

(** Running a computation on one component of a larger state. *)
Definition zoom {S T A} (proj : T -> S) (inj : T -> S -> T) (m : M S A) : M T A :=
  fun t => let '(r, s') := m (proj t) in (r, inj t s').

(** ** Python values: [str] and [bytes] *)

Inductive pytext : Type :=
| PyStr (s : string)
| PyBytes (s : string).

Definition pytext_data (t : pytext) : string :=
  match t with PyStr s | PyBytes s => s end.

(** Truthiness of a string ([if text:]). *)
Definition nonempty (s : string) : bool :=
  match s with EmptyString => false | _ => true end.

Definition pytext_truthy (t : pytext) : bool := nonempty (pytext_data t).

(** [s[1:]] *)
Definition string_tail (s : string) : string :=
  match s with EmptyString => EmptyString | String _ s' => s' end.

(** [text.encode()]: defined on [str] only. *)
Definition py_encode (t : pytext) : result pytext :=
  match t with
  | PyStr s => Returns (PyBytes s)
  | PyBytes _ => Raises (PyExc "AttributeError")
  end.

(** ** The world *)

Inductive file_mode : Type := ModeR | ModeW | ModeA.

(** A file on disk: its (decoded) content and whether it is gzip data. *)
Record file_data : Type := FileData {
  fd_gzip : bool;
  fd_data : string
}.

(** A Python file object.  Written text stays in [fo_buffer] until the object
    is closed; the buffer is kept afterwards as the record of what went
    through this object. *)
Record file_object : Type := FileObject {
  fo_path : string;
  fo_mode : file_mode;
  fo_gzip : bool;
  fo_closed : bool;
  fo_buffer : string
}.

(** A process started by [subprocess.Popen].  [p_left] counts the polls until
    it exits by itself ([None]: it never does); [p_on_term] is what a
    termination signal turns [p_left] into ([None]: the signal is ignored). *)
Record process : Type := Process {
  p_command : string;
  p_left : option nat;
  p_on_term : option nat;
  p_signalled : bool;
  p_returncode : option Z
}.

(** What a call left in the log of observable actions. *)
Inductive event : Type :=
| EvSpawn (pid : nat)
| EvPoll (pid : nat)
| EvBreakTest (raised : bool)
| EvTerminate (pid : nat)
| EvRegexTargets (archive_name : string).

Record world : Type := World {
  fs : gmap string file_data;
  denied : gset string;
  executable : gset string;
  files : list file_object;
  lists : list (list string);
  procs : list process;
  ticks : nat;
  log : list event
}.

Definition set_fs (f : gmap string file_data -> gmap string file_data) (w : world) : world :=
  World (f (fs w)) (denied w) (executable w) (files w) (lists w) (procs w) (ticks w) (log w).
Definition set_executable (f : gset string -> gset string) (w : world) : world :=
  World (fs w) (denied w) (f (executable w)) (files w) (lists w) (procs w) (ticks w) (log w).
Definition set_files (f : list file_object -> list file_object) (w : world) : world :=
  World (fs w) (denied w) (executable w) (f (files w)) (lists w) (procs w) (ticks w) (log w).
Definition set_lists (f : list (list string) -> list (list string)) (w : world) : world :=
  World (fs w) (denied w) (executable w) (files w) (f (lists w)) (procs w) (ticks w) (log w).
Definition set_procs (f : list process -> list process) (w : world) : world :=
  World (fs w) (denied w) (executable w) (files w) (lists w) (f (procs w)) (ticks w) (log w).
Definition set_ticks (f : nat -> nat) (w : world) : world :=
  World (fs w) (denied w) (executable w) (files w) (lists w) (procs w) (f (ticks w)) (log w).
Definition emit (e : event) (w : world) : world :=
  World (fs w) (denied w) (executable w) (files w) (lists w) (procs w) (ticks w) (log w ++ [e]).

(** ** Python's file objects *)

(** The world once [path] has been opened: ['w'] truncates, ['a'] creates the
    file when it is missing, and the new file object is the last of [files]. *)
Definition open_world (path : string) (mode : file_mode) (gz : bool) (w : world) : world :=
  set_files (fun l => l ++ [FileObject path mode gz false ""])
    (match mode, fs w !! path with
     | ModeW, _ | ModeA, None => set_fs (fun m => <[path := FileData gz ""]> m) w
     | _, _ => w
     end).

(** [open(path, mode)] and [gzip.open(path, mode)] ([gz]).  Reading needs an
    existing file.  The new file object's reference is its index in [files]. *)
Definition py_open (path : string) (mode : file_mode) (gz : bool) : M world nat :=
  fun w =>
    if decide (path ∈ denied w) then (Raise (PyExc "PermissionError"), w)
    else
      match mode, fs w !! path with
      | ModeR, None => (Raise (PyExc "FileNotFoundError"), w)
      | _, _ => (Ok (length (files w)), open_world path mode gz w)
      end.

(** [f.write(text)]: [str] for a text file, [bytes] for a gzip file. *)
Definition py_write (h : nat) (text : pytext) : M world unit :=
  fun w =>
    match files w !! h with
    | None => (Raise (PyExc "ReferenceError"), w)
    | Some fo =>
        if fo_closed fo then (Raise (PyExc "ValueError"), w)
        else
          match fo_mode fo with
          | ModeR => (Raise (PyExc "UnsupportedOperation"), w)
          | _ =>
              match text, fo_gzip fo with
              | PyStr s, false | PyBytes s, true =>
                  (Ok tt, set_files (fun l =>
                     <[h := FileObject (fo_path fo) (fo_mode fo) (fo_gzip fo)
                                       false (fo_buffer fo ++ s)]> l) w)
              | _, _ => (Raise (PyExc "TypeError"), w)
              end
          end
    end.

(** Text files hold UTF-8 with the line ends as they were written; a string
    stands for a [str] by its UTF-8 bytes.  [valid_utf8] is the strict
    decoder's test: no stray or missing continuation byte, no overlong form,
    no surrogate, nothing above U+10FFFF. *)
Fixpoint utf8_from (need lo hi : nat) (s : string) : bool :=
  match s with
  | EmptyString => Nat.eqb need 0
  | String c s' =>
      let b := nat_of_ascii c in
      match need with
      | O =>
          if (b <=? 127)%nat then utf8_from 0 128 191 s'
          else if (194 <=? b)%nat && (b <=? 223)%nat then utf8_from 1 128 191 s'
          else if Nat.eqb b 224 then utf8_from 2 160 191 s'
          else if ((225 <=? b)%nat && (b <=? 236)%nat) || Nat.eqb b 238 || Nat.eqb b 239
          then utf8_from 2 128 191 s'
          else if Nat.eqb b 237 then utf8_from 2 128 159 s'
          else if Nat.eqb b 240 then utf8_from 3 144 191 s'
          else if (241 <=? b)%nat && (b <=? 243)%nat then utf8_from 3 128 191 s'
          else if Nat.eqb b 244 then utf8_from 3 128 143 s'
          else false
      | S k => if (lo <=? b)%nat && (b <=? hi)%nat then utf8_from k 128 191 s' else false
      end
  end.

Definition valid_utf8 (s : string) : bool := utf8_from 0 128 191 s.

Definition is_cr (c : ascii) : bool := Ascii.eqb c (ascii_of_nat 13).
Definition is_lf (c : ascii) : bool := Ascii.eqb c (ascii_of_nat 10).

(** What reading in text mode makes of the line ends (universal newlines):
    a carriage return with or without a line feed after it becomes one line
    feed. *)
Fixpoint universal_newlines (s : string) : string :=
  match s with
  | EmptyString => EmptyString
  | String c s' =>
      if is_cr c then
        match s' with
        | String c' s'' =>
            if is_lf c' then String (ascii_of_nat 10) (universal_newlines s'')
            else String (ascii_of_nat 10) (universal_newlines s')
        | EmptyString => String (ascii_of_nat 10) EmptyString
        end
      else String c (universal_newlines s')
  end.

(** [f.read()] on a file object just opened for reading: the whole content.
    Through gzip it is [bytes], as stored; an empty file reads as no bytes
    and other content that is not gzip data does not decompress.  In text
    mode it is [str]: the content has to decode, and the line ends are
    translated. *)
Definition py_read (h : nat) : M world pytext :=
  fun w =>
    match files w !! h with
    | None => (Raise (PyExc "ReferenceError"), w)
    | Some fo =>
        if fo_closed fo then (Raise (PyExc "ValueError"), w)
        else
          match fo_mode fo, fs w !! fo_path fo with
          | ModeR, Some d =>
              match fo_gzip fo, fd_gzip d with
              | true, true => (Ok (PyBytes (fd_data d)), w)
              | false, false =>
                  if valid_utf8 (fd_data d)
                  then (Ok (PyStr (universal_newlines (fd_data d))), w)
                  else (Raise (PyExc "UnicodeDecodeError"), w)
              | true, false =>
                  if nonempty (fd_data d) then (Raise (PyExc "BadGzipFile"), w)
                  else (Ok (PyBytes ""), w)
              | false, true => (Raise (PyExc "UnicodeDecodeError"), w)
              end
          | ModeR, None => (Raise (PyExc "OSError"), w)
          | _, _ => (Raise (PyExc "UnsupportedOperation"), w)
          end
    end.

(** The world once the open file object [fo] at reference [h] has been
    closed: a writable one flushes its buffer to the end of its file. *)
Definition close_world (h : nat) (fo : file_object) (w : world) : world :=
  let closed := FileObject (fo_path fo) (fo_mode fo) (fo_gzip fo) true (fo_buffer fo) in
  let w1 := set_files (fun l => <[h := closed]> l) w in
  match fo_mode fo with
  | ModeR => w1
  | _ =>
      let old := default (FileData (fo_gzip fo) "") (fs w !! fo_path fo) in
      set_fs (fun m =>
        <[fo_path fo := FileData (fd_gzip old) (fd_data old +:+ fo_buffer fo)]> m) w1
  end.

(** [f.close()]; closing a closed file object does nothing. *)
Definition py_close (h : nat) : M world unit :=
  fun w =>
    match files w !! h with
    | None => (Raise (PyExc "ReferenceError"), w)
    | Some fo => (Ok tt, if fo_closed fo then w else close_world h fo w)
    end.

(** [os.chmod(path, r-x for all, w for the owner)] *)
Definition os_chmod_exec (path : string) : M world unit :=
  fun w =>
    match fs w !! path with
    | None => (Raise (PyExc "FileNotFoundError"), w)
    | Some _ => (Ok tt, set_executable (fun s => {[path]} ∪ s) w)
    end.

(** Python list objects: [list(l)], [l.append(x)] and reading [l]. *)
Definition list_read (loc : nat) (w : world) : list string :=
  default [] (lists w !! loc).

Definition list_new (l : list string) : M world nat :=
  fun w => (Ok (length (lists w)), set_lists (fun ls => ls ++ [l]) w).

Definition list_append (loc : nat) (x : string) : M world unit :=
  modify (set_lists (fun ls => <[loc := default [] (ls !! loc) ++ [x]]> ls)).

(** ** Export contexts and archives *)

(** A RenderMan pass of the scene: its enable flag and frame range (a zero
    field means "use the scene's"). *)
Record Pass : Type := MkPass {
  pass_enabled : bool;
  pass_range_start : Z;
  pass_range_end : Z;
  pass_range_step : Z
}.

(** The scene being exported, which is also the datablock the export contexts
    of its commands point at ([pointer_datablock]). *)
Record Scene : Type := MkScene {
  frame_start : Z;
  frame_end : Z;
  frame_step : Z;
  frame_current : Z;
  ribmosaic_interactive : bool;
  ribmosaic_compileshd : bool;
  ribmosaic_optimizetex : bool;
  ribmosaic_renderrib : bool;
  ribmosaic_export_path : string;
  ribmosaic_passes : list Pass
}.

(** The fields of [rm_context.ExportContext] the archive classes read. *)
Record ExportContext : Type := MkContext {
  target_path : string;
  target_name : string;
  pointer_datablock : option Scene
}.

Record ExporterArchive : Type := MkArchive {
  context : ExportContext;
  is_root : bool;
  is_gzip : bool;
  is_exec : bool;
  archive_path : string;
  archive_name : string;
  _queque_mode : nat;
  _queque_priority : nat;
  _pointer_file : option nat;
  _pointer_cache : option nat;
  _archive_regexes : nat;
  _target_regexes : nat
}.

(** What a constructor receives as [export_object]: [None], a plain export
    context, or an archive ([is_file] is an attribute of archives only). *)
Inductive export_object : Type :=
| NoObject
| ContextObject (c : ExportContext)
| ArchiveObject (a : ExporterArchive).

Definition with_context (c : ExportContext) (a : ExporterArchive) : ExporterArchive :=
  MkArchive c (is_root a) (is_gzip a) (is_exec a) (archive_path a) (archive_name a)
    (_queque_mode a) (_queque_priority a) (_pointer_file a) (_pointer_cache a)
    (_archive_regexes a) (_target_regexes a).
Definition with_is_root (b : bool) (a : ExporterArchive) : ExporterArchive :=
  MkArchive (context a) b (is_gzip a) (is_exec a) (archive_path a) (archive_name a)
    (_queque_mode a) (_queque_priority a) (_pointer_file a) (_pointer_cache a)
    (_archive_regexes a) (_target_regexes a).
Definition with_is_gzip (b : bool) (a : ExporterArchive) : ExporterArchive :=
  MkArchive (context a) (is_root a) b (is_exec a) (archive_path a) (archive_name a)
    (_queque_mode a) (_queque_priority a) (_pointer_file a) (_pointer_cache a)
    (_archive_regexes a) (_target_regexes a).
Definition with_is_exec (b : bool) (a : ExporterArchive) : ExporterArchive :=
  MkArchive (context a) (is_root a) (is_gzip a) b (archive_path a) (archive_name a)
    (_queque_mode a) (_queque_priority a) (_pointer_file a) (_pointer_cache a)
    (_archive_regexes a) (_target_regexes a).
Definition with_archive_path (s : string) (a : ExporterArchive) : ExporterArchive :=
  MkArchive (context a) (is_root a) (is_gzip a) (is_exec a) s (archive_name a)
    (_queque_mode a) (_queque_priority a) (_pointer_file a) (_pointer_cache a)
    (_archive_regexes a) (_target_regexes a).
Definition with_archive_name (s : string) (a : ExporterArchive) : ExporterArchive :=
  MkArchive (context a) (is_root a) (is_gzip a) (is_exec a) (archive_path a) s
    (_queque_mode a) (_queque_priority a) (_pointer_file a) (_pointer_cache a)
    (_archive_regexes a) (_target_regexes a).
Definition with_pointer_file (h : option nat) (a : ExporterArchive) : ExporterArchive :=
  MkArchive (context a) (is_root a) (is_gzip a) (is_exec a) (archive_path a) (archive_name a)
    (_queque_mode a) (_queque_priority a) h (_pointer_cache a)
    (_archive_regexes a) (_target_regexes a).
Definition with_pointer_cache (h : option nat) (a : ExporterArchive) : ExporterArchive :=
  MkArchive (context a) (is_root a) (is_gzip a) (is_exec a) (archive_path a) (archive_name a)
    (_queque_mode a) (_queque_priority a) (_pointer_file a) h
    (_archive_regexes a) (_target_regexes a).
Definition with_archive_regexes (l : nat) (a : ExporterArchive) : ExporterArchive :=
  MkArchive (context a) (is_root a) (is_gzip a) (is_exec a) (archive_path a) (archive_name a)
    (_queque_mode a) (_queque_priority a) (_pointer_file a) (_pointer_cache a)
    l (_target_regexes a).
Definition with_target_regexes (l : nat) (a : ExporterArchive) : ExporterArchive :=
  MkArchive (context a) (is_root a) (is_gzip a) (is_exec a) (archive_path a) (archive_name a)
    (_queque_mode a) (_queque_priority a) (_pointer_file a) (_pointer_cache a)
    (_archive_regexes a) l.
Definition with_target (p n : string) (a : ExporterArchive) : ExporterArchive :=
  with_context (MkContext p n (pointer_datablock (context a))) a.

(** A method of an archive runs on the archive ([self]) and the world. *)
Definition astate : Type := ExporterArchive * world.

Definition self : M astate ExporterArchive := fun s => (Ok (fst s), s).
Definition update (f : ExporterArchive -> ExporterArchive) : M astate unit :=
  fun s => (Ok tt, (f (fst s), snd s)).
Definition in_world {X A} (m : M world A) : M (X * world) A :=
  zoom snd (fun t w => (fst t, w)) m.
Definition the_world {X} : M (X * world) world := fun s => (Ok (snd s), s).

(** ** The collaborators *)

(** [rm.pipeline_manager]: the pipeline-definition provider.  Attribute and
    text lookups resolve links against the calling object and can fail. *)
Record pipeline_manager : Type := PipelineManager {
  list_elements : string -> list string;
  get_attr : ExporterArchive -> string -> string -> bool -> string -> result string;
  get_text : ExporterArchive -> string -> result string
}.

(** The Python runtime and the operating system, where the engine's behaviour
    does not fix them: path functions, directory listings, the processes the
    scripts turn into, the user's break key, and the parts of [int], [eval]
    and [re.sub] outside the fragments defined below. *)
Record platform : Type := Platform {
  os_sep : string;
  os_path_split : string -> string * string;
  os_path_splitext : string -> string * string;
  os_listdir : gmap string file_data -> string -> result (list string);
  posix : bool;
  can_spawn : string -> bool;
  process_plan : string -> option nat * option nat;
  user_break : nat -> bool;
  py_int_other : string -> result Z;
  py_eval_other : string -> result bool;
  re_engine : pytext -> pytext -> pytext -> Z -> result pytext;
  bpy_scene : option Scene;
  beauty_pass : Pass;
  resolve_path : string -> result string
}.

(** ** [int], [eval] and [re.sub] *)

Definition is_digit (c : ascii) : bool :=
  (48 <=? nat_of_ascii c)%nat && (nat_of_ascii c <=? 57)%nat.

Fixpoint all_chars (p : ascii -> bool) (s : string) : bool :=
  match s with
  | EmptyString => true
  | String c s' => p c && all_chars p s'
  end.

Fixpoint decimal_value (acc : Z) (s : string) : Z :=
  match s with
  | EmptyString => acc
  | String c s' => decimal_value (10 * acc + Z.of_nat (nat_of_ascii c - 48)) s'
  end.

(** A regex metacharacter: one of [. ^ $ * + ? { } [ ] \ | ( )]. *)
Definition is_meta (c : ascii) : bool :=
  existsb (Ascii.eqb c)
    ["."; "^"; "$"; "*"; "+"; "?"; "{"; "}"; "["; "]"; "\"; "|"; "("; ")"]%char.

Definition is_backslash (c : ascii) : bool := Ascii.eqb c "\"%char.

(** A pattern that matches exactly itself, and a replacement that stands for
    itself. *)
Definition literal_pattern (p : string) : bool :=
  nonempty p && all_chars (fun c => negb (is_meta c)) p.
Definition literal_replacement (r : string) : bool :=
  all_chars (fun c => negb (is_backslash c)) r.

(** Replacing the leftmost non-overlapping occurrences of [p] in the text by
    [r]: [limit] is the number of replacements still allowed ([None]: any
    number), [skip] the matched characters still to drop. *)
Fixpoint sub_literal (p r : string) (limit : option nat) (skip : nat) (t : string) : string :=
  match t with
  | EmptyString => EmptyString
  | String c t' =>
      match skip with
      | S k => sub_literal p r limit k t'
      | O =>
          match limit with
          | Some O => t
          | _ =>
              if String.prefix p t
              then r ++ sub_literal p r (Nat.pred <$> limit) (String.length p - 1) t'
              else String c (sub_literal p r limit 0 t')
          end
      end
  end.

(** [count] as [re.sub] reads it: 0 replaces every match. *)
Definition sub_limit (count : Z) : option nat :=
  if (count =? 0)%Z then None else Some (Z.to_nat count).

Section Engine.

Variable pm : pipeline_manager.
Variable os : platform.

(** [int(s)]: a string of at most 4300 decimal digits is its value here;
    what Python makes of every other string is the platform's. *)
Definition py_int (s : string) : result Z :=
  if nonempty s && all_chars is_digit s && (String.length s <=? 4300)%nat
  then Returns (decimal_value 0 s)
  else py_int_other os s.

(** [eval(s)] read as a truth value. *)
Definition py_eval (s : string) : result bool :=
  if String.eqb s "True" then Returns true
  else if String.eqb s "False" then Returns false
  else py_eval_other os s.

(** The counts [re.sub] takes with a literal pattern on every platform
    (below 2^31), and those it refuses on every platform (from 2^63 on: the
    count does not fit the C integer it is converted to). *)
Definition count_small (count : Z) : bool := (0 <=? count)%Z && (count <? 2 ^ 31)%Z.
Definition count_overflows (count : Z) : bool := (2 ^ 63 <=? count)%Z.

(** [re.sub(pattern, repl, text, count, re.MULTILINE)]: pattern, replacement
    and text are all [str] or all [bytes]. *)
Definition re_sub (pattern repl text : pytext) (count : Z) : result pytext :=
  match pattern, repl, text with
  | PyStr p, PyStr r, PyStr t =>
      if literal_pattern p && literal_replacement r && count_small count
      then Returns (PyStr (sub_literal p r (sub_limit count) 0 t))
      else if literal_pattern p && literal_replacement r && count_overflows count
      then Raises (PyExc "OverflowError")
      else re_engine os pattern repl text count
  | PyBytes p, PyBytes r, PyBytes t =>
      if literal_pattern p && literal_replacement r && count_small count
      then Returns (PyBytes (sub_literal p r (sub_limit count) 0 t))
      else if literal_pattern p && literal_replacement r && count_overflows count
      then Raises (PyExc "OverflowError")
      else re_engine os pattern repl text count
  | _, _, _ => Raises (PyExc "TypeError")
  end.

(** Modelled from the spec: [rm_context.ExportContext._test_break] is not in
    the source files.  It checks for a user-requested cancellation and raises
    when there is one; each check is one tick of the world. *)
Definition _test_break {X} : M (X * world) unit :=
  in_world (fun w =>
    let b := user_break os (ticks w) in
    let w' := emit (EvBreakTest b) (set_ticks S w) in
    if b then (Raise (RibmosaicError "Export canceled"), w') else (Ok tt, w')).

(** ** ExporterArchive *)

(** Modelled from the spec: [rm_context.ExportContext.__init__] is not in the
    source files.  A nested context copies the scalar fields of the object it
    is built from. *)
Definition ExportContext_init (export_object : export_object) : ExportContext :=
  match export_object with
  | NoObject => MkContext "" "" None
  | ContextObject c => c
  | ArchiveObject a => context a
  end.

(** [ExporterArchive.__init__].  The class body's defaults come first; the
    class's two rule lists are the empty lists of the class body, which no
    instance appends to since every instance rebinds both attributes here. *)
Definition ExporterArchive_init (export_object : export_object)
    (archive_path' archive_name' : string) : M world ExporterArchive :=
  let self0 :=
    MkArchive (ExportContext_init export_object) true false false "" "" 0 0 None None 0 0 in
  do self1 <-
    match export_object with
    | ArchiveObject parent =>
        ret (MkArchive (context self0) false (is_gzip parent) (is_exec parent)
               (archive_path parent) (archive_name parent)
               (_queque_mode parent) (_queque_priority parent)
               (_pointer_file parent) (_pointer_cache parent)
               (_archive_regexes parent) (_target_regexes parent))
    | _ =>
        do ar <- list_new [];
        do tr <- list_new [];
        ret (with_target_regexes tr (with_archive_regexes ar self0))
    end;
  let self2 := if nonempty archive_path' then with_archive_path archive_path' self1 else self1 in
  let self3 := if nonempty archive_name' then with_archive_name archive_name' self2 else self2 in
  ret self3.

(** [open_archive(gzipped, execute, mode)] *)
Definition open_archive (gzipped execute : option bool) (mode : file_mode) : M astate unit :=
  (match gzipped with Some g => update (with_is_gzip g) | None => ret tt end) >>
  (match execute with Some e => update (with_is_exec e) | None => ret tt end) >>
  do s <- self;
  if nonempty (archive_name s) then
    let filepath := archive_path s +:+ archive_name s in
    try_except
      (do h <- in_world (py_open filepath mode (is_gzip s));
       update (with_pointer_file (Some h)) >>
       when (is_exec s) (in_world (os_chmod_exec filepath)) >>
       update (with_is_root true))
      (raise (RibmosaicError ("Could not open archive " +:+ filepath)))
  else raise (RibmosaicError "Archive's path and name must be specified").

(** The body of [write_text]: the part before [if close:]. *)
Definition write_text_body (text : pytext) : M astate unit :=
  when (pytext_truthy text)
    (do s <- self;
     match _pointer_file s with
     | Some h =>
         if is_gzip s
         then do b <- of_result (py_encode text); in_world (py_write h b)
         else in_world (py_write h text)
     | None => raise (RibmosaicError "Archive already closed, cannot write text")
     end).

(** [self._pointer_file.read()] and [self._pointer_file.close()] *)
Definition pointer_read : M astate pytext :=
  do s <- self;
  match _pointer_file s with
  | Some h => in_world (py_read h)
  | None => raise (PyExc "AttributeError")
  end.
Definition pointer_close : M astate unit :=
  do s <- self;
  match _pointer_file s with
  | Some h => in_world (py_close h)
  | None => raise (PyExc "AttributeError")
  end.

(** [for x in l: text = f x text] *)
Fixpoint fold_text {A} (l : list A) (f : A -> pytext -> result pytext) (text : pytext)
    : result pytext :=
  match l with
  | [] => Returns text
  | x :: l' => val t <- f x text; fold_text l' f t
  end.

(** One regex sub-element applied to the text, for the archive [s]: the body
    of the inner loop of [close_archive]. *)
Definition apply_regex (s : ExporterArchive) (regpath : string) (text : pytext)
    : result pytext :=
  val regex <- get_attr pm s regpath "regex" true "";
  val replace <- get_attr pm s regpath "replace" true "";
  val matches <- get_attr pm s regpath "matches" true "0";
  let regex' := if is_gzip s then PyBytes regex else PyStr regex in
  let replace' := if is_gzip s then PyBytes replace else PyStr replace in
  val count <- py_int matches;
  re_sub regex' replace' text count.

(** The two nested loops of [close_archive] over the rule paths and their
    sub-elements. *)
Definition apply_archive_regexes (s : ExporterArchive) (regexes : list string)
    (text : pytext) : result pytext :=
  fold_text regexes
    (fun xmlpath t =>
       fold_text (list_elements pm xmlpath)
         (fun element t' => apply_regex s (xmlpath +:+ "/" +:+ element) t') t)
    text.

Definition archive_regexes_now : M astate (list string) :=
  do s <- self; do w <- the_world; ret (list_read (_archive_regexes s) w).

(** The body of the [try] block of [close_archive]: the file is read back,
    the rules are applied to the text in memory, and the text is written over
    the file. *)
Definition rewrite_archive : M astate unit :=
  open_archive None None ModeR >>
  do text <- pointer_read;
  pointer_close >>
  do regexes <- archive_regexes_now;
  do s <- self;
  do text' <- of_result (apply_archive_regexes s regexes text);
  open_archive None None ModeW >>
  write_text_body text' >>
  pointer_close >>
  update (with_pointer_file None).

(** [close_archive]; the [except] clause of the rewrite builds a
    [RibmosaicError] and does not raise it. *)
Definition close_archive : M astate unit :=
  do s <- self;
  when (is_root s)
    ((match _pointer_cache s with
      | Some c => in_world (py_close c) >> update (with_pointer_cache None)
      | None => ret tt
      end) >>
     match _pointer_file s with
     | Some h =>
         try_except
           (in_world (py_close h) >> update (with_pointer_file None))
           (raise (RibmosaicError "Cannot close archive")) >>
         do regexes <- archive_regexes_now;
         when (bool_decide (regexes <> []))
           (try_except rewrite_archive (ret tt))
     | None => ret tt
     end).

(** [write_text(text, close)] *)
Definition write_text (text : pytext) (close : bool) : M astate unit :=
  write_text_body text >> when close close_archive.

(** [list_targets(target)] *)
Definition list_targets (target : string) : M astate (list (string * string)) :=
  do s <- self;
  if nonempty target then
    let target' := os_path_split os target in
    let path :=
      if nonempty (fst target') then fst target' +:+ os_sep os
      else target_path (context s) in
    if String.prefix "*" (snd target') then
      if nonempty path then
        try_except
          (do w <- the_world;
           do names <- of_result (os_listdir os (fs w) path);
           ret (map (pair path)
                  (filter (fun f => String.eqb (snd (os_path_splitext os f))
                                      (string_tail (snd target')))
                     names)))
          (raise (RibmosaicError "Cannot find target directory/file, check export and/or library paths"))
      else ret [("", "")]
    else if nonempty (snd target') then ret [(path, snd target')]
    else ret [(path, target_name (context s))]
  else ret [("", "")].

(** [write_code(xmlpath, close)] *)
Definition write_code (xmlpath : string) (close : bool) : M astate unit :=
  do s <- self;
  do target <- of_result (get_attr pm s xmlpath "target" false "");
  do targets <- list_targets target;
  for_each targets
    (fun t =>
       when (nonempty (fst t))
         (update (fun a => with_target (fst t) (target_name (context a)) a)) >>
       when (nonempty (snd t))
         (update (fun a => with_target (target_path (context a)) (snd t) a)) >>
       do s' <- self;
       do text <- of_result (get_text pm s' xmlpath);
       write_text (PyStr text) false) >>
  when close close_archive.

(** [add_regexes(xmlpath)] *)
Definition add_regexes (xmlpath : string) : M astate unit :=
  when (nonempty xmlpath)
    (let subelements := list_elements pm xmlpath in
     when (bool_decide (subelements <> []))
       (do s <- self;
        do target <- of_result (get_attr pm s xmlpath "target" false "");
        if nonempty target
        then in_world (list_append (_target_regexes s) xmlpath)
        else in_world (list_append (_archive_regexes s) xmlpath))).

(** Running a method on a local object: the caller's [self] is untouched and
    the local object is dropped afterwards. *)
Definition on_local {A} (obj : ExporterArchive) (m : M astate A) : M astate A :=
  fun st => let '(r, (_, w')) := m (obj, snd st) in (r, (fst st, w')).

(** [apply_regextargets]; entering it is recorded in the log. *)
Definition apply_regextargets : M astate unit :=
  do s <- self;
  in_world (modify (emit (EvRegexTargets (archive_name s)))) >>
  do w <- the_world;
  for_each (list_read (_target_regexes s) w)
    (fun xmlpath =>
       do s1 <- self;
       do target <- of_result (get_attr pm s1 xmlpath "target" false "");
       do targets <- list_targets target;
       for_each (filter (fun t => nonempty (snd t)) targets)
         (fun t =>
            _test_break >>
            do s2 <- self;
            do archive <- in_world (ExporterArchive_init (ArchiveObject s2) (fst t) (snd t));
            do l1 <- in_world (list_new [xmlpath]);
            do l2 <- in_world (list_new []);
            on_local (with_target_regexes l2 (with_archive_regexes l1 archive))
              (open_archive None None ModeR >> close_archive))).

(** ** ExporterCommand *)

Record ExporterCommand : Type := MkCommand {
  archive : ExporterArchive;
  command_xmlpath : string;
  command_process : option nat;
  delay_build : bool
}.

Definition with_archive (a : ExporterArchive) (c : ExporterCommand) : ExporterCommand :=
  MkCommand a (command_xmlpath c) (command_process c) (delay_build c).
Definition with_command_process (p : option nat) (c : ExporterCommand) : ExporterCommand :=
  MkCommand (archive c) (command_xmlpath c) p (delay_build c).

Definition cstate : Type := ExporterCommand * world.

Definition this : M cstate ExporterCommand := fun s => (Ok (fst s), s).

(** A method inherited from [ExporterArchive], called on a command. *)
Definition inherited {A} (m : M astate A) : M cstate A :=
  zoom (fun t => (archive (fst t), snd t))
       (fun t s => (with_archive (fst s) (fst t), snd s)) m.

(** The attributes an instance has before [ExporterArchive.__init__] ran. *)
Definition class_defaults : ExporterArchive :=
  MkArchive (MkContext "" "" None) true false false "" "" 0 0 None None 0 0.

(** [ExporterCommand.__init__] *)
Definition ExporterCommand_init (export_object : export_object)
    (command_xmlpath' : string) (delay_build' : bool)
    (archive_path' archive_name' : string) (archive_mode : file_mode)
    : M world ExporterCommand :=
  do name <-
    (if nonempty command_xmlpath' && nonempty archive_name'
     then do ext <- of_result (get_attr pm class_defaults command_xmlpath' "extension" false "");
          ret (archive_name' +:+ ext)
     else ret archive_name');
  do a <- ExporterArchive_init export_object archive_path' name;
  fun w =>
    let '(r, (a', w')) :=
      (when (nonempty command_xmlpath') (add_regexes (command_xmlpath' +:+ "/regexes")) >>
       open_archive None (Some true) archive_mode) (a, w) in
    match r with
    | Ok _ => (Ok (MkCommand a' command_xmlpath' None delay_build'), w')
    | Raise e => (Raise e, w')
    | OutOfFuel => (OutOfFuel, w')
    end.

(** [build_code(element, close)] *)
Definition build_code (element : string) (close : bool) : M cstate unit :=
  do c <- this;
  inherited (write_code (command_xmlpath c +:+ "/" +:+ element) close).

(** Delivering the termination signal to a running process. *)
Definition signal_process (pid : nat) (p : process) : M world unit :=
  modify (fun w =>
    emit (EvTerminate pid)
      (set_procs (fun l =>
         <[pid := Process (p_command p)
                    (match p_on_term p, p_left p with
                     | Some k, Some n => Some (Nat.min k n)
                     | Some k, None => Some k
                     | None, l => l
                     end)
                    (p_on_term p) true (p_returncode p)]> l) w)).

(** [os.killpg(pid, signal.SIGTERM)]: exists on POSIX only, and needs a
    process group that is still there. *)
Definition os_killpg (pid : nat) : M world unit :=
  do w <- get;
  if posix os then
    match procs w !! pid with
    | Some p =>
        match p_returncode p with
        | None => signal_process pid p
        | Some _ => raise (PyExc "ProcessLookupError")
        end
    | None => raise (PyExc "ProcessLookupError")
    end
  else raise (PyExc "AttributeError").

(** [Popen.terminate()]: nothing to do once the return code is known. *)
Definition popen_terminate (pid : nat) : M world unit :=
  do w <- get;
  match procs w !! pid with
  | Some p =>
      match p_returncode p with
      | None => signal_process pid p
      | Some _ => ret tt
      end
  | None => raise (PyExc "ProcessLookupError")
  end.

(** [Popen.poll()] *)
Definition popen_poll (pid : nat) : M world (option Z) :=
  do w <- get;
  match procs w !! pid with
  | Some p =>
      modify (emit (EvPoll pid)) >>
      match p_returncode p, p_left p with
      | Some rc, _ => ret (Some rc)
      | None, Some O =>
          let rc := if p_signalled p then (-15)%Z else 0%Z in
          modify (set_procs (fun l =>
            <[pid := Process (p_command p) (Some O) (p_on_term p) (p_signalled p) (Some rc)]> l)) >>
          ret (Some rc)
      | None, Some (S n) =>
          modify (set_procs (fun l =>
            <[pid := Process (p_command p) (Some n) (p_on_term p) (p_signalled p) None]> l)) >>
          ret None
      | None, None => ret None
      end
  | None => raise (PyExc "ReferenceError")
  end.

(** [subprocess.Popen(command, shell=True)] *)
Definition popen (command : string) : M world nat :=
  do w <- get;
  if can_spawn os command then
    let pid := length (procs w) in
    let plan := process_plan os command in
    modify (fun w => emit (EvSpawn pid)
      (set_procs (fun l => l ++ [Process command (fst plan) (snd plan) false None]) w)) >>
    ret pid
  else raise (PyExc "OSError").

(** The attribute [pid] of [self.command_process]. *)
Definition process_pid (c : ExporterCommand) : M cstate nat :=
  match command_process c with
  | Some pid => ret pid
  | None => raise (PyExc "AttributeError")
  end.

(** [terminate_command] *)
Definition terminate_command : M cstate unit :=
  try_except
    (try_except
       (do c <- this; do pid <- process_pid c; in_world (os_killpg pid))
       (do c <- this; do pid <- process_pid c; in_world (popen_terminate pid)))
    (ret tt).

(** The polling loop of [execute_command]; [fuel] bounds its iterations. *)
Fixpoint poll_loop (fuel : nat) : M cstate unit :=
  match fuel with
  | O => fun s => (OutOfFuel, s)
  | S fuel' =>
      do c <- this;
      do pid <- process_pid c;
      do rc <- in_world (popen_poll pid);
      match rc with
      | None => try_except _test_break terminate_command >> poll_loop fuel'
      | Some _ => ret tt
      end
  end.

(** [execute_command] *)
Definition execute_command (fuel : nat) : M cstate unit :=
  do c <- this;
  let xmlpath := command_xmlpath c in
  when (bool_decide (_pointer_file (archive c) <> None))
    (when (delay_build c)
       (build_code "begin" false >> build_code "middle" false >> build_code "end" false) >>
     inherited close_archive) >>
  do execute <-
    try_except
      (do c1 <- this;
       do a <- of_result (get_attr pm (archive c1) xmlpath "execute" true "True");
       of_result (py_eval a))
      (raise (RibmosaicError ("Invalid result for execute attribute in " +:+ xmlpath)));
  when execute
    (try_except (inherited close_archive) (raise (PyExc "UnboundLocalError")) >>
     do c2 <- this;
     let command := archive_path (archive c2) +:+ archive_name (archive c2) in
     try_except
       (do pid <- try_except
                    (if posix os then in_world (popen command)
                     else raise (PyExc "AttributeError"))
                    (in_world (popen command));
        modify (fun s => (with_command_process (Some pid) (fst s), snd s)))
       (raise (RibmosaicError ("Could not execute command " +:+ command))) >>
     do c3 <- this;
     do interactive <-
       match pointer_datablock (context (archive c3)) with
       | Some d => ret (ribmosaic_interactive d)
       | None => raise (PyExc "AttributeError")
       end;
     when (negb interactive)
       (poll_loop fuel >> inherited apply_regextargets)).

(** ** ExporterManager *)

Inductive category : Type := OPTIMIZE | COMPILE | INFO | RENDER | POSTRENDER.

#[export] Instance category_eq_dec : EqDecision category.
Proof. solve_decision. Defined.

(** Python's [range(start, stop, step)]. *)
Record py_range : Type := MkRange {
  range_start : Z;
  range_stop : Z;
  range_step : Z
}.

(** [range(start, stop, step)]: a zero step is a [ValueError]. *)
Definition py_range_new (start stop step : Z) : result py_range :=
  if (step =? 0)%Z then Raises (PyExc "ValueError") else Returns (MkRange start stop step).

(** [f in r] for an integer [f], as [range.__contains__] computes it. *)
Definition range_contains (r : py_range) (f : Z) : bool :=
  if (0 <? range_step r)%Z
  then (range_start r <=? f)%Z && (f <? range_stop r)%Z
       && ((f - range_start r) mod range_step r =? 0)%Z
  else (range_stop r <? f)%Z && (f <=? range_start r)%Z
       && ((range_start r - f) mod (- range_step r) =? 0)%Z.

(** [len(r)] and [list(r)]: the values an iteration over [r] yields. *)
Definition range_length (r : py_range) : Z :=
  if (0 <? range_step r)%Z
  then (if (range_start r <? range_stop r)%Z
        then (range_stop r - range_start r - 1) / range_step r + 1 else 0)%Z
  else (if (range_stop r <? range_start r)%Z
        then (range_start r - range_stop r - 1) / (- range_step r) + 1 else 0)%Z.

Definition range_elements (r : py_range) : list Z :=
  map (fun k => (range_start r + Z.of_nat k * range_step r)%Z)
      (seq 0 (Z.to_nat (range_length r))).

(** The attributes of the manager the modelled methods read or write. *)
Record ExporterManager : Type := MkManager {
  export_frame : Z;
  export_scene : option Scene;
  export_directory : string;
  export_passes : list Pass;
  command_scripts : category -> list ExporterCommand;
  _pass_ranges : list py_range
}.

Definition with_command_scripts (t : category) (l : list ExporterCommand)
    (m : ExporterManager) : ExporterManager :=
  MkManager (export_frame m) (export_scene m) (export_directory m) (export_passes m)
    (fun t' => if decide (t' = t) then l else command_scripts m t') (_pass_ranges m).

(** The frame range of a pass: its own fields, or the scene's where a field
    is zero. *)
Definition pass_frame_range (sc : Scene) (p : Pass) : Z * Z * Z :=
  (if (pass_range_start p =? 0)%Z then frame_start sc else pass_range_start p,
   if (pass_range_end p =? 0)%Z then frame_end sc else pass_range_end p,
   if (pass_range_step p =? 0)%Z then frame_step sc else pass_range_step p).

(** [_update_directory(scene)]: the pass collection and its frame ranges, then
    the export directory. *)
Definition _update_directory (scene : option Scene) : M ExporterManager unit :=
  do m <- get;
  let scene1 :=
    match scene with
    | Some sc => Some sc
    | None => match export_scene m with Some sc => Some sc | None => bpy_scene os end
    end in
  match scene1 with
  | Some sc =>
      let collection :=
        match ribmosaic_passes sc with [] => [beauty_pass os] | l => l end in
      modify (fun m => MkManager (export_frame m) (export_scene m) (export_directory m)
                         collection (command_scripts m) []) >>
      for_each collection
        (fun p =>
           let '(start, end_, step) := pass_frame_range sc p in
           do r <- of_result (py_range_new start (end_ + 1) step);
           modify (fun m => MkManager (export_frame m) (export_scene m) (export_directory m)
                              (export_passes m) (command_scripts m) (_pass_ranges m ++ [r]))) >>
      do path <-
        (if nonempty (ribmosaic_export_path sc)
         then of_result (resolve_path os (ribmosaic_export_path sc))
         else raise (RibmosaicError "No export directory specified"));
      modify (fun m =>
        MkManager (export_frame m)
          (Some (MkScene (frame_start sc) (frame_end sc) (frame_step sc) (frame_current sc)
                   (ribmosaic_interactive sc) (ribmosaic_compileshd sc)
                   (ribmosaic_optimizetex sc) (ribmosaic_renderrib sc)
                   (ribmosaic_export_path sc) collection))
          path (export_passes m) (command_scripts m) (_pass_ranges m))
  | None => raise (RibmosaicError "Cannot determine active scene for export directory")
  end.

(** The test at the head of [export_rib]'s loop:
    [p.pass_enabled and f in self._pass_ranges[i]]. *)
Definition pass_selected (m : ExporterManager) (f : Z) (i : nat) (p : Pass) : result bool :=
  if pass_enabled p then
    match _pass_ranges m !! i with
    | Some r => Returns (range_contains r f)
    | None => Raises (PyExc "IndexError")
    end
  else Returns false.

(** [execute_commands] runs on the manager, its local [root] script and the
    world. *)
Definition estate : Type := (ExporterCommand * ExporterManager) * world.

Definition manager : M estate ExporterManager := fun s => (Ok (snd (fst s)), s).

Definition on_root {A} (m : M astate A) : M estate A :=
  zoom (fun t => (archive (fst (fst t)), snd t))
       (fun t s => ((with_archive (fst s) (fst (fst t)), snd (fst t)), snd s)) m.

(** A method called on the [i]-th command of bucket [t]; the command object
    in the bucket is the one the method mutates. *)
Definition on_command {A} (t : category) (i : nat) (m : M cstate A) : M estate A :=
  fun st =>
    let mgr := snd (fst st) in
    match command_scripts mgr t !! i with
    | None => (Raise (PyExc "IndexError"), st)
    | Some s =>
        let '(r, (s', w')) := m (s, snd st) in
        (r, ((fst (fst st), with_command_scripts t (<[i := s']> (command_scripts mgr t)) mgr), w'))
    end.

Definition newline : string := String (ascii_of_nat 10) EmptyString.

(** The body of the loop over one bucket, for the command at index [i]. *)
Definition execute_one (fuel : nat) (t : category) (c o r : bool) (i : nat) : M estate unit :=
  when (((bool_decide (t = RENDER) || bool_decide (t = POSTRENDER)) && r)
        || ((bool_decide (t = COMPILE) || bool_decide (t = INFO)) && c)
        || (bool_decide (t = OPTIMIZE) && o))
    (on_command t i (execute_command fuel)) >>
  when (bool_decide (t <> INFO))
    (do s <- on_command t i this;
     on_root (write_text (PyStr ("." +:+ os_sep os +:+ archive_name (archive s) +:+ newline)) false)).

(** The loops of [execute_commands] over the buckets (the body of its [try]
    block): every bucket in the fixed order, every command of the bucket,
    and the bucket cleared afterwards unless the scene is interactive. *)
Definition drain_buckets (fuel : nat) (c o r interactive : bool) : M estate unit :=
  for_each [OPTIMIZE; COMPILE; INFO; RENDER; POSTRENDER]
    (fun t =>
       do m <- manager;
       for_each (seq 0 (length (command_scripts m t))) (execute_one fuel t c o r) >>
       when (negb interactive)
         (modify (fun st : estate =>
            ((fst (fst st), with_command_scripts t [] (snd (fst st))), snd st)))).

(** [execute_commands]; [fuel] bounds each command's polling loop. *)
Definition execute_commands (fuel : nat) (mgr : ExporterManager) : M world ExporterManager :=
  match export_scene mgr with
  | None => raise (PyExc "AttributeError")
  | Some sc =>
      let c := ribmosaic_compileshd sc in
      let o := ribmosaic_optimizetex sc in
      let r := if ribmosaic_interactive sc then true else ribmosaic_renderrib sc in
      do root <- ExporterCommand_init NoObject "" false ("." +:+ os_sep os) "START.sh.bat" ModeA;
      fun w =>
        let '(res, ((_, mgr'), w')) :=
          (try_except (drain_buckets fuel c o r (ribmosaic_interactive sc)) (ret tt) >>
           on_root close_archive) ((root, mgr), w) in
        match res with
        | Ok _ => (Ok mgr', w')
        | Raise e => (Raise e, w')
        | OutOfFuel => (OutOfFuel, w')
        end
  end.

(** What [export_rib] does for a selected pass (context set-up, RIB export,
    RENDER and POSTRENDER command generation): it works on the command
    buckets and the world, and is left open here. *)
Variable export_pass :
  Scene -> Z -> nat -> Pass -> M ((category -> list ExporterCommand) * world) unit.

Definition mstate : Type := ExporterManager * world.

Definition with_buckets (b : category -> list ExporterCommand) (m : ExporterManager)
    : ExporterManager :=
  MkManager (export_frame m) (export_scene m) (export_directory m) (export_passes m)
    b (_pass_ranges m).

(** What [export_rib] does for a selected pass, run on the manager: only the
    command buckets and the world are in its reach. *)
Definition on_buckets (m : M ((category -> list ExporterCommand) * world) unit)
    : M mstate unit :=
  zoom (fun t : mstate => (command_scripts (fst t), snd t))
       (fun t s => (with_buckets (fst s) (fst t), snd s)) m.

(** The loop of [export_rib] over [enumerate(self.export_passes)], from index
    [i] on. *)
Fixpoint export_rib_loop (sc : Scene) (f : Z) (i : nat) (ps : list Pass) : M mstate unit :=
  match ps with
  | [] => ret tt
  | p :: ps' =>
      do st <- get;
      do sel <- of_result (pass_selected (fst st) f i p);
      when sel (on_buckets (export_pass sc f i p)) >>
      export_rib_loop sc f (S i) ps'
  end.

(** [export_rib] *)
Definition export_rib : M mstate unit :=
  do st <- get;
  match export_scene (fst st) with
  | None => raise (PyExc "AttributeError")
  | Some sc =>
      let f := frame_current sc in
      modify (fun st : mstate =>
        (MkManager f (export_scene (fst st)) (export_directory (fst st))
           (export_passes (fst st)) (command_scripts (fst st)) (_pass_ranges (fst st)),
         snd st)) >>
      export_rib_loop sc f 0 (export_passes (fst st))
  end.

End Engine.

(** ** States reached by the archive methods

    The functions below name the archive and the world that [open_archive]
    and [close_archive] lead to, so that the statements about them can say
    what changed. *)

(** The file of an archive: [archive_path + archive_name]. *)
Definition archive_file (a : ExporterArchive) : string :=
  archive_path a +:+ archive_name a.

(** The archive after the [gzipped] and [execute] arguments of
    [open_archive] were stored. *)
Definition configured (gzipped execute : option bool) (a : ExporterArchive) : ExporterArchive :=
  let a1 := match gzipped with Some g => with_is_gzip g a | None => a end in
  match execute with Some e => with_is_exec e a1 | None => a1 end.

(** The archive after a successful [open_archive] that created the file
    object [h]. *)
Definition opened (gzipped execute : option bool) (h : nat) (a : ExporterArchive)
    : ExporterArchive :=
  with_is_root true (with_pointer_file (Some h) (configured gzipped execute a)).

Definition mark_exec (b : bool) (path : string) (w : world) : world :=
  if b then set_executable (fun s => {[path]} ∪ s) w else w.

(** The world after a successful [open_archive]. *)
Definition opened_world (gzipped execute : option bool) (mode : file_mode)
    (a : ExporterArchive) (w : world) : world :=
  let a1 := configured gzipped execute a in
  mark_exec (is_exec a1) (archive_file a)
    (open_world (archive_file a) mode (is_gzip a1) w).

(** What [read()] returns for the content [d] through a file object opened
    with or without gzip. *)
Definition decoded (gz : bool) (d : file_data) : result pytext :=
  match gz, fd_gzip d with
  | true, true => Returns (PyBytes (fd_data d))
  | false, false =>
      if valid_utf8 (fd_data d) then Returns (PyStr (universal_newlines (fd_data d)))
      else Raises (PyExc "UnicodeDecodeError")
  | true, false =>
      if nonempty (fd_data d) then Raises (PyExc "BadGzipFile") else Returns (PyBytes "")
  | false, true => Raises (PyExc "UnicodeDecodeError")
  end.

(** The world once the file object [h] has been closed. *)
Definition released (h : nat) (w : world) : world := snd (py_close h w).

(** The archive as the rule loop of [close_archive] sees it: the pointer was
    dropped and the file reopened for reading as file object [h]. *)
Definition reopened (h : nat) (a : ExporterArchive) : ExporterArchive :=
  opened None None h (with_pointer_file None a).

(** The world once [s] has been written through the file object [h]. *)
Definition written (h : nat) (s : string) (w : world) : world :=
  set_files (fun l =>
    match l !! h with
    | Some fo => <[h := FileObject (fo_path fo) (fo_mode fo) (fo_gzip fo) false
                          (fo_buffer fo +:+ s)]> l
    | None => l
    end) w.

(** ** A POSIX platform and a table-driven pipeline, for the examples *)

Definition is_slash (c : ascii) : bool := Ascii.eqb c "/"%char.
Definition is_dot (c : ascii) : bool := Ascii.eqb c "."%char.

Fixpoint take_while (p : ascii -> bool) (l : list ascii) : list ascii :=
  match l with
  | c :: l' => if p c then c :: take_while p l' else []
  | [] => []
  end.

Fixpoint drop_while (p : ascii -> bool) (l : list ascii) : list ascii :=
  match l with
  | c :: l' => if p c then drop_while p l' else l
  | [] => []
  end.

Definition rev_string (l : list ascii) : string := string_of_list_ascii (rev l).

(** [posixpath.split]: everything after the last slash is the tail; the head
    loses its trailing slashes unless it consists of slashes only. *)
Definition posix_split (p : string) : string * string :=
  let r := rev (list_ascii_of_string p) in
  let tail := take_while (fun c => negb (is_slash c)) r in
  let head := drop_while (fun c => negb (is_slash c)) r in
  let stripped := drop_while is_slash head in
  (rev_string (match stripped with [] => head | _ => stripped end), rev_string tail).

(** [posixpath.splitext]: the extension starts at the last dot of the last
    path component, unless only dots precede it there. *)
Definition posix_splitext (p : string) : string * string :=
  let r := rev (list_ascii_of_string p) in
  let ext := take_while (fun c => negb (is_dot c || is_slash c)) r in
  match drop_while (fun c => negb (is_dot c || is_slash c)) r with
  | c :: root =>
      if is_dot c && existsb (fun x => negb (is_dot x)) (take_while (fun x => negb (is_slash x)) root)
      then (rev_string root, rev_string (ext ++ [c]))
      else (p, "")
  | [] => (p, "")
  end.

(** [os.listdir(path)] for a path that ends with a slash: the files right in
    that directory; a directory is there when some file lies below it. *)
Definition posix_listdir (m : gmap string file_data) (path : string) : result (list string) :=
  let below :=
    omap (fun kv : string * file_data =>
            if String.prefix path (fst kv)
            then Some (String.substring (String.length path) (String.length (fst kv)) (fst kv))
            else None)
         (map_to_list m) in
  match below with
  | [] => Raises (PyExc "FileNotFoundError")
  | _ => Returns (filter (fun f => all_chars (fun c => negb (is_slash c)) f) below)
  end.

(** A POSIX platform: the scripts run as [plan] says, the user presses the
    break key as [break] says; [int], [eval] and [re.sub] accept nothing
    outside the fragments defined above. *)
Definition posix_platform (plan : string -> option nat * option nat) (break : nat -> bool)
    : platform :=
  Platform "/" posix_split posix_splitext posix_listdir true (fun _ => true) plan break
    (fun _ => Raises (PyExc "ValueError"))
    (fun _ => Raises (PyExc "NameError"))
    (fun _ _ _ _ => Raises (PyExc "error"))
    None (MkPass true 0 0 0) (fun p => Returns p).

(** A pipeline given by its tables: the sub-elements of each path, the
    attributes by path and name, and the text of each path.  An attribute
    that is not in the table has the default value. *)
Definition lookup_table {A} (key : string) (table : list (string * A)) : option A :=
  snd <$> find (fun kv => String.eqb (fst kv) key) table.

Definition table_pipeline (elements : list (string * list string))
    (attributes : list (string * string)) (texts : list (string * string))
    : pipeline_manager :=
  PipelineManager
    (fun path => default [] (lookup_table path elements))
    (fun _ path name _ dflt =>
       Returns (default dflt (lookup_table (path +:+ "@" +:+ name) attributes)))
    (fun _ path => Returns (default "" (lookup_table path texts))).

Definition empty_world : world := World ∅ ∅ ∅ [] [] [] 0 [].

(** The state after [ExporterArchive(None, path, name)] in the world [w]. *)
Definition new_archive (path name : string) (w : world) : astate :=
  match ExporterArchive_init NoObject path name w with
  | (Ok a, w') => (a, w')
  | (_, w') => (class_defaults, w')
  end.

(** Running a method and going on from the state it leaves, whatever its
    result. *)
Definition after {S A} (m : M S A) (s : S) : S := snd (m s).

(** The platform of the examples: scripts exit at their first poll and nobody
    presses the break key. *)
Definition quiet_platform : platform :=
  posix_platform (fun _ => (Some 0, Some 0)) (fun _ => false).

(** A pipeline whose panel [Render] registers one whole-archive rule: the
    first [foo] becomes [baz]. *)
Definition foo_pipeline : pipeline_manager :=
  table_pipeline
    [("Render/regexes", ["first_foo"])]
    [("Render/regexes/first_foo@regex", "foo");
     ("Render/regexes/first_foo@replace", "baz");
     ("Render/regexes/first_foo@matches", "1")]
    [].

(** The same panel with a [matches] attribute that is no number. *)
Definition broken_pipeline : pipeline_manager :=
  table_pipeline
    [("Render/regexes", ["first_foo"])]
    [("Render/regexes/first_foo@regex", "foo");
     ("Render/regexes/first_foo@replace", "baz");
     ("Render/regexes/first_foo@matches", "many")]
    [].

(** A root archive [./scene.rib], opened for writing (with gzip when [gz]),
    with the rules of [Render] registered and [foo bar foo] written to it. *)
Definition foo_archive (pm : pipeline_manager) (os : platform) (gz : bool) : astate :=
  after (write_text pm os (PyStr "foo bar foo") false)
    (after (add_regexes pm "Render/regexes")
       (after (open_archive (Some gz) None ModeW)
          (new_archive "./" "scene.rib" empty_world))).

(** An archive's file object is not open: the archive holds none, or the one
    it holds is closed. *)
Definition handle_not_open (a : ExporterArchive) (w : world) : Prop :=
  match _pointer_file a with
  | None => True
  | Some h => forall fo, files w !! h = Some fo -> fo_closed fo = true
  end.

(** The rules of the registered paths, in registration order: each path's
    sub-elements, path by path. *)
Definition registered_rules (pm : pipeline_manager) (regexes : list string) : list string :=
  flat_map (fun xmlpath => map (fun element => xmlpath +:+ "/" +:+ element)
                             (list_elements pm xmlpath))
           regexes.

(** The archive that [ExporterArchive(parent, path, name)] builds. *)
Definition built_from (parent : ExporterArchive) (path name : string) (w : world)
    : ExporterArchive :=
  match ExporterArchive_init (ArchiveObject parent) path name w with
  | (Ok child, _) => child
  | _ => parent
  end.

(** The range of a pass, as [_update_directory] builds it:
    [range(start, end + 1, step)]. *)
Definition pass_range (sc : Scene) (p : Pass) : py_range :=
  let '(start, end_, step) := pass_frame_range sc p in
  MkRange start (end_ + 1) step.

(** ** The passes due at a frame, in the words of the specification

    A frame belongs to a pass iff it is in [range(start, end + 1, step)];
    [export_rib] is to process the enabled passes the frame belongs to. *)
Definition pass_due (sc : Scene) (f : Z) (p : Pass) : bool :=
  pass_enabled p && bool_decide (f ∈ range_elements (pass_range sc p)).

(** [enumerate(l)], counting from [i]. *)
Fixpoint enumerate_from {A} (i : nat) (l : list A) : list (nat * A) :=
  match l with
  | [] => []
  | x :: l' => (i, x) :: enumerate_from (S i) l'
  end.

(** The passes due at frame [f], with their indices in the collection. *)
Definition due_passes (sc : Scene) (f : Z) (ps : list Pass) : list (nat * Pass) :=
  filter (fun ip => pass_due sc f (snd ip)) (enumerate_from 0 ps).

(** Processing the given passes one after the other, each with its index. *)
Definition export_passes_in_turn
    (export_pass : Scene -> Z -> nat -> Pass ->
                   M ((category -> list ExporterCommand) * world) unit)
    (sc : Scene) (f : Z) (l : list (nat * Pass)) : M mstate unit :=
  for_each l (fun ip => on_buckets (export_pass sc f (fst ip) (snd ip))).

(** The manager with the frame being exported set. *)
Definition with_export_frame (f : Z) (m : ExporterManager) : ExporterManager :=
  MkManager f (export_scene m) (export_directory m) (export_passes m)
    (command_scripts m) (_pass_ranges m).

(** A scene with one enabled pass over the frames 1 to 10 in steps of 2, and
    a manager that has exported nothing yet. *)
Definition odd_frames_scene : Scene :=
  MkScene 1 250 1 3 false true true true "//renders" [MkPass true 1 10 2].

Definition new_manager : ExporterManager :=
  MkManager 0 None "" [] (fun _ => []) [].

(** ** Properties of methods used in the proofs *)

(** A computation that has no polling loop in it never runs out of fuel. *)
Definition fuel_free {S A} (m : M S A) : Prop := forall s, fst (m s) <> OutOfFuel.

(** Closed file objects are the same in [w'] as in [w]. *)
Definition closed_stable (w w' : world) : Prop :=
  forall i fo, files w !! i = Some fo -> fo_closed fo = true -> files w' !! i = Some fo.

Definition keeps_closed {X A} (m : M (X * world) A) : Prop :=
  forall s, closed_stable (snd s) (snd (snd (m s))).

(** [m] keeps the state inside [I], whatever its result. *)
Definition inv {S A} (I : S -> Prop) (m : M S A) : Prop :=
  forall s, I s -> I (snd (m s)).

(** The archive [ExporterArchive.__init__] builds from an archive. *)
Definition child_archive (parent : ExporterArchive) (path name : string) : ExporterArchive :=
  let c := MkArchive (context parent) false (is_gzip parent) (is_exec parent)
             (archive_path parent) (archive_name parent)
             (_queque_mode parent) (_queque_priority parent)
             (_pointer_file parent) (_pointer_cache parent)
             (_archive_regexes parent) (_target_regexes parent) in
  let c1 := if nonempty path then with_archive_path path c else c in
  if nonempty name then with_archive_name name c1 else c1.

(** An archive inside an invariant: its file objects are among those it may
    touch ([own]) and its name is [n]. *)
Definition owns (own : nat -> Prop) (n : string) (a : ExporterArchive) : Prop :=
  (forall h, _pointer_file a = Some h -> own h)
  /\ (forall h, _pointer_cache a = Some h -> own h)
  /\ archive_name a = n.

(** The invariants of archive and command methods: [W] holds of the world
    and the object owns its file objects. *)
Definition ainv (W : world -> Prop) (own : nat -> Prop) (n : string) (s : astate) : Prop :=
  owns own n (fst s) /\ W (snd s).

Definition cinv (W : world -> Prop) (own : nat -> Prop) (n : string) (s : cstate) : Prop :=
  owns own n (archive (fst s)) /\ W (snd s).

(** ** The root script *)

(** The world keeps the file object [fo0] at [h0] and the empty list at
    [r0]; a method may touch every file object but [h0]. *)
Definition kept (h0 : nat) (fo0 : file_object) (r0 : nat) (w : world) : Prop :=
  files w !! h0 = Some fo0 /\ lists w !! r0 = Some [].

Definition other_than (h0 h : nat) : Prop := h <> h0.

Definition join (l : list string) : string := fold_right String.append "" l.

(** The line of a command in the root script. *)
Definition script_line (os : platform) (name : string) : string :=
  "." +:+ os_sep os +:+ name +:+ newline.

Definition bucket_names (mgr : ExporterManager) (t : category) : list string :=
  map (fun s => archive_name (archive s)) (command_scripts mgr t).

(** The lines of one bucket: none for INFO. *)
Definition bucket_lines (os : platform) (mgr : ExporterManager) (t : category) : string :=
  if bool_decide (t = INFO) then ""
  else join (map (script_line os) (bucket_names mgr t)).

(** The lines of all buckets, in the order in which they are drained. *)
Definition root_lines (os : platform) (mgr : ExporterManager) : string :=
  join (map (bucket_lines os mgr) [OPTIMIZE; COMPILE; INFO; RENDER; POSTRENDER]).

(** The state of [execute_commands] inside its loops: the root script holds
    the open file object [h0], through which [buf] went so far; no command
    of a bucket holds [h0]. *)
Definition einv (h0 r0 : nat) (path buf : string) (st : estate) : Prop :=
  let root := archive (fst (fst st)) in
  let mgr := snd (fst st) in
  let w := snd st in
  _pointer_file root = Some h0 /\ _pointer_cache root = None
  /\ is_root root = true /\ is_gzip root = false
  /\ _archive_regexes root = r0
  /\ kept h0 (FileObject path ModeA false false buf) r0 w
  /\ forall t i s, command_scripts mgr t !! i = Some s ->
       owns (other_than h0) (archive_name (archive s)) (archive s).

(** Every file object held by a queued command is one of the world's. *)
Definition bucket_handles_exist (mgr : ExporterManager) (w : world) : Prop :=
  forall t i s, command_scripts mgr t !! i = Some s ->
    (forall h, _pointer_file (archive s) = Some h -> h < length (files w))
    /\ (forall h, _pointer_cache (archive s) = Some h -> h < length (files w)).

(** ** The examples of [execute_command] and [execute_commands] *)

(** A scene that is not interactive and has every export option on, and an
    export context on it. *)
Definition batch_scene : Scene :=
  MkScene 1 250 1 3 false true true true "//renders" [].

Definition batch_context : ExportContext := MkContext "./" "" (Some batch_scene).

(** A pipeline whose command panels write [.sh] scripts and have no rules. *)
Definition script_pipeline : pipeline_manager :=
  table_pipeline []
    [("Optimize@extension", ".sh"); ("Compile@extension", ".sh");
     ("Info@extension", ".sh"); ("Render@extension", ".sh")]
    [].

(** The state after [ExporterCommand(context, xmlpath, False, "./", name, 'w')]
    in the world [w]. *)
Definition new_command (pm : pipeline_manager) (xmlpath name : string) (w : world) : cstate :=
  match ExporterCommand_init pm (ContextObject batch_context) xmlpath false "./" name ModeW w with
  | (Ok c, w') => (c, w')
  | (_, w') => (MkCommand class_defaults xmlpath None false, w')
  end.

(** A manager with one command in each of the buckets OPTIMIZE, COMPILE, INFO
    and RENDER, and the world in which the four scripts are open. *)
Definition queued_manager : ExporterManager * world :=
  let tex := new_command script_pipeline "Optimize" "tex" empty_world in
  let shader := new_command script_pipeline "Compile" "shader" (snd tex) in
  let info := new_command script_pipeline "Info" "info" (snd shader) in
  let render := new_command script_pipeline "Render" "render" (snd info) in
  (MkManager 1 (Some batch_scene) "./" []
     (fun t => match t with
               | OPTIMIZE => [fst tex]
               | COMPILE => [fst shader]
               | INFO => [fst info]
               | RENDER => [fst render]
               | POSTRENDER => []
               end) [],
   snd render).

(** The same pipeline, with an [execute] attribute of the panel [Optimize]
    that is no Python expression [eval] accepts. *)
Definition stubborn_pipeline : pipeline_manager :=
  table_pipeline []
    [("Optimize@extension", ".sh"); ("Compile@extension", ".sh");
     ("Info@extension", ".sh"); ("Render@extension", ".sh");
     ("Optimize@execute", "maybe")]
    [].

(** The root script's path. *)
Definition root_script_path (os : platform) : string :=
  ("." +:+ os_sep os) +:+ "START.sh.bat".

(** The log of the world starts with [L]. *)
Definition log_from (L : list event) (w : world) : Prop := exists l, log w = L ++ l.

(** The process [p] once the termination signal was delivered to it. *)
Definition signalled (p : process) : process :=
  Process (p_command p)
    (match p_on_term p, p_left p with
     | Some k, Some n => Some (Nat.min k n)
     | Some k, None => Some k
     | None, l => l
     end)
    (p_on_term p) true (p_returncode p).

(** A platform on which every script runs for three polls, or exits at once
    when it is signalled, and on which the user presses the break key before
    the first check. *)
Definition cancelling_platform : platform :=
  posix_platform (fun _ => (Some 3, Some 0)) (fun t => Nat.eqb t 0).

(** The command [./render.sh], with its script closed. *)
Definition closed_command : cstate :=
  after (inherited (close_archive script_pipeline quiet_platform))
    (new_command script_pipeline "Render" "render" empty_world).

(** A scene at frame [f] with three passes: the odd frames from 1 to 9, the
    even frames from 2 to 10, and a disabled pass over every frame. *)
Definition three_pass_scene (f : Z) : Scene :=
  MkScene 1 250 1 f false true true true "//renders"
    [MkPass true 1 10 2; MkPass true 2 10 2; MkPass false 0 0 0].

(** A stand-in for what [export_rib] does for a pass: it queues one RENDER
    command, named after the number of the pass. *)
Definition queue_render (pm : pipeline_manager) (sc : Scene) (f : Z) (i : nat) (p : Pass)
    : M ((category -> list ExporterCommand) * world) unit :=
  fun st =>
    match ExporterCommand_init pm (ContextObject (MkContext "./Archives/" "" (Some sc)))
            "Render" false "./" ("RENDER_P" +:+ String (ascii_of_nat (49 + i)) "")
            ModeW (snd st) with
    | (Ok c, w') =>
        (Ok tt, (fun t => if decide (t = RENDER) then fst st RENDER ++ [c] else fst st t, w'))
    | (Raise e, w') => (Raise e, (fst st, w'))
    | (OutOfFuel, w') => (OutOfFuel, (fst st, w'))
    end.

(** The names of the RENDER commands queued by [_update_directory] and
    [export_rib] for the scene, starting from a manager that has exported
    nothing. *)
Definition render_names_at (f : Z) : list string :=
  let m := snd (_update_directory quiet_platform (Some (three_pass_scene f)) new_manager) in
  map (fun c => archive_name (archive c))
    (command_scripts
       (fst (snd (export_rib (queue_render script_pipeline) (m, empty_world)))) RENDER).

(** Nothing was started, polled or signalled since [w0], and no
    cancellation was looked for. *)
Definition quiet_since (w0 w : world) : Prop :=
  log w = log w0 /\ procs w = procs w0 /\ ticks w = ticks w0.

(** The archive is still the script of [a0]: same file, same datablock. *)
Definition same_script (a0 a : ExporterArchive) : Prop :=
  archive_path a = archive_path a0 /\ archive_name a = archive_name a0
  /\ pointer_datablock (context a) = pointer_datablock (context a0).

(** The command [./info.sh] of the panel [Info], built with [delay_build]:
    its script is open and empty until the command is executed. *)
Definition delayed_command : cstate :=
  match ExporterCommand_init script_pipeline (ContextObject batch_context) "Info" true
          "./" "info" ModeW empty_world with
  | (Ok c, w') => (c, w')
  | (_, w') => (MkCommand class_defaults "Info" None true, w')
  end.

(** * Further definitions

    ** What a file holds after it was written through an archive *)

(** The content a file starts from when it is opened for writing: nothing
    with ['w'] or when there was no file, what the file had with ['a']. *)
Definition content_at_open (mode : file_mode) (gz : bool) (old : option file_data)
    : file_data :=
  match mode, old with
  | ModeA, Some d => d
  | _, _ => FileData gz ""
  end.

(** An archive [./missing.rib] whose file was never written. *)
Definition missing_archive : astate := new_archive "./" "missing.rib" empty_world.

(** ** Examples for rules, targets and panel code *)

(** A pipeline with a panel [Tex]: whole-archive rules under [Tex/regexes],
    rules for the target file [maps/wood.tx] under [Tex/targets], and three
    code elements of which [middle] names the same target. *)
Definition target_pipeline : pipeline_manager :=
  table_pipeline
    [("Tex/regexes", ["first_foo"]); ("Tex/targets", ["first_foo"])]
    [("Tex@extension", ".sh");
     ("Tex/targets@target", "maps/wood.tx");
     ("Tex/targets/first_foo@regex", "foo");
     ("Tex/targets/first_foo@replace", "baz");
     ("Tex/targets/first_foo@matches", "1");
     ("Tex/regexes/first_foo@regex", "foo");
     ("Tex/regexes/first_foo@replace", "baz");
     ("Tex/regexes/first_foo@matches", "1");
     ("Tex/middle@target", "maps/wood.tx")]
    [("Tex/begin", "txmake "); ("Tex/middle", "wood"); ("Tex/end", " done")].

(** The archive [./scene.rib] of an export context, open for writing. *)
Definition open_scene_archive : astate :=
  after (open_archive None None ModeW) (new_archive "./" "scene.rib" empty_world).

(** * Reasoning about methods *)

Lemma bind_ok {S A B} (m : M S A) (k : A -> M S B) s a s' :
  m s = (Ok a, s') -> bind m k s = k a s'.
Proof. unfold bind. now intros ->. Qed.

Lemma bind_raise {S A B} (m : M S A) (k : A -> M S B) s e s' :
  m s = (Raise e, s') -> bind m k s = (Raise e, s').
Proof. unfold bind. now intros ->. Qed.

Lemma bind_fuel {S A B} (m : M S A) (k : A -> M S B) s s' :
  m s = (OutOfFuel, s') -> bind m k s = (OutOfFuel, s').
Proof. unfold bind. now intros ->. Qed.

Lemma try_except_ok {S A} (m h : M S A) s a s' :
  m s = (Ok a, s') -> try_except m h s = (Ok a, s').
Proof. unfold try_except. now intros ->. Qed.

Lemma try_except_raise {S A} (m h : M S A) s e s' :
  m s = (Raise e, s') -> try_except m h s = h s'.
Proof. unfold try_except. now intros ->. Qed.

Lemma in_world_run {X A} (m : M world A) (x : X) w :
  in_world m (x, w) = (fst (m w), (x, snd (m w))).
Proof. unfold in_world, zoom. cbn. now destruct (m w). Qed.


Lemma fuel_free_ret {S A} (a : A) : fuel_free (@ret S A a).
Proof. intros s. discriminate. Qed.

Lemma fuel_free_raise {S A} e : fuel_free (@raise S A e).
Proof. intros s. discriminate. Qed.

Lemma fuel_free_get {S} : fuel_free (@get S).
Proof. intros s. discriminate. Qed.

Lemma fuel_free_modify {S} f : fuel_free (@modify S f).
Proof. intros s. discriminate. Qed.

Lemma fuel_free_bind {S A B} (m : M S A) (k : A -> M S B) :
  fuel_free m -> (forall a, fuel_free (k a)) -> fuel_free (bind m k).
Proof.
  intros Hm Hk s. unfold bind. specialize (Hm s).
  destruct (m s) as [[a|e|] s1]; cbn in *; [apply Hk|discriminate|congruence].
Qed.

Lemma fuel_free_try {S A} (m h : M S A) :
  fuel_free m -> fuel_free h -> fuel_free (try_except m h).
Proof.
  intros Hm Hh s. unfold try_except. specialize (Hm s).
  destruct (m s) as [[a|e|] s1]; cbn in *; [discriminate|apply Hh|congruence].
Qed.

Lemma fuel_free_zoom {S T A} (p : T -> S) (i : T -> S -> T) (m : M S A) :
  fuel_free m -> fuel_free (zoom p i m).
Proof.
  intros Hm t. unfold zoom. specialize (Hm (p t)). now destruct (m (p t)).
Qed.

Lemma fuel_free_of_result {S A} (r : result A) : fuel_free (@of_result S A r).
Proof. intros s. now destruct r. Qed.

(** A bare [try: ... except: pass] around a fuel-free body always returns. *)
Lemma try_except_pass {S} (m : M S unit) s :
  fuel_free m -> exists s', try_except m (ret tt) s = (Ok tt, s').
Proof.
  intros Hm. unfold try_except. specialize (Hm s).
  destruct (m s) as [[[]|e|] s1]; cbn in *; [eauto|unfold ret; eauto|congruence].
Qed.

Ltac fuel_free_step :=
  match goal with
  | |- fuel_free (bind _ _) => apply fuel_free_bind; [|intros ?]
  | |- fuel_free (try_except _ _) => apply fuel_free_try
  | |- fuel_free (in_world _) => apply fuel_free_zoom
  | |- fuel_free (inherited _) => apply fuel_free_zoom
  | |- fuel_free (zoom _ _ _) => apply fuel_free_zoom
  | |- fuel_free (ret _) => apply fuel_free_ret
  | |- fuel_free (raise _) => apply fuel_free_raise
  | |- fuel_free (of_result _) => apply fuel_free_of_result
  | |- fuel_free get => apply fuel_free_get
  | |- fuel_free (modify _) => apply fuel_free_modify
  | |- fuel_free (when ?c _) => unfold when; destruct c
  | |- fuel_free (if ?c then _ else _) => destruct c
  | |- fuel_free (match ?x with _ => _ end) => destruct x
  | |- fuel_free _ => intros ?; discriminate
  end.

Lemma fuel_free_os_killpg os pid : fuel_free (os_killpg os pid).
Proof. unfold os_killpg, signal_process. repeat fuel_free_step. Qed.

Lemma fuel_free_popen_terminate pid : fuel_free (popen_terminate pid).
Proof. unfold popen_terminate, signal_process. repeat fuel_free_step. Qed.

Lemma fuel_free_terminate_body os :
  fuel_free
    (try_except
       (do c <- this; do pid <- process_pid c; in_world (os_killpg os pid))
       (do c <- this; do pid <- process_pid c; in_world (popen_terminate pid))).
Proof.
  unfold this, process_pid.
  repeat first [apply fuel_free_os_killpg | apply fuel_free_popen_terminate | fuel_free_step].
Qed.

(** * Opening and closing archives *)

Lemma open_world_files path mode gz w :
  files (open_world path mode gz w) = files w ++ [FileObject path mode gz false ""].
Proof. unfold open_world. destruct mode, (fs w !! path); reflexivity. Qed.

Lemma open_world_exists path mode gz w :
  (mode = ModeR -> fs w !! path <> None) ->
  fs (open_world path mode gz w) !! path <> None.
Proof.
  unfold open_world. intros H.
  destruct mode, (fs w !! path) eqn:E; cbn; rewrite ?lookup_insert_eq, ?E; try discriminate.
  now apply H.
Qed.

Lemma open_world_read path gz w : fs (open_world path ModeR gz w) = fs w.
Proof. unfold open_world. now destruct (fs w !! path). Qed.

Lemma open_world_write path gz w :
  fs (open_world path ModeW gz w) = <[path := FileData gz ""]> (fs w).
Proof. unfold open_world. now destruct (fs w !! path). Qed.

Lemma open_world_denied path mode gz w : denied (open_world path mode gz w) = denied w.
Proof. unfold open_world. destruct mode, (fs w !! path); reflexivity. Qed.

Lemma open_world_lists path mode gz w : lists (open_world path mode gz w) = lists w.
Proof. unfold open_world. destruct mode, (fs w !! path); reflexivity. Qed.

Lemma mark_exec_fs b p w : fs (mark_exec b p w) = fs w.
Proof. now destruct b. Qed.
Lemma mark_exec_files b p w : files (mark_exec b p w) = files w.
Proof. now destruct b. Qed.
Lemma mark_exec_lists b p w : lists (mark_exec b p w) = lists w.
Proof. now destruct b. Qed.
Lemma mark_exec_denied b p w : denied (mark_exec b p w) = denied w.
Proof. now destruct b. Qed.

Lemma configured_name g e a : archive_name (configured g e a) = archive_name a.
Proof. now destruct g, e. Qed.
Lemma configured_path g e a : archive_path (configured g e a) = archive_path a.
Proof. now destruct g, e. Qed.

Lemma py_open_run path mode gz w :
  path ∉ denied w -> (mode = ModeR -> fs w !! path <> None) ->
  py_open path mode gz w = (Ok (length (files w)), open_world path mode gz w).
Proof.
  intros Hd Hr. unfold py_open.
  destruct (decide (path ∈ denied w)); [contradiction|].
  destruct mode; try reflexivity.
  destruct (fs w !! path); [reflexivity|]. now exfalso; apply Hr.
Qed.

Lemma os_chmod_exec_run path w :
  fs w !! path <> None ->
  os_chmod_exec path w = (Ok tt, set_executable (fun s => {[path]} ∪ s) w).
Proof. unfold os_chmod_exec. intros H. now destruct (fs w !! path). Qed.

#[local] Arguments py_open : simpl never.
#[local] Arguments os_chmod_exec : simpl never.
#[local] Arguments open_world : simpl never.

(** [open_archive] succeeds exactly when the archive has a name and the file
    can be opened; it then leads to [opened] and [opened_world]. *)
Lemma open_archive_run g e mode a w :
  nonempty (archive_name a) = true ->
  archive_file a ∉ denied w ->
  (mode = ModeR -> fs w !! archive_file a <> None) ->
  open_archive g e mode (a, w)
  = (Ok tt, (opened g e (length (files w)) a, opened_world g e mode a w)).
Proof.
  intros Hn Hd Hr.
  assert (E : open_archive g e mode (a, w)
              = open_archive None None mode (configured g e a, w)).
  { destruct g, e; reflexivity. }
  rewrite E. clear E.
  unfold opened, opened_world.
  set (a1 := configured g e a).
  assert (Hf : archive_path a1 +:+ archive_name a1 = archive_file a).
  { unfold a1, archive_file. now rewrite configured_name, configured_path. }
  assert (Hn1 : nonempty (archive_name a1) = true).
  { unfold a1. now rewrite configured_name. }
  unfold open_archive, bind, ret, self, update, try_except, in_world, zoom, when. cbn.
  rewrite Hn1, Hf. cbn.
  rewrite py_open_run by assumption. cbn.
  unfold mark_exec. destruct (is_exec a1); cbn; [|reflexivity].
  rewrite os_chmod_exec_run by now apply open_world_exists.
  reflexivity.
Qed.

(** When [open_archive] raises, it raises [RibmosaicError] and the world is
    as before. *)
Lemma open_archive_fail g e mode a w :
  (nonempty (archive_name a) = false \/ archive_file a ∈ denied w
   \/ (mode = ModeR /\ fs w !! archive_file a = None)) ->
  exists msg, open_archive g e mode (a, w)
              = (Raise (RibmosaicError msg), (configured g e a, w)).
Proof.
  intros H.
  assert (E : open_archive g e mode (a, w)
              = open_archive None None mode (configured g e a, w)).
  { destruct g, e; reflexivity. }
  rewrite E. clear E.
  set (a1 := configured g e a).
  assert (Hf : archive_path a1 +:+ archive_name a1 = archive_file a).
  { unfold a1, archive_file. now rewrite configured_name, configured_path. }
  assert (Hn1 : nonempty (archive_name a1) = nonempty (archive_name a)).
  { unfold a1. now rewrite configured_name. }
  unfold open_archive, bind, ret, self, update, try_except, in_world, zoom, when, raise. cbn.
  rewrite Hn1.
  destruct (nonempty (archive_name a)) eqn:Hn; [|eauto].
  cbn. rewrite Hf. unfold py_open.
  destruct H as [H|[H|[-> H]]]; [discriminate|..].
  - destruct (decide (archive_file a ∈ denied w)); [|contradiction]. cbn. eauto.
  - destruct (decide (archive_file a ∈ denied w)); cbn; [eauto|]. rewrite H. cbn. eauto.
Qed.

(** The two cases together: [open_archive] never runs out of fuel, and what
    decides between them is decidable. *)
Lemma open_archive_cases g e mode a w :
  open_archive g e mode (a, w)
  = (Ok tt, (opened g e (length (files w)) a, opened_world g e mode a w))
  \/ exists msg, open_archive g e mode (a, w)
                 = (Raise (RibmosaicError msg), (configured g e a, w)).
Proof.
  destruct (nonempty (archive_name a)) eqn:Hn;
    [|right; apply open_archive_fail; auto].
  destruct (decide (archive_file a ∈ denied w)) as [Hd|Hd];
    [right; apply open_archive_fail; auto|].
  destruct mode;
    [destruct (fs w !! archive_file a) eqn:Hf;
       [|right; apply open_archive_fail; auto]|..].
  all: left; apply open_archive_run; auto; try discriminate.
  intros _. congruence.
Qed.

(** [close_archive] on an archive that is not the root does nothing. *)
Lemma close_archive_non_root pm os a w :
  is_root a = false -> close_archive pm os (a, w) = (Ok tt, (a, w)).
Proof.
  intros H. unfold close_archive, bind, self, when. cbn. now rewrite H.
Qed.

(** An archive built from an archive: nothing is allocated, the new archive
    is not a root and holds the parent's file objects and rule lists. *)
Lemma init_from_archive parent path name w :
  exists a, ExporterArchive_init (ArchiveObject parent) path name w = (Ok a, w)
    /\ is_root a = false
    /\ is_gzip a = is_gzip parent
    /\ _pointer_file a = _pointer_file parent
    /\ _pointer_cache a = _pointer_cache parent
    /\ _archive_regexes a = _archive_regexes parent
    /\ _target_regexes a = _target_regexes parent
    /\ archive_path a = (if nonempty path then path else archive_path parent)
    /\ archive_name a = (if nonempty name then name else archive_name parent).
Proof.
  unfold ExporterArchive_init, bind, ret. cbn.
  eexists. split; [reflexivity|].
  destruct (nonempty path), (nonempty name); cbn; auto 10.
Qed.

(** After a successful open the archive's file exists. *)
Lemma open_world_exists_archive g e mode a w :
  (mode = ModeR -> fs w !! archive_file a <> None) ->
  fs (opened_world g e mode a w) !! archive_file a <> None.
Proof.
  intros Hr. unfold opened_world. rewrite mark_exec_fs.
  now apply open_world_exists.
Qed.

(** * The rewrite at close *)

Lemma py_close_run h fo w :
  files w !! h = Some fo -> py_close h w = (Ok tt, released h w).
Proof. unfold released, py_close. now intros ->. Qed.

Lemma released_files_length h w : length (files (released h w)) = length (files w).
Proof.
  unfold released, py_close. destruct (files w !! h) as [fo|]; cbn; [|reflexivity].
  destruct (fo_closed fo); [reflexivity|].
  unfold close_world. destruct (fo_mode fo); cbn; now rewrite length_insert.
Qed.

Lemma released_lists h w : lists (released h w) = lists w.
Proof.
  unfold released, py_close. destruct (files w !! h) as [fo|]; cbn; [|reflexivity].
  destruct (fo_closed fo); [reflexivity|].
  unfold close_world. now destruct (fo_mode fo).
Qed.

Lemma released_denied h w : denied (released h w) = denied w.
Proof.
  unfold released, py_close. destruct (files w !! h) as [fo|]; cbn; [|reflexivity].
  destruct (fo_closed fo); [reflexivity|].
  unfold close_world. now destruct (fo_mode fo).
Qed.

(** Closing a file object that was opened for reading leaves the files as
    they are. *)
Lemma released_read_fs h fo w :
  files w !! h = Some fo -> fo_mode fo = ModeR -> fs (released h w) = fs w.
Proof.
  intros Hf Hm. unfold released, py_close. rewrite Hf. cbn.
  destruct (fo_closed fo); [reflexivity|]. unfold close_world. now rewrite Hm.
Qed.

(** Closing a file object marks it closed. *)
Lemma released_closed h fo w :
  files w !! h = Some fo ->
  exists fo', files (released h w) !! h = Some fo' /\ fo_closed fo' = true
              /\ fo_path fo' = fo_path fo /\ fo_buffer fo' = fo_buffer fo.
Proof.
  intros Hf. unfold released, py_close. rewrite Hf. cbn.
  destruct (fo_closed fo) eqn:Hc; [eauto|].
  assert (Hl : h < length (files w)) by (eapply lookup_lt_Some; eauto).
  unfold close_world. destruct (fo_mode fo); cbn;
    rewrite list_lookup_insert_eq by assumption; eauto.
Qed.

(** Closing a file object leaves the others as they are. *)
Lemma released_other h h' w : h <> h' -> files (released h w) !! h' = files w !! h'.
Proof.
  intros Hne. unfold released, py_close. destruct (files w !! h) as [fo|]; cbn; [|reflexivity].
  destruct (fo_closed fo); [reflexivity|].
  unfold close_world. destruct (fo_mode fo); cbn; now rewrite list_lookup_insert_ne.
Qed.

Lemma pointer_close_run a w h fo :
  _pointer_file a = Some h -> files w !! h = Some fo ->
  pointer_close (a, w) = (Ok tt, (a, released h w)).
Proof.
  intros Hp Hf. unfold pointer_close, bind, self. cbn. rewrite Hp.
  rewrite in_world_run. erewrite py_close_run by eauto. reflexivity.
Qed.

Lemma pointer_read_run a w h fo d :
  _pointer_file a = Some h -> files w !! h = Some fo ->
  fo_closed fo = false -> fo_mode fo = ModeR -> fs w !! fo_path fo = Some d ->
  pointer_read (a, w) = of_result (decoded (fo_gzip fo) d) (a, w).
Proof.
  intros Hp Hf Hc Hm Hd. unfold pointer_read, bind, self. cbn. rewrite Hp.
  rewrite in_world_run. unfold py_read. rewrite Hf, Hc, Hm, Hd. unfold decoded.
  destruct (fo_gzip fo), (fd_gzip d); try reflexivity.
  - now destruct (nonempty (fd_data d)).
  - now destruct (valid_utf8 (fd_data d)).
Qed.

Lemma archive_regexes_now_run a w :
  archive_regexes_now (a, w) = (Ok (list_read (_archive_regexes a) w), (a, w)).
Proof. reflexivity. Qed.

Lemma opened_world_files g e mode a w :
  files (opened_world g e mode a w)
  = files w ++ [FileObject (archive_file a) mode (is_gzip (configured g e a)) false ""].
Proof. unfold opened_world. now rewrite mark_exec_files, open_world_files. Qed.

Lemma opened_world_lists g e mode a w : lists (opened_world g e mode a w) = lists w.
Proof. unfold opened_world. now rewrite mark_exec_lists, open_world_lists. Qed.

Lemma opened_world_denied g e mode a w : denied (opened_world g e mode a w) = denied w.
Proof. unfold opened_world. now rewrite mark_exec_denied, open_world_denied. Qed.

Lemma opened_world_read_fs g e a w : fs (opened_world g e ModeR a w) = fs w.
Proof. unfold opened_world. now rewrite mark_exec_fs, open_world_read. Qed.

Lemma opened_world_write_fs g e a w :
  fs (opened_world g e ModeW a w)
  = <[archive_file a := FileData (is_gzip (configured g e a)) ""]> (fs w).
Proof. unfold opened_world. now rewrite mark_exec_fs, open_world_write. Qed.

Lemma opened_world_new g e mode a w :
  files (opened_world g e mode a w) !! length (files w)
  = Some (FileObject (archive_file a) mode (is_gzip (configured g e a)) false "").
Proof. rewrite opened_world_files. now rewrite list_lookup_middle. Qed.

Lemma list_read_lists l w w' : lists w = lists w' -> list_read l w = list_read l w'.
Proof. unfold list_read. now intros ->. Qed.

Lemma append_empty_r (b : string) : b +:+ "" = b.
Proof.
  induction b as [|c b IH]; [reflexivity|].
  change (String c (b +:+ "") = String c b). now rewrite IH.
Qed.

Lemma py_write_run h fo text w :
  files w !! h = Some fo -> fo_closed fo = false -> fo_mode fo <> ModeR ->
  (match text with PyStr _ => fo_gzip fo = false | PyBytes _ => fo_gzip fo = true end) ->
  py_write h text w = (Ok tt, written h (pytext_data text) w).
Proof.
  intros Hf Hc Hm Ht. unfold py_write, written, set_files. rewrite !Hf, Hc.
  destruct (fo_mode fo); [congruence|..]; destruct text; rewrite Ht; reflexivity.
Qed.

Lemma written_fs h s w : fs (written h s w) = fs w.
Proof. reflexivity. Qed.
Lemma written_lists h s w : lists (written h s w) = lists w.
Proof. reflexivity. Qed.
Lemma written_denied h s w : denied (written h s w) = denied w.
Proof. reflexivity. Qed.

Lemma written_lookup h fo s w :
  files w !! h = Some fo ->
  files (written h s w) !! h
  = Some (FileObject (fo_path fo) (fo_mode fo) (fo_gzip fo) false (fo_buffer fo +:+ s)).
Proof.
  intros Hf. unfold written. cbn. rewrite Hf.
  apply list_lookup_insert_eq. eapply lookup_lt_Some; eauto.
Qed.

(** Closing a file object opened for writing: its buffer goes to the end of
    its file. *)
Lemma released_write_fs h fo w :
  files w !! h = Some fo -> fo_closed fo = false -> fo_mode fo <> ModeR ->
  fs (released h w)
  = <[fo_path fo :=
        FileData (fd_gzip (default (FileData (fo_gzip fo) "") (fs w !! fo_path fo)))
          (fd_data (default (FileData (fo_gzip fo) "") (fs w !! fo_path fo)) +:+ fo_buffer fo)]>
      (fs w).
Proof.
  intros Hf Hc Hm. unfold released, py_close. rewrite Hf, Hc. cbn.
  unfold close_world. destruct (fo_mode fo); [congruence|..]; reflexivity.
Qed.

Lemma write_text_body_empty text st :
  pytext_truthy text = false -> write_text_body text st = (Ok tt, st).
Proof. unfold write_text_body, when. now intros ->. Qed.

Lemma write_text_body_str a w h fo t :
  _pointer_file a = Some h -> is_gzip a = false ->
  files w !! h = Some fo -> fo_closed fo = false -> fo_mode fo <> ModeR ->
  fo_gzip fo = false ->
  write_text_body (PyStr t) (a, w) = (Ok tt, (a, written h t w)).
Proof.
  intros Hp Hg Hf Hc Hm Hz. unfold write_text_body, when, pytext_truthy.
  destruct (nonempty (pytext_data (PyStr t))) eqn:Hne.
  - unfold bind, self. cbn. rewrite Hp, Hg. rewrite in_world_run.
    erewrite py_write_run; eauto.
  - cbn in Hne. destruct t; [|discriminate]. unfold ret, written, set_files. cbn.
    rewrite Hf. destruct fo as [p m g c b]; cbn in *. subst.
    rewrite append_empty_r.
    rewrite list_insert_id by assumption. now destruct w.
Qed.

Section Rewrite.

Variable pm : pipeline_manager.
Variable os : platform.
Variable a : ExporterArchive.
Variable w : world.

Let file := archive_file a.
Let n := length (files w).
Let a2 := opened None None n a.
Let w2 := opened_world None None ModeR a w.
Let w3 := released n w2.
Let regexes := list_read (_archive_regexes a) w.
Let a4 := opened None None (S n) a2.
Let w4 := opened_world None None ModeW a2 w3.

Hypothesis Hname : nonempty (archive_name a) = true.
Hypothesis Hdenied : file ∉ denied w.

Lemma reread_new : files w2 !! n = Some (FileObject file ModeR (is_gzip a) false "").
Proof. apply opened_world_new. Qed.

Lemma reread_fs : fs w3 = fs w.
Proof.
  unfold w3. erewrite released_read_fs; [|apply reread_new|reflexivity].
  apply opened_world_read_fs.
Qed.

Lemma reread_lists : lists w3 = lists w.
Proof. unfold w3, w2. now rewrite released_lists, opened_world_lists. Qed.

Lemma reread_frame i : i < n -> files w3 !! i = files w !! i.
Proof.
  intros Hi. unfold w3. rewrite released_other by (unfold n in *; lia).
  unfold w2. rewrite opened_world_files. now apply lookup_app_l.
Qed.

Lemma reread_length : length (files w3) = S n.
Proof.
  unfold w3. rewrite released_files_length. unfold w2.
  rewrite opened_world_files, length_app. cbn. unfold n. lia.
Qed.

(** Reading the file back: [open_archive(mode='r')], [read()], [close()]. *)
Lemma reread_state {A} (k : pytext -> M astate A) d :
  fs w !! file = Some d ->
  (open_archive None None ModeR >>
   do text <- pointer_read;
   pointer_close >> k text) (a, w)
  = match decoded (is_gzip a) d with
    | Returns text => k text (a2, w3)
    | Raises e => (Raise e, (a2, w2))
    end.
Proof.
  intros Hd.
  erewrite bind_ok; [|apply open_archive_run; auto; intros _; fold file; congruence].
  fold a2 w2.
  assert (Hfs : fs w2 !! file = Some d).
  { unfold w2. now rewrite opened_world_read_fs. }
  unfold bind at 1.
  erewrite pointer_read_run;
    [| reflexivity | exact reread_new | reflexivity | reflexivity | exact Hfs ].
  cbn [fo_gzip]. unfold of_result.
  destruct (decoded (is_gzip a) d) as [text|e]; [|reflexivity].
  erewrite bind_ok; [|eapply pointer_close_run; [reflexivity|exact reread_new]].
  reflexivity.
Qed.

(** When the file cannot be opened for reading, nothing changes. *)
Lemma reread_missing {A} (k : M astate A) :
  fs w !! file = None ->
  exists msg, (open_archive None None ModeR >> k) (a, w)
              = (Raise (RibmosaicError msg), (a, w)).
Proof.
  intros Hd.
  destruct (open_archive_fail None None ModeR a w) as [msg E]; [auto|].
  exists msg. erewrite bind_raise; eauto.
Qed.

(** The rule loop runs on the reopened archive and touches nothing. *)
Lemma rules_state {A} (k : pytext -> M astate A) text :
  (do regexes <- archive_regexes_now;
   do s <- self;
   do text' <- of_result (apply_archive_regexes pm os s regexes text);
   k text') (a2, w3)
  = match apply_archive_regexes pm os a2 regexes text with
    | Returns text' => k text' (a2, w3)
    | Raises e => (Raise e, (a2, w3))
    end.
Proof.
  unfold bind, archive_regexes_now, self, the_world, ret, of_result. cbn.
  rewrite (list_read_lists _ w3 w reread_lists). fold regexes.
  now destruct (apply_archive_regexes pm os a2 regexes text).
Qed.

Lemma rewrite_open :
  open_archive None None ModeW (a2, w3) = (Ok tt, (a4, w4)).
Proof.
  rewrite open_archive_run.
  - now rewrite reread_length.
  - exact Hname.
  - unfold w3. rewrite released_denied. unfold w2. now rewrite opened_world_denied.
  - discriminate.
Qed.

Lemma rewrite_new : files w4 !! S n = Some (FileObject file ModeW (is_gzip a) false "").
Proof. unfold w4. rewrite <- reread_length. apply opened_world_new. Qed.

Lemma rewrite_truncated : fs w4 = <[file := FileData (is_gzip a) ""]> (fs w).
Proof. unfold w4. rewrite opened_world_write_fs, reread_fs. reflexivity. Qed.

(** Writing the text back into a text archive. *)
Lemma write_back_str t :
  is_gzip a = false ->
  exists a' w',
    (open_archive None None ModeW >>
     write_text_body (PyStr t) >>
     pointer_close >>
     update (with_pointer_file None)) (a2, w3) = (Ok tt, (a', w'))
    /\ fs w' = <[file := FileData false t]> (fs w)
    /\ lists w' = lists w
    /\ (forall i, i < n -> files w' !! i = files w !! i)
    /\ _pointer_file a' = None /\ is_root a' = true.
Proof.
  intros Hg.
  erewrite bind_ok by apply rewrite_open.
  pose proof rewrite_new as Hnew. rewrite Hg in Hnew.
  erewrite bind_ok;
    [|eapply write_text_body_str; [reflexivity|exact Hg|exact Hnew|reflexivity|discriminate|reflexivity]].
  pose proof (written_lookup (S n) _ t w4 Hnew) as Hw. cbn in Hw.
  erewrite bind_ok; [|eapply pointer_close_run; [reflexivity|exact Hw]].
  unfold update. cbn.
  eexists _, _. split; [reflexivity|]. cbn.
  split; [|split; [|split; [|split; reflexivity]]].
  - erewrite released_write_fs; [|exact Hw|reflexivity|discriminate]. cbn.
    rewrite rewrite_truncated, Hg, lookup_insert_eq, insert_insert_eq. reflexivity.
  - rewrite released_lists, written_lists. unfold w4.
    now rewrite opened_world_lists, reread_lists.
  - intros i Hi. rewrite released_other by lia.
    rewrite <- reread_frame by assumption.
    assert (Hl : i < length (files w3)) by (rewrite reread_length; lia).
    unfold written. cbn. rewrite Hnew.
    rewrite list_lookup_insert_ne by lia.
    unfold w4. rewrite opened_world_files. now apply lookup_app_l.
Qed.

(** Writing the text back into a gzip archive: the text is [bytes], which
    [write_text] tries to encode; the file stays truncated. *)
Lemma write_back_bytes t :
  is_gzip a = true -> nonempty t = true ->
  (open_archive None None ModeW >>
   write_text_body (PyBytes t) >>
   pointer_close >>
   update (with_pointer_file None)) (a2, w3)
  = (Raise (PyExc "AttributeError"), (a4, w4)).
Proof.
  intros Hg Ht.
  erewrite bind_ok by apply rewrite_open.
  erewrite bind_raise; [reflexivity|].
  unfold write_text_body, when, pytext_truthy. cbn. rewrite Ht.
  unfold bind, self, of_result. cbn. now rewrite Hg.
Qed.

End Rewrite.

(** * [close_archive] on a root archive *)

(** The first half of [close_archive] on a root archive that holds an open
    file object: the object is closed and the pointer dropped; what remains
    is the rewrite, when rules are registered. *)
Lemma close_archive_root pm os a w h fo :
  is_root a = true -> _pointer_cache a = None ->
  _pointer_file a = Some h -> files w !! h = Some fo ->
  close_archive pm os (a, w)
  = when (bool_decide (list_read (_archive_regexes a) w <> []))
      (try_except (rewrite_archive pm os) (ret tt))
      (with_pointer_file None a, released h w).
Proof.
  intros Hr Hc Hp Hf.
  unfold close_archive, bind at 1, self. cbn [fst]. rewrite Hr.
  unfold when at 1. rewrite Hc, Hp.
  unfold bind at 1, ret at 1.
  erewrite bind_ok.
  2:{ apply try_except_ok. erewrite bind_ok.
      - reflexivity.
      - rewrite in_world_run. erewrite py_close_run by eauto. reflexivity. }
  unfold update. cbn [fst snd].
  erewrite bind_ok by apply archive_regexes_now_run.
  cbn [_archive_regexes with_pointer_file].
  now rewrite (list_read_lists _ (released h w) w (released_lists h w)).
Qed.

(** A root archive without an open file object: nothing to close. *)
Lemma close_archive_root_closed pm os a w :
  is_root a = true -> _pointer_cache a = None -> _pointer_file a = None ->
  close_archive pm os (a, w) = (Ok tt, (a, w)).
Proof.
  intros Hr Hc Hp.
  unfold close_archive, bind, self, when, ret. cbn. now rewrite Hr, Hc, Hp.
Qed.

(** A root archive without rules: closing it closes the file object and
    nothing else happens. *)
Lemma close_archive_no_rules pm os a w h fo :
  is_root a = true -> _pointer_cache a = None ->
  _pointer_file a = Some h -> files w !! h = Some fo ->
  list_read (_archive_regexes a) w = [] ->
  close_archive pm os (a, w) = (Ok tt, (with_pointer_file None a, released h w)).
Proof.
  intros Hr Hc Hp Hf Hl. erewrite close_archive_root by eauto.
  rewrite Hl. reflexivity.
Qed.

Section RootClose.

Variable pm : pipeline_manager.
Variable os : platform.
Variable a : ExporterArchive.
Variable w : world.
Variable h : nat.
Variable fo : file_object.

Let file := archive_file a.
Let w1 := released h w.
Let regexes := list_read (_archive_regexes a) w.
Let seen := reopened (length (files w)) a.

Hypothesis Hroot : is_root a = true.
Hypothesis Hcache : _pointer_cache a = None.
Hypothesis Hptr : _pointer_file a = Some h.
Hypothesis Hfo : files w !! h = Some fo.
Hypothesis Hrules : regexes <> [].

Lemma root_close_rewrite :
  close_archive pm os (a, w)
  = try_except (rewrite_archive pm os) (ret tt) (with_pointer_file None a, w1).
Proof.
  erewrite close_archive_root by eauto. fold regexes.
  now rewrite bool_decide_true by exact Hrules.
Qed.

(** The rewrite cannot start (no name, no access, no file): [close_archive]
    returns and the files are as the closed file object left them. *)
Lemma root_close_unreadable :
  (nonempty (archive_name a) = false \/ file ∈ denied w \/ fs w1 !! file = None) ->
  exists a', close_archive pm os (a, w) = (Ok tt, (a', w1)).
Proof.
  intros H. rewrite root_close_rewrite.
  destruct (open_archive_fail None None ModeR (with_pointer_file None a) w1) as [msg E].
  { unfold w1. rewrite released_denied. destruct H as [H|[H|H]]; auto. }
  unfold rewrite_archive.
  erewrite try_except_raise; [|erewrite bind_raise; [reflexivity|exact E]].
  eexists. reflexivity.
Qed.

Hypothesis Hname : nonempty (archive_name a) = true.
Hypothesis Hdenied : file ∉ denied w.

Let w3 := released (length (files w)) (opened_world None None ModeR (with_pointer_file None a) w1).

Lemma root_close_same_length : length (files w1) = length (files w).
Proof. apply released_files_length. Qed.

(** The text read back does not decode, or a rule raises: [close_archive]
    returns and the files are as the closed file object left them. *)
Lemma root_close_rules_fail d :
  fs w1 !! file = Some d ->
  (forall text, decoded (is_gzip a) d = Returns text ->
     exists e, apply_archive_regexes pm os seen regexes text = Raises e) ->
  exists a' w', close_archive pm os (a, w) = (Ok tt, (a', w')) /\ fs w' = fs w1.
Proof.
  intros Hd Hfail. rewrite root_close_rewrite. unfold rewrite_archive.
  assert (Hden : archive_file (with_pointer_file None a) ∉ denied w1).
  { unfold w1. now rewrite released_denied. }
  destruct (decoded (is_gzip a) d) as [text|e] eqn:Hdec.
  - destruct (Hfail text eq_refl) as [e He].
    erewrite try_except_raise.
    + eexists _, _. split; [reflexivity|]. cbn.
      apply (reread_fs (with_pointer_file None a) w1).
    + rewrite (reread_state (with_pointer_file None a) w1 Hname Hden _ d Hd). cbn [is_gzip with_pointer_file].
      rewrite Hdec.
      rewrite (rules_state pm os (with_pointer_file None a) w1).
      cbn [_archive_regexes with_pointer_file].
      rewrite (list_read_lists _ w1 w (released_lists h w)).
      rewrite root_close_same_length. fold regexes. fold seen in He |- *.
      unfold seen, reopened in He. rewrite He. reflexivity.
  - erewrite try_except_raise.
    + eexists _, _. split; [reflexivity|]. cbn. apply opened_world_read_fs.
    + rewrite (reread_state (with_pointer_file None a) w1 Hname Hden _ d Hd). cbn [is_gzip with_pointer_file].
      rewrite Hdec. reflexivity.
Qed.

(** The rules succeed on a text archive: the file holds the rewritten text,
    and the file object the archive held is closed. *)
Lemma root_close_rewrites data t :
  is_gzip a = false ->
  fs w1 !! file = Some (FileData false data) ->
  valid_utf8 data = true ->
  apply_archive_regexes pm os seen regexes (PyStr (universal_newlines data))
  = Returns (PyStr t) ->
  exists a' w',
    close_archive pm os (a, w) = (Ok tt, (a', w'))
    /\ fs w' = <[file := FileData false t]> (fs w1)
    /\ lists w' = lists w
    /\ (forall i, i < length (files w) -> files w' !! i = files w1 !! i)
    /\ _pointer_file a' = None /\ is_root a' = true.
Proof.
  intros Hg Hd Hv Hrun. rewrite root_close_rewrite. unfold rewrite_archive.
  assert (Hden : archive_file (with_pointer_file None a) ∉ denied w1).
  { unfold w1. now rewrite released_denied. }
  destruct (write_back_str (with_pointer_file None a) w1 Hname Hden t Hg)
    as (a' & w' & E & Hfs & Hl & Hfr & Hp & Hr).
  exists a', w'.
  split; [|split; [exact Hfs|split; [|split; [|split; assumption]]]].
  - apply try_except_ok.
    rewrite (reread_state (with_pointer_file None a) w1 Hname Hden _ _ Hd). cbn [is_gzip with_pointer_file].
    rewrite Hg. unfold decoded. cbn [fd_gzip fd_data]. rewrite Hv.
    rewrite (rules_state pm os (with_pointer_file None a) w1).
    cbn [_archive_regexes with_pointer_file].
    rewrite (list_read_lists _ w1 w (released_lists h w)).
    rewrite root_close_same_length. fold regexes.
    unfold seen, reopened in Hrun. rewrite Hrun.
    rewrite root_close_same_length in E. exact E.
  - rewrite Hl. apply released_lists.
  - intros i Hi. apply Hfr. now rewrite root_close_same_length.
Qed.

End RootClose.

(** * What every archive method preserves *)

(** ** No archive method runs out of fuel *)

Lemma fuel_free_py_open path mode gz : fuel_free (py_open path mode gz).
Proof. intros w. unfold py_open. repeat case_match; discriminate. Qed.

Lemma fuel_free_py_close h : fuel_free (py_close h).
Proof. intros w. unfold py_close. repeat case_match; discriminate. Qed.

Lemma fuel_free_py_read h : fuel_free (py_read h).
Proof. intros w. unfold py_read. repeat case_match; discriminate. Qed.

Lemma fuel_free_py_write h t : fuel_free (py_write h t).
Proof. intros w. unfold py_write. repeat case_match; discriminate. Qed.

Lemma fuel_free_chmod p : fuel_free (os_chmod_exec p).
Proof. intros w. unfold os_chmod_exec. repeat case_match; discriminate. Qed.

Lemma fuel_free_list_new l : fuel_free (list_new l).
Proof. intros w. discriminate. Qed.

Lemma fuel_free_for_each {S A} (l : list A) (body : A -> M S unit) :
  (forall x, fuel_free (body x)) -> fuel_free (for_each l body).
Proof.
  intros Hb. induction l as [|x l IH]; cbn.
  - apply fuel_free_ret.
  - apply fuel_free_bind; auto.
Qed.

Lemma fuel_free_on_local {A} obj (m : M astate A) : fuel_free m -> fuel_free (on_local obj m).
Proof.
  intros Hm st. unfold on_local. specialize (Hm (obj, snd st)).
  now destruct (m (obj, snd st)) as [r [o w']].
Qed.

Ltac fuel_free_prim :=
  first
    [ apply fuel_free_py_open | apply fuel_free_py_close | apply fuel_free_py_read
    | apply fuel_free_py_write | apply fuel_free_chmod | apply fuel_free_list_new
    | apply fuel_free_os_killpg | apply fuel_free_popen_terminate ].

Ltac fuel_free_auto := repeat first [ fuel_free_prim | fuel_free_step ].

Lemma fuel_free_open_archive g e mode : fuel_free (open_archive g e mode).
Proof. unfold open_archive, self, update. fuel_free_auto. Qed.

Lemma fuel_free_write_text_body text : fuel_free (write_text_body text).
Proof. unfold write_text_body, self. fuel_free_auto. Qed.

Lemma fuel_free_pointer_read : fuel_free pointer_read.
Proof. unfold pointer_read, self. fuel_free_auto. Qed.

Lemma fuel_free_pointer_close : fuel_free pointer_close.
Proof. unfold pointer_close, self. fuel_free_auto. Qed.

Lemma fuel_free_rewrite_archive pm os : fuel_free (rewrite_archive pm os).
Proof.
  unfold rewrite_archive, archive_regexes_now, self, the_world, update.
  repeat first
    [ apply fuel_free_open_archive | apply fuel_free_write_text_body
    | apply fuel_free_pointer_read | apply fuel_free_pointer_close
    | fuel_free_prim | fuel_free_step ].
Qed.

Lemma fuel_free_close_archive pm os : fuel_free (close_archive pm os).
Proof.
  unfold close_archive, archive_regexes_now, self, the_world, update.
  repeat first [ apply fuel_free_rewrite_archive | fuel_free_prim | fuel_free_step ].
Qed.

(** ** Closed file objects never change *)


Lemma closed_stable_refl w : closed_stable w w.
Proof. intros i fo H _. exact H. Qed.

Lemma closed_stable_trans w1 w2 w3 :
  closed_stable w1 w2 -> closed_stable w2 w3 -> closed_stable w1 w3.
Proof. intros H1 H2 i fo Hf Hc. apply H2; auto. Qed.

Lemma closed_stable_files w w' : files w' = files w -> closed_stable w w'.
Proof. intros E i fo H _. now rewrite E. Qed.


Lemma keeps_closed_ret {X A} (a : A) : keeps_closed (@ret (X * world) A a).
Proof. intros s. apply closed_stable_refl. Qed.

Lemma keeps_closed_raise {X A} e : keeps_closed (@raise (X * world) A e).
Proof. intros s. apply closed_stable_refl. Qed.

Lemma keeps_closed_bind {X A B} (m : M (X * world) A) (k : A -> M (X * world) B) :
  keeps_closed m -> (forall a, keeps_closed (k a)) -> keeps_closed (bind m k).
Proof.
  intros Hm Hk s. unfold bind. specialize (Hm s).
  destruct (m s) as [[a|e|] s1]; cbn in *; auto.
  eapply closed_stable_trans; [exact Hm|apply Hk].
Qed.

Lemma keeps_closed_try {X A} (m h : M (X * world) A) :
  keeps_closed m -> keeps_closed h -> keeps_closed (try_except m h).
Proof.
  intros Hm Hh s. unfold try_except. specialize (Hm s).
  destruct (m s) as [[a|e|] s1]; cbn in *; auto.
  eapply closed_stable_trans; [exact Hm|apply Hh].
Qed.

Lemma keeps_closed_pure {X A} (m : M (X * world) A) :
  (forall s, snd (snd (m s)) = snd s) -> keeps_closed m.
Proof. intros H s. rewrite H. apply closed_stable_refl. Qed.

Lemma keeps_closed_in_world {X A} (m : M world A) :
  (forall w, closed_stable w (snd (m w))) -> keeps_closed (@in_world X A m).
Proof.
  intros H [x w]. rewrite in_world_run. cbn. apply H.
Qed.

Lemma keeps_closed_for_each {X A} (l : list A) (body : A -> M (X * world) unit) :
  (forall x, keeps_closed (body x)) -> keeps_closed (for_each l body).
Proof.
  intros Hb. induction l as [|x l IH]; cbn.
  - apply keeps_closed_ret.
  - apply keeps_closed_bind; auto.
Qed.

Lemma keeps_closed_on_local {A} obj (m : M astate A) :
  keeps_closed m -> keeps_closed (on_local obj m).
Proof.
  intros Hm st. unfold on_local. specialize (Hm (obj, snd st)).
  now destruct (m (obj, snd st)) as [r [o w']].
Qed.

Lemma closed_stable_py_open path mode gz w : closed_stable w (snd (py_open path mode gz w)).
Proof.
  unfold py_open. destruct (decide _); [apply closed_stable_refl|].
  destruct mode, (fs w !! path); cbn; try apply closed_stable_refl.
  all: intros i fo Hf _; rewrite open_world_files; apply lookup_app_l_Some; exact Hf.
Qed.

Lemma closed_stable_py_close h w : closed_stable w (snd (py_close h w)).
Proof.
  intros i fo Hf Hc. fold (released h w).
  destruct (decide (h = i)) as [->|Hne]; [|now rewrite released_other].
  unfold released, py_close. rewrite Hf, Hc. exact Hf.
Qed.

Lemma closed_stable_py_read h w : closed_stable w (snd (py_read h w)).
Proof.
  unfold py_read. repeat case_match; apply closed_stable_refl.
Qed.

Lemma closed_stable_py_write h t w : closed_stable w (snd (py_write h t w)).
Proof.
  unfold py_write.
  destruct (files w !! h) as [fo|] eqn:Hf; [|apply closed_stable_refl].
  destruct (fo_closed fo) eqn:Hc; [apply closed_stable_refl|].
  destruct (fo_mode fo), t, (fo_gzip fo); try apply closed_stable_refl.
  all: intros i fo' Hf' Hc'; cbn;
    destruct (decide (h = i)) as [->|Hne];
      [congruence|now rewrite list_lookup_insert_ne].
Qed.

Lemma closed_stable_chmod p w : closed_stable w (snd (os_chmod_exec p w)).
Proof. unfold os_chmod_exec. case_match; cbn; now apply closed_stable_files. Qed.

Lemma closed_stable_list_new l w : closed_stable w (snd (list_new l w)).
Proof. now apply closed_stable_files. Qed.

Ltac keeps_closed_step :=
  match goal with
  | |- keeps_closed (bind _ _) => apply keeps_closed_bind; [|intros ?]
  | |- keeps_closed (try_except _ _) => apply keeps_closed_try
  | |- keeps_closed (ret _) => apply keeps_closed_ret
  | |- keeps_closed (raise _) => apply keeps_closed_raise
  | |- keeps_closed (in_world (py_open _ _ _)) =>
      apply keeps_closed_in_world; apply closed_stable_py_open
  | |- keeps_closed (in_world (py_close _)) =>
      apply keeps_closed_in_world; apply closed_stable_py_close
  | |- keeps_closed (in_world (py_read _)) =>
      apply keeps_closed_in_world; apply closed_stable_py_read
  | |- keeps_closed (in_world (py_write _ _)) =>
      apply keeps_closed_in_world; apply closed_stable_py_write
  | |- keeps_closed (in_world (os_chmod_exec _)) =>
      apply keeps_closed_in_world; apply closed_stable_chmod
  | |- keeps_closed (in_world (list_new _)) =>
      apply keeps_closed_in_world; apply closed_stable_list_new
  | |- keeps_closed self => apply keeps_closed_pure; reflexivity
  | |- keeps_closed the_world => apply keeps_closed_pure; reflexivity
  | |- keeps_closed (update _) => apply keeps_closed_pure; reflexivity
  | |- keeps_closed (of_result _) => apply keeps_closed_pure; reflexivity
  | |- keeps_closed (when ?c _) => unfold when; destruct c
  | |- keeps_closed (if ?c then _ else _) => destruct c
  | |- keeps_closed (match ?x with _ => _ end) => destruct x
  end.

Lemma keeps_closed_open_archive g e mode : keeps_closed (open_archive g e mode).
Proof. unfold open_archive. repeat keeps_closed_step. Qed.

Lemma keeps_closed_write_text_body text : keeps_closed (write_text_body text).
Proof. unfold write_text_body. repeat keeps_closed_step. Qed.

Lemma keeps_closed_pointer_read : keeps_closed pointer_read.
Proof. unfold pointer_read. repeat keeps_closed_step. Qed.

Lemma keeps_closed_pointer_close : keeps_closed pointer_close.
Proof. unfold pointer_close. repeat keeps_closed_step. Qed.

Lemma keeps_closed_rewrite_archive pm os : keeps_closed (rewrite_archive pm os).
Proof.
  unfold rewrite_archive, archive_regexes_now.
  repeat first
    [ apply keeps_closed_open_archive | apply keeps_closed_write_text_body
    | apply keeps_closed_pointer_read | apply keeps_closed_pointer_close
    | keeps_closed_step ].
Qed.

Lemma keeps_closed_close_archive pm os : keeps_closed (close_archive pm os).
Proof.
  unfold close_archive, archive_regexes_now.
  repeat first [ apply keeps_closed_rewrite_archive | keeps_closed_step ].
Qed.

(** [close_archive] on a root archive that holds a file object always
    returns, and the file object is closed from then on. *)
Lemma close_archive_root_returns pm os a w h fo :
  is_root a = true -> _pointer_cache a = None ->
  _pointer_file a = Some h -> files w !! h = Some fo ->
  exists a' w',
    close_archive pm os (a, w) = (Ok tt, (a', w'))
    /\ closed_stable (released h w) w'
    /\ exists fo', files w' !! h = Some fo' /\ fo_closed fo' = true
                   /\ fo_path fo' = fo_path fo.
Proof.
  intros Hr Hc Hp Hf.
  assert (E := close_archive_root pm os a w h fo Hr Hc Hp Hf).
  assert (Hst : exists a' w',
             close_archive pm os (a, w) = (Ok tt, (a', w'))
             /\ closed_stable (released h w) w').
  { rewrite E. unfold when. case_bool_decide.
    - destruct (try_except_pass (rewrite_archive pm os)
                  (with_pointer_file None a, released h w)
                  (fuel_free_rewrite_archive pm os)) as [[a' w'] E'].
      exists a', w'. split; [exact E'|].
      assert (K : closed_stable (released h w)
                    (snd (snd (try_except (rewrite_archive pm os) (ret tt)
                                 (with_pointer_file None a, released h w))))).
      { apply (keeps_closed_try _ _ (keeps_closed_rewrite_archive pm os)
                 (keeps_closed_ret tt) (with_pointer_file None a, released h w)). }
      rewrite E' in K. exact K.
    - eexists _, _. split; [reflexivity|apply closed_stable_refl]. }
  destruct Hst as (a' & w' & E' & K). exists a', w'.
  split; [exact E'|split; [exact K|]].
  destruct (released_closed h fo w Hf) as (fo' & Hf' & Hc' & Hpath & _).
  exists fo'. split; [|split; assumption]. now apply K.
Qed.

(** * Archives: writing, closing, reopening *)

(** Closing a file object that was just opened leaves the files as they
    are: there is nothing in its buffer. *)
Lemma opened_then_released_fs g e mode a w :
  (mode = ModeR -> fs w !! archive_file a <> None) ->
  fs (released (length (files w)) (opened_world g e mode a w))
  = fs (opened_world g e mode a w).
Proof.
  intros Hr. pose proof (opened_world_new g e mode a w) as Hnew.
  destruct mode.
  - erewrite released_read_fs; [reflexivity|exact Hnew|reflexivity].
  - erewrite released_write_fs; [|exact Hnew|reflexivity|discriminate]. cbn.
    rewrite opened_world_write_fs, lookup_insert_eq. cbn.
    now rewrite insert_insert_eq.
  - erewrite released_write_fs; [|exact Hnew|reflexivity|discriminate]. cbn.
    unfold opened_world. rewrite mark_exec_fs. unfold open_world.
    destruct (fs w !! archive_file a) as [d|] eqn:Hd; cbn.
    + rewrite Hd. cbn. rewrite append_empty_r. apply insert_id.
      rewrite Hd. now destruct d.
    + rewrite lookup_insert_eq. cbn. now rewrite insert_insert_eq.
Qed.

(** What a successful [open_archive] started from. *)
Lemma open_archive_ok_inv g e mode a w a' w' :
  open_archive g e mode (a, w) = (Ok tt, (a', w')) ->
  a' = opened g e (length (files w)) a /\ w' = opened_world g e mode a w
  /\ nonempty (archive_name a) = true /\ (archive_file a ∉ denied w)
  /\ (mode = ModeR -> fs w !! archive_file a <> None).
Proof.
  intros E.
  destruct (nonempty (archive_name a)) eqn:Hn.
  2:{ destruct (open_archive_fail g e mode a w) as [msg E']; [auto|congruence]. }
  destruct (decide (archive_file a ∈ denied w)) as [Hd|Hd].
  { destruct (open_archive_fail g e mode a w) as [msg E']; [auto|congruence]. }
  assert (Hr : mode = ModeR -> fs w !! archive_file a <> None).
  { intros -> Hf.
    destruct (open_archive_fail g e ModeR a w) as [msg E']; [auto|congruence]. }
  rewrite open_archive_run in E by assumption.
  inversion E. auto.
Qed.

(** Writing a text that is not empty to an archive whose file object is not
    open raises an exception, whatever [close] is, and leaves the archive and
    the world as they were. *)
Lemma write_text_nonempty_not_open pm os a w text close :
  handle_not_open a w ->
  pytext_truthy text = true ->
  exists e, write_text pm os text close (a, w) = (Raise e, (a, w)).
Proof.
  intros Hh Ht. unfold write_text.
  assert (E : exists e, write_text_body text (a, w) = (Raise e, (a, w))).
  { unfold write_text_body, when. rewrite Ht. unfold bind, self. cbn.
    unfold handle_not_open in Hh.
    destruct (_pointer_file a) as [h|]; [|unfold raise; eauto].
    assert (Hw : forall t, exists e, in_world (py_write h t) (a, w) = (Raise e, (a, w))).
    { intros t. rewrite in_world_run. unfold py_write.
      destruct (files w !! h) as [fo|] eqn:Hf; cbn; [|eauto].
      rewrite (Hh fo eq_refl). cbn. eauto. }
    destruct (is_gzip a); [|apply Hw].
    unfold of_result. destruct text as [s|s]; cbn; [apply Hw|eauto]. }
  destruct E as [e E]. exists e. now apply bind_raise.
Qed.

(** C4 (as the code has it).  On an archive whose file object is not open
    (it holds none, or the one it holds is closed): a text that is not empty
    makes [write_text] raise, whatever [close] is, with the archive and the
    world as they were, so the text is not silently dropped; with the empty
    text nothing is written and the missing file object is no error:
    [write_text(text)] returns with nothing changed, and
    [write_text(text, close=True)] is [close_archive()]. *)
Theorem write_text_on_closed_archive pm os a w text close :
  handle_not_open a w ->
  (pytext_truthy text = true ->
   exists e, write_text pm os text close (a, w) = (Raise e, (a, w)))
  /\ (pytext_truthy text = false ->
      write_text pm os text close (a, w)
      = if close then close_archive pm os (a, w) else (Ok tt, (a, w))).
Proof.
  intros Hh. split.
  - now apply write_text_nonempty_not_open.
  - intros Ht. unfold write_text.
    rewrite (bind_ok _ _ _ tt (a, w)) by (now apply write_text_body_empty).
    now destruct close.
Qed.

(** C4, an instance: the archive of the examples, once closed, refuses
    [foo], and takes the empty text without a word. *)
Lemma write_text_on_closed_archive_witness :
  let closed := after (close_archive foo_pipeline quiet_platform)
                  (foo_archive foo_pipeline quiet_platform false) in
  (exists e,
     write_text foo_pipeline quiet_platform (PyStr "foo") true (fst closed, snd closed)
     = (Raise e, (fst closed, snd closed)))
  /\ write_text foo_pipeline quiet_platform (PyStr "") true (fst closed, snd closed)
     = close_archive foo_pipeline quiet_platform (fst closed, snd closed).
Proof.
  cbv zeta.
  set (closed := after (close_archive foo_pipeline quiet_platform)
                   (foo_archive foo_pipeline quiet_platform false)).
  assert (Hh : handle_not_open (fst closed) (snd closed)).
  { unfold handle_not_open.
    replace (_pointer_file (fst closed)) with (@None nat) by (vm_compute; reflexivity).
    exact I. }
  split.
  - apply (write_text_on_closed_archive foo_pipeline quiet_platform
             (fst closed) (snd closed) (PyStr "foo") true Hh).
    reflexivity.
  - apply (write_text_on_closed_archive foo_pipeline quiet_platform
             (fst closed) (snd closed) (PyStr "") true Hh).
    reflexivity.
Defined.

(** C4 as stated fails: on the closed archive of the examples,
    [write_text] with the empty text returns normally. *)
Lemma write_text_empty_on_closed_returns :
  let closed := after (close_archive foo_pipeline quiet_platform)
                  (foo_archive foo_pipeline quiet_platform false) in
  _pointer_file (fst closed) = None
  /\ write_text foo_pipeline quiet_platform (PyStr "") false closed = (Ok tt, closed).
Proof. vm_compute. split; reflexivity. Qed.

(** C5.  An archive built from an archive is not a root and holds its
    parent's file object; [close_archive] on it changes neither the archive
    nor the world, so the file object stays as it was.  On the root that
    holds the open file object, [close_archive] returns with that file
    object closed. *)
Theorem close_archive_child_noop pm os parent path name w :
  exists child,
    ExporterArchive_init (ArchiveObject parent) path name w = (Ok child, w)
    /\ is_root child = false
    /\ _pointer_file child = _pointer_file parent
    /\ close_archive pm os (child, w) = (Ok tt, (child, w))
    /\ (forall h fo,
          is_root parent = true -> _pointer_cache parent = None ->
          _pointer_file parent = Some h -> files w !! h = Some fo ->
          exists a' w',
            close_archive pm os (parent, w) = (Ok tt, (a', w'))
            /\ exists fo', files w' !! h = Some fo' /\ fo_closed fo' = true).
Proof.
  destruct (init_from_archive parent path name w)
    as (child & E & Hr & _ & Hp & _).
  exists child. split; [exact E|split; [exact Hr|split; [exact Hp|split]]].
  - now apply close_archive_non_root.
  - intros h fo Hroot Hc Hptr Hf.
    destruct (close_archive_root_returns pm os parent w h fo Hroot Hc Hptr Hf)
      as (a' & w' & E' & _ & fo' & Hf' & Hc' & _).
    exists a', w'. eauto.
Qed.

(** C5, an instance: a child of the open archive of the examples. *)
Lemma close_archive_child_noop_witness :
  let st := foo_archive foo_pipeline quiet_platform false in
  exists child,
    ExporterArchive_init (ArchiveObject (fst st)) "" "" (snd st) = (Ok child, snd st)
    /\ is_root child = false
    /\ _pointer_file child = Some 0
    /\ close_archive foo_pipeline quiet_platform (child, snd st) = (Ok tt, (child, snd st))
    /\ exists a' w',
         close_archive foo_pipeline quiet_platform st = (Ok tt, (a', w'))
         /\ exists fo', files w' !! 0 = Some fo' /\ fo_closed fo' = true.
Proof.
  intros st.
  destruct (close_archive_child_noop foo_pipeline quiet_platform (fst st) "" "" (snd st))
    as (child & E & Hr & Hp & Hc & Hroot).
  exists child. split; [exact E|split; [exact Hr|split; [exact Hp|split; [exact Hc|]]]].
  destruct (Hroot 0 (FileObject "./scene.rib" ModeW false false "foo bar foo"))
    as (a' & w' & E' & H'); try reflexivity.
  exists a', w'. split; [|exact H'].
  rewrite <- E'. now destruct st.
Defined.

(** Where the content survives a failed rewrite: a root archive with
    registered rules is closed, the text read back is [text] and a rule
    raises on it.  Then [close_archive] returns normally and every file, the
    archive's among them, holds what it held once the archive's file object
    was closed. *)
Lemma close_archive_rule_failure_keeps_content pm os a w h fo d text e :
  is_root a = true -> _pointer_cache a = None ->
  _pointer_file a = Some h -> files w !! h = Some fo ->
  nonempty (archive_name a) = true -> archive_file a ∉ denied w ->
  list_read (_archive_regexes a) w <> [] ->
  fs (released h w) !! archive_file a = Some d ->
  decoded (is_gzip a) d = Returns text ->
  apply_archive_regexes pm os (reopened (length (files w)) a)
    (list_read (_archive_regexes a) w) text = Raises e ->
  exists a' w',
    close_archive pm os (a, w) = (Ok tt, (a', w'))
    /\ fs w' = fs (released h w)
    /\ fs w' !! archive_file a = Some d.
Proof.
  intros Hr Hc Hp Hf Hn Hd Hl Hfs Hdec Hfail.
  destruct (root_close_rules_fail pm os a w h fo Hr Hc Hp Hf Hl Hn Hd d Hfs)
    as (a' & w' & E & Hkeep).
  - intros text' Ht. exists e. congruence.
  - exists a', w'. split; [exact E|split; [exact Hkeep|]]. now rewrite Hkeep.
Qed.

(** An instance: the rule's [matches] attribute is [many], which [int]
    rejects; the archive keeps [foo bar foo]. *)
Lemma close_archive_rule_failure_example :
  let st := foo_archive broken_pipeline quiet_platform false in
  exists a' w',
    close_archive broken_pipeline quiet_platform (fst st, snd st) = (Ok tt, (a', w'))
    /\ fs w' = fs (released 0 (snd st))
    /\ fs w' !! archive_file (fst st) = Some (FileData false "foo bar foo").
Proof.
  intros st.
  apply (close_archive_rule_failure_keeps_content broken_pipeline quiet_platform
           (fst st) (snd st) 0
           (FileObject "./scene.rib" ModeW false false "foo bar foo")
           (FileData false "foo bar foo") (PyStr "foo bar foo") (PyExc "ValueError"));
    try (vm_compute; reflexivity).
  - vm_compute. discriminate.
  - vm_compute. discriminate.
Qed.

(** C6 at a gzip archive.  The archive of the examples, opened with gzip and
    holding [foo bar foo] once its file object is closed: the block of
    [close_archive] that applies the rules fails (with [AttributeError], when
    the text is written back after the file was truncated); [close_archive]
    returns normally all the same, and the file is empty: it has neither the
    content it had before the rewrite nor the rewritten one. *)
Theorem close_archive_failed_rewrite_empties_file :
  let st := foo_archive foo_pipeline quiet_platform true in
  let closed := (with_pointer_file None (fst st), released 0 (snd st)) in
  fs (snd closed) !! "./scene.rib" = Some (FileData true "foo bar foo")
  /\ fst (rewrite_archive foo_pipeline quiet_platform closed)
     = Raise (PyExc "AttributeError")
  /\ close_archive foo_pipeline quiet_platform st
     = (Ok tt, snd (rewrite_archive foo_pipeline quiet_platform closed))
  /\ fs (snd (snd (close_archive foo_pipeline quiet_platform st))) !! "./scene.rib"
     = Some (FileData true "").
Proof. vm_compute. repeat split; reflexivity. Qed.

Lemma configured_cache g e a : _pointer_cache (configured g e a) = _pointer_cache a.
Proof. now destruct g, e. Qed.

Lemma configured_regexes g e a : _archive_regexes (configured g e a) = _archive_regexes a.
Proof. now destruct g, e. Qed.



(** The same run, evaluated: the file held [baz bar foo] after the first
    close, and closing the reopened child applies the rule once more. *)
Lemma reopened_child_rewrites_example :
  let parent := after (close_archive foo_pipeline quiet_platform)
                  (foo_archive foo_pipeline quiet_platform false) in
  let child := built_from (fst parent) "" "" (snd parent) in
  let st := after (open_archive None None ModeR) (child, snd parent) in
  fs (snd st) !! "./scene.rib" = Some (FileData false "baz bar foo")
  /\ fs (snd (snd (close_archive foo_pipeline quiet_platform st))) !! "./scene.rib"
     = Some (FileData false "baz bar baz").
Proof. vm_compute. split; reflexivity. Qed.

(** C7 at a gzip archive.  The archive of the examples, opened with gzip:
    once its file object is closed the file holds [foo bar foo]; the rule
    [foo -> baz, matches=1] is registered; [close_archive] returns normally
    and the file is empty.  The text read back is [bytes], the rule applies,
    the file is truncated for writing, and [write_text] then calls
    [encode] on [bytes]; the exception is swallowed by [close_archive]. *)
Theorem close_archive_gzip_rewrite_loses_text :
  let st := foo_archive foo_pipeline quiet_platform true in
  is_root (fst st) = true
  /\ is_gzip (fst st) = true
  /\ list_read (_archive_regexes (fst st)) (snd st) = ["Render/regexes"]
  /\ fs (released 0 (snd st)) !! "./scene.rib" = Some (FileData true "foo bar foo")
  /\ apply_archive_regexes foo_pipeline quiet_platform (reopened 1 (fst st))
       ["Render/regexes"] (PyBytes "foo bar foo") = Returns (PyBytes "baz bar foo")
  /\ exists a' w',
       close_archive foo_pipeline quiet_platform st = (Ok tt, (a', w'))
       /\ fs w' !! "./scene.rib" = Some (FileData true "").
Proof.
  vm_compute. repeat split; try reflexivity. eexists _, _. split; reflexivity.
Qed.

(** The same archive without gzip: the file holds [baz bar foo] after
    [close_archive]. *)
Lemma close_archive_text_rewrite_example :
  let st := foo_archive foo_pipeline quiet_platform false in
  fs (released 0 (snd st)) !! "./scene.rib" = Some (FileData false "foo bar foo")
  /\ exists a' w',
       close_archive foo_pipeline quiet_platform st = (Ok tt, (a', w'))
       /\ fs w' !! "./scene.rib" = Some (FileData false "baz bar foo").
Proof.
  vm_compute. split; [reflexivity|]. eexists _, _. split; reflexivity.
Qed.

(** The rule loop applies the registered rules one after the other, in
    registration order. *)
Lemma apply_archive_regexes_in_order pm os s regexes text :
  apply_archive_regexes pm os s regexes text
  = fold_text (registered_rules pm regexes) (apply_regex pm os s) text.
Proof.
  unfold apply_archive_regexes, registered_rules.
  revert text. induction regexes as [|xmlpath regexes IH]; intros text; [reflexivity|].
  cbn [fold_text flat_map].
  generalize (list_elements pm xmlpath). intros els. revert text.
  induction els as [|el els IHe]; intros text; cbn [map app fold_text].
  - cbn. apply IH.
  - cbn. destruct (apply_regex pm os s (xmlpath +:+ "/" +:+ el) text) as [t|e]; cbn.
    + apply IHe.
    + reflexivity.
Qed.

(** With [matches] zero every occurrence is replaced, with [matches] [n+1]
    at most the first [n+1]. *)
Lemma sub_literal_counts :
  sub_literal "foo" "baz" (sub_limit 0) 0 "foo bar foo" = "baz bar baz"
  /\ sub_literal "foo" "baz" (sub_limit 1) 0 "foo bar foo" = "baz bar foo"
  /\ sub_literal "foo" "baz" (sub_limit 2) 0 "foo foo foo" = "baz baz foo".
Proof. vm_compute. repeat split; reflexivity. Qed.

(** On a text archive whose content decodes and whose rules all apply,
    [close_archive] leaves in the archive's file the text obtained from the
    rules in registration order, applied to the content as read (with the
    line ends translated). *)
Lemma close_archive_rewrites_in_order pm os a w h fo data t :
  is_root a = true -> _pointer_cache a = None ->
  _pointer_file a = Some h -> files w !! h = Some fo ->
  nonempty (archive_name a) = true -> archive_file a ∉ denied w ->
  is_gzip a = false ->
  list_read (_archive_regexes a) w <> [] ->
  fs (released h w) !! archive_file a = Some (FileData false data) ->
  valid_utf8 data = true ->
  fold_text (registered_rules pm (list_read (_archive_regexes a) w))
    (apply_regex pm os (reopened (length (files w)) a))
    (PyStr (universal_newlines data)) = Returns (PyStr t) ->
  exists a' w',
    close_archive pm os (a, w) = (Ok tt, (a', w'))
    /\ fs w' !! archive_file a = Some (FileData false t).
Proof.
  intros Hr Hc Hp Hf Hn Hd Hg Hl Hfs Hv Hrun.
  rewrite <- apply_archive_regexes_in_order in Hrun.
  destruct (root_close_rewrites pm os a w h fo Hr Hc Hp Hf Hl Hn Hd data t Hg Hfs Hv Hrun)
    as (a' & w' & E & Hfs' & _).
  exists a', w'. split; [exact E|]. rewrite Hfs'. apply lookup_insert_eq.
Qed.

(** C10.  [terminate_command] returns normally from every state of the
    command and of the world. *)
Theorem terminate_command_never_raises os (c : ExporterCommand) (w : world) :
  exists c' w', terminate_command os (c, w) = (Ok tt, (c', w')).
Proof.
  destruct (try_except_pass _ (c, w) (fuel_free_terminate_body os)) as [[c' w'] E].
  exists c', w'. exact E.
Qed.

(** No process was ever spawned: both attempts raise [AttributeError], and
    nothing changes. *)
Lemma terminate_command_without_process os c w :
  command_process c = None -> terminate_command os (c, w) = (Ok tt, (c, w)).
Proof.
  intros H. unfold terminate_command, try_except, bind, this, process_pid, raise, ret.
  cbn. rewrite H. cbn. rewrite H. reflexivity.
Qed.

(** No [os.killpg] on the platform and a process that is gone: both attempts
    raise, and nothing changes. *)
Lemma terminate_command_both_fail os c w pid :
  posix os = false -> command_process c = Some pid -> procs w !! pid = None ->
  terminate_command os (c, w) = (Ok tt, (c, w)).
Proof.
  intros Hx Hc Hp.
  unfold terminate_command, try_except, bind, this, process_pid, in_world, zoom,
    os_killpg, popen_terminate, get, raise, ret.
  cbn. rewrite Hc. cbn. rewrite Hx. cbn. rewrite Hc. cbn. rewrite Hp. reflexivity.
Qed.

(** * Rule lists of sibling archives *)

(** An archive built from [None] or from a plain export context gets two
    new lists, the last two of the world. *)
Lemma init_from_context eo path name w :
  (forall a, eo <> ArchiveObject a) ->
  exists s,
    ExporterArchive_init eo path name w
    = (Ok s, set_lists (fun ls => (ls ++ [[]]) ++ [[]]) w)
    /\ _archive_regexes s = length (lists w)
    /\ _target_regexes s = S (length (lists w))
    /\ is_root s = true /\ _pointer_file s = None
    /\ _pointer_cache s = None /\ is_gzip s = false
    /\ archive_path s = path /\ archive_name s = name.
Proof.
  intros Hne. unfold ExporterArchive_init.
  destruct eo as [|c|a]; [| |now exfalso; apply (Hne a)].
  all: unfold bind, list_new, ret; cbn; rewrite length_app; cbn; rewrite Nat.add_1_r.
  all: eexists; split; [reflexivity|].
  all: destruct path, name; cbn; auto 10.
Qed.

(** [add_regexes] changes no list but the two of the archive it is called
    on. *)
Lemma add_regexes_other_lists pm xmlpath s w loc :
  loc <> _archive_regexes s -> loc <> _target_regexes s ->
  list_read loc (snd (snd (add_regexes pm xmlpath (s, w)))) = list_read loc w.
Proof.
  intros Ha Ht. unfold add_regexes, when.
  destruct (nonempty xmlpath); [|reflexivity].
  case_bool_decide; [|reflexivity].
  unfold bind, self, of_result. cbn.
  destruct (get_attr pm s xmlpath "target" false "") as [target|e]; [|reflexivity].
  destruct (nonempty target); rewrite in_world_run; cbn; unfold list_read; cbn;
    now rewrite list_lookup_insert_ne by congruence.
Qed.

(** C3 (as the code has it).  Two archives built one after the other from
    the same export object, when that object is [None] or a plain export
    context, have rule lists of their own: [add_regexes] on either leaves
    both lists of the other as they were. *)
Theorem siblings_from_context_independent pm eo p1 n1 p2 n2 w s1 w1 s2 w2 xmlpath :
  (forall a, eo <> ArchiveObject a) ->
  ExporterArchive_init eo p1 n1 w = (Ok s1, w1) ->
  ExporterArchive_init eo p2 n2 w1 = (Ok s2, w2) ->
  (let w3 := snd (snd (add_regexes pm xmlpath (s1, w2))) in
   list_read (_archive_regexes s2) w3 = list_read (_archive_regexes s2) w2
   /\ list_read (_target_regexes s2) w3 = list_read (_target_regexes s2) w2)
  /\ (let w3 := snd (snd (add_regexes pm xmlpath (s2, w2))) in
      list_read (_archive_regexes s1) w3 = list_read (_archive_regexes s1) w2
      /\ list_read (_target_regexes s1) w3 = list_read (_target_regexes s1) w2).
Proof.
  intros Hne E1 E2.
  destruct (init_from_context eo p1 n1 w Hne) as (s1' & E1' & Ha1 & Ht1 & _).
  rewrite E1 in E1'. inversion E1'. subst s1'.
  destruct (init_from_context eo p2 n2 w1 Hne) as (s2' & E2' & Ha2 & Ht2 & _).
  rewrite E2 in E2'. inversion E2'. subst s2'. clear E2'.
  subst w1. cbn in Ha2, Ht2. rewrite !length_app in Ha2, Ht2. cbn in Ha2, Ht2.
  repeat split; apply add_regexes_other_lists; lia.
Qed.

(** C3, an instance: two archives built from [None]; a rule registered on
    the first does not show in the lists of the second. *)
Lemma siblings_from_context_independent_witness :
  let st1 := new_archive "./" "a.rib" empty_world in
  let st2 := new_archive "./" "b.rib" (snd st1) in
  (let w3 := snd (snd (add_regexes foo_pipeline "Render/regexes" (fst st1, snd st2))) in
   list_read (_archive_regexes (fst st2)) w3 = list_read (_archive_regexes (fst st2)) (snd st2)
   /\ list_read (_target_regexes (fst st2)) w3 = list_read (_target_regexes (fst st2)) (snd st2))
  /\ (let w3 := snd (snd (add_regexes foo_pipeline "Render/regexes" (fst st2, snd st2))) in
      list_read (_archive_regexes (fst st1)) w3 = list_read (_archive_regexes (fst st1)) (snd st2)
      /\ list_read (_target_regexes (fst st1)) w3 = list_read (_target_regexes (fst st1)) (snd st2)).
Proof.
  intros st1 st2.
  apply (siblings_from_context_independent foo_pipeline NoObject "./" "a.rib" "./" "b.rib"
           empty_world (fst st1) (snd st1) (fst st2) (snd st2) "Render/regexes").
  - discriminate.
  - reflexivity.
  - reflexivity.
Defined.

(** C3 as stated fails: two archives built from the same archive hold that
    archive's lists, and a rule registered on one shows in the other's. *)
Lemma siblings_from_archive_share_rules :
  let parent := new_archive "./" "scene.rib" empty_world in
  let w := snd parent in
  let sibling1 := built_from (fst parent) "./" "one.rib" w in
  let sibling2 := built_from (fst parent) "./" "two.rib" w in
  let w' := snd (snd (add_regexes foo_pipeline "Render/regexes" (sibling1, w))) in
  list_read (_archive_regexes sibling2) w = []
  /\ list_read (_archive_regexes sibling2) w' = ["Render/regexes"].
Proof. vm_compute. split; reflexivity. Qed.

(** Archives built from an archive share its rule lists: what one registers,
    the parent and every other one sees. *)
Lemma siblings_from_archive_share parent p1 n1 p2 n2 w :
  _archive_regexes (built_from parent p1 n1 w) = _archive_regexes parent
  /\ _archive_regexes (built_from parent p2 n2 w) = _archive_regexes parent
  /\ _target_regexes (built_from parent p1 n1 w) = _target_regexes parent
  /\ _target_regexes (built_from parent p2 n2 w) = _target_regexes parent.
Proof.
  unfold built_from.
  destruct (init_from_archive parent p1 n1 w) as (c1 & -> & _ & _ & _ & _ & Ha1 & Ht1 & _).
  destruct (init_from_archive parent p2 n2 w) as (c2 & -> & _ & _ & _ & _ & Ha2 & Ht2 & _).
  auto.
Qed.

(** * Passes and frames *)

Local Open Scope Z_scope.

(** The frames of an ascending range. *)
Lemma range_up_spec start stop step f :
  0 < step ->
  (start <= f /\ f < stop /\ (f - start) mod step = 0)
  <-> exists k : nat,
        f = start + Z.of_nat k * step
        /\ (Z.of_nat k < (if start <? stop then (stop - start - 1) / step + 1 else 0)).
Proof.
  intros Hs. split.
  - intros (H1 & H2 & H3).
    assert (Hq : f - start = step * ((f - start) / step)).
    { apply Z_div_exact_full_2; lia. }
    set (q := (f - start) / step) in *.
    assert (Hq0 : 0 <= q) by (apply Z.div_pos; lia).
    exists (Z.to_nat q). rewrite Z2Nat.id by lia. split; [lia|].
    destruct (start <? stop) eqn:E; [|apply Z.ltb_ge in E; lia].
    assert (q <= (stop - start - 1) / step); [|lia].
    apply Z.div_le_lower_bound; lia.
  - intros (k & -> & Hk).
    destruct (start <? stop) eqn:E; [apply Z.ltb_lt in E|lia].
    assert (Hm : step * ((stop - start - 1) / step) <= stop - start - 1)
      by (apply Z.mul_div_le; lia).
    assert (Hk' : Z.of_nat k <= (stop - start - 1) / step) by lia.
    repeat split.
    + nia.
    + nia.
    + replace (start + Z.of_nat k * step - start) with (Z.of_nat k * step) by lia.
      apply Z.mod_mul. lia.
Qed.

(** Membership in a range is membership in the list of its elements. *)
Lemma range_contains_elements r f :
  range_step r <> 0 ->
  range_contains r f = true <-> In f (range_elements r).
Proof.
  intros Hstep. unfold range_contains, range_elements, range_length.
  destruct r as [start stop step]. cbn [range_start range_stop range_step] in *.
  rewrite in_map_iff.
  destruct (0 <? step) eqn:Hs.
  - apply Z.ltb_lt in Hs.
    pose proof (range_up_spec start stop step f Hs) as Hspec.
    rewrite !andb_true_iff, Z.leb_le, Z.ltb_lt, Z.eqb_eq.
    split.
    + intros ((H1 & H2) & H3).
      destruct (proj1 Hspec) as (k & Hk & Hb); [auto|].
      exists k. split; [lia|]. apply in_seq. destruct (start <? stop); lia.
    + intros (k & Hk & Hb). apply in_seq in Hb.
      destruct (proj2 Hspec) as (H1 & H2 & H3).
      * exists k. split; [lia|]. destruct (start <? stop); lia.
      * auto.
  - apply Z.ltb_ge in Hs. assert (Hn : 0 < - step) by lia.
    rewrite !andb_true_iff, Z.leb_le, Z.ltb_lt, Z.eqb_eq.
    pose proof (range_up_spec (- start) (- stop) (- step) (- f) Hn) as Hspec.
    replace (- f - - start) with (start - f) in Hspec by lia.
    replace (- stop - - start - 1) with (start - stop - 1) in Hspec by lia.
    assert (Hlt : (- start <? - stop) = (stop <? start)).
    { destruct (stop <? start) eqn:E; [apply Z.ltb_lt in E; apply Z.ltb_lt|
                                       apply Z.ltb_ge in E; apply Z.ltb_ge]; lia. }
    rewrite Hlt in Hspec.
    split.
    + intros ((H1 & H2) & H3).
      destruct (proj1 Hspec) as (k & Hk & Hb); [repeat split; [lia|lia|exact H3]|].
      exists k. split; [lia|]. apply in_seq. destruct (stop <? start); lia.
    + intros (k & Hk & Hb). apply in_seq in Hb.
      destruct (proj2 Hspec) as (H1 & H2 & H3).
      * exists k. split; [lia|]. destruct (stop <? start); lia.
      * split; [split|]; [lia|lia|exact H3].
Qed.

Local Close Scope Z_scope.

(** The loop of [_update_directory] over the passes appends one range per
    pass; it completes only when no step is zero. *)
Lemma update_ranges_loop sc coll m0 m1 :
  for_each coll
    (fun p =>
       let '(start, end_, step) := pass_frame_range sc p in
       do r <- of_result (py_range_new start (end_ + 1) step);
       modify (fun m => MkManager (export_frame m) (export_scene m) (export_directory m)
                          (export_passes m) (command_scripts m) (_pass_ranges m ++ [r]))) m0
  = (Ok tt, m1) ->
  _pass_ranges m1 = _pass_ranges m0 ++ map (pass_range sc) coll
  /\ Forall (fun p => range_step (pass_range sc p) <> 0%Z) coll
  /\ export_passes m1 = export_passes m0
  /\ export_scene m1 = export_scene m0.
Proof.
  revert m0. induction coll as [|p coll IH]; intros m0; cbn [for_each].
  - unfold ret. intros E. inversion E. subst. rewrite app_nil_r. auto.
  - unfold bind at 1.
    assert (Hp : pass_range sc p
                 = let '(start, end_, step) := pass_frame_range sc p in
                   MkRange start (end_ + 1) step) by reflexivity.
    destruct (pass_frame_range sc p) as [[start end_] step] eqn:Ep.
    unfold bind at 1, of_result, py_range_new.
    destruct (step =? 0)%Z eqn:Es; [discriminate|].
    unfold modify at 1. intros E. apply IH in E.
    cbn [_pass_ranges export_passes export_scene] in E.
    destruct E as (E1 & E2 & E3 & E4).
    rewrite E1, <- app_assoc. cbn [map app]. rewrite Hp.
    repeat split; auto.
    constructor; [|exact E2]. rewrite Hp. cbn.
    now apply Z.eqb_neq.
Qed.

(** After [_update_directory] the manager holds the scene, its passes and
    one range per pass, none with a zero step. *)
Lemma update_directory_ranges os scene m m' :
  _update_directory os scene m = (Ok tt, m') ->
  exists sc,
    export_scene m' = Some sc
    /\ export_passes m' = ribmosaic_passes sc
    /\ _pass_ranges m' = map (pass_range sc) (export_passes m')
    /\ Forall (fun p => range_step (pass_range sc p) <> 0%Z) (export_passes m').
Proof.
  unfold _update_directory. unfold bind at 1, get.
  set (scene1 := match scene with
                 | Some sc => Some sc
                 | None => match export_scene m with
                           | Some sc => Some sc
                           | None => bpy_scene os
                           end
                 end).
  destruct scene1 as [sc|]; [|discriminate].
  set (coll := match ribmosaic_passes sc with [] => [beauty_pass os] | l => l end).
  unfold bind at 1, modify at 1.
  unfold bind at 1.
  match goal with |- context [for_each coll ?b ?m0] =>
    destruct (for_each coll b m0) as [[[]|e|] m1] eqn:El; try discriminate end.
  apply update_ranges_loop in El. cbn in El. destruct El as (E1 & E2 & E3 & E4).
  unfold bind at 1.
  destruct (nonempty (ribmosaic_export_path sc)); [|discriminate].
  unfold of_result. destruct (resolve_path os (ribmosaic_export_path sc)); [|discriminate].
  unfold modify. intros E. inversion E. subst m'. clear E. cbn.
  eexists. split; [reflexivity|]. cbn.
  assert (Hr : map (pass_range sc) coll
               = map (pass_range
                        (MkScene (frame_start sc) (frame_end sc) (frame_step sc)
                           (frame_current sc) (ribmosaic_interactive sc)
                           (ribmosaic_compileshd sc) (ribmosaic_optimizetex sc)
                           (ribmosaic_renderrib sc) (ribmosaic_export_path sc) coll)) coll)
    by reflexivity.
  rewrite E3, E1. split; [reflexivity|split; [exact Hr|exact E2]].
Qed.

(** The test at the head of the loop, once the ranges are there. *)
Lemma pass_selected_spec sc m f i p :
  _pass_ranges m = map (pass_range sc) (export_passes m) ->
  Forall (fun p => range_step (pass_range sc p) <> 0%Z) (export_passes m) ->
  export_passes m !! i = Some p ->
  exists b, pass_selected m f i p = Returns b
    /\ (b = true <-> pass_enabled p = true /\ In f (range_elements (pass_range sc p))).
Proof.
  intros Hr Hs Hp. unfold pass_selected.
  destruct (pass_enabled p).
  - rewrite Hr, list_lookup_fmap, Hp. cbn. eexists. split; [reflexivity|].
    rewrite range_contains_elements; [tauto|].
    eapply (Forall_lookup_1 _ _ _ _ Hs); eauto.
  - exists false. split; [reflexivity|]. split; [discriminate|intros [H _]; discriminate].
Qed.

Lemma range_contains_due r f :
  range_step r <> 0%Z ->
  range_contains r f = bool_decide (f ∈ range_elements r).
Proof.
  intros Hs. pose proof (range_contains_elements r f Hs) as H.
  rewrite <- list_elem_of_In in H.
  destruct (range_contains r f).
  - symmetry. apply bool_decide_eq_true. now apply H.
  - symmetry. apply bool_decide_eq_false. intros Hin. apply H in Hin. discriminate.
Qed.

(** The test of the loop is the specification's: enabled, and the frame in
    the range. *)
Lemma pass_selected_due sc m f i p :
  _pass_ranges m !! i = Some (pass_range sc p) ->
  range_step (pass_range sc p) <> 0%Z ->
  pass_selected m f i p = Returns (pass_due sc f p).
Proof.
  intros Hr Hs. unfold pass_selected, pass_due.
  destruct (pass_enabled p); [|reflexivity].
  rewrite Hr. cbn [andb]. now rewrite range_contains_due.
Qed.

Lemma on_buckets_ranges m st :
  _pass_ranges (fst (snd (on_buckets m st))) = _pass_ranges (fst st).
Proof.
  unfold on_buckets, zoom. now destruct (m (command_scripts st.1, st.2)) as [r s1].
Qed.

(** The loop of [export_rib] runs the per-pass work for the passes that are
    due, in the order of the collection, and for no other pass. *)
Lemma export_rib_loop_due export_pass sc f ps :
  forall i st,
    (forall j p, ps !! j = Some p ->
       _pass_ranges (fst st) !! (i + j) = Some (pass_range sc p)
       /\ range_step (pass_range sc p) <> 0%Z) ->
    export_rib_loop export_pass sc f i ps st
    = export_passes_in_turn export_pass sc f
        (filter (fun ip => pass_due sc f (snd ip)) (enumerate_from i ps)) st.
Proof.
  induction ps as [|p ps IH]; intros i st Hr; [reflexivity|].
  cbn [export_rib_loop enumerate_from].
  unfold bind at 1, get. unfold bind at 1, of_result.
  destruct (Hr 0 p eq_refl) as [Hr0 Hs0]. rewrite Nat.add_0_r in Hr0.
  rewrite (pass_selected_due sc _ f i p Hr0 Hs0).
  assert (Hnext : forall st1 : mstate, _pass_ranges (fst st1) = _pass_ranges (fst st) ->
            forall j q, ps !! j = Some q ->
              _pass_ranges (fst st1) !! (S i + j) = Some (pass_range sc q)
              /\ range_step (pass_range sc q) <> 0%Z).
  { intros st1 E1 j q Hq. rewrite E1. replace (S i + j) with (i + S j) by lia.
    now apply Hr. }
  rewrite filter_cons. cbn [snd].
  destruct (pass_due sc f p) eqn:Hdue.
  - rewrite decide_True by exact I.
    unfold export_passes_in_turn. cbn [for_each fst snd]. unfold when, bind.
    pose proof (on_buckets_ranges (export_pass sc f i p) st) as Hsame.
    destruct (on_buckets (export_pass sc f i p) st) as [[[]|e|] st1]; try reflexivity.
    apply (IH (S i) st1). now apply Hnext.
  - rewrite decide_False by (intros H; exact H).
    unfold when, bind at 1, ret at 1.
    apply (IH (S i) st). now apply Hnext.
Qed.

Lemma enumerate_from_lookup {A} (l : list A) :
  forall i k x, (k, x) ∈ enumerate_from i l <-> exists j, k = i + j /\ l !! j = Some x.
Proof.
  induction l as [|y l IH]; intros i k x; cbn [enumerate_from].
  - split; [intros H; inversion H|intros (j & _ & H); now rewrite lookup_nil in H].
  - rewrite elem_of_cons, IH. split.
    + intros [H|(j & -> & H)].
      * inversion H. subst. exists 0. split; [lia|reflexivity].
      * exists (S j). split; [lia|exact H].
    + intros (j & -> & H). destruct j as [|j].
      * left. cbn in H. inversion H. now rewrite Nat.add_0_r.
      * right. exists j. split; [lia|exact H].
Qed.

(** The passes due at a frame are the enabled passes of the collection whose
    range has the frame. *)
Lemma due_passes_spec sc f ps i p :
  (i, p) ∈ due_passes sc f ps
  <-> ps !! i = Some p /\ pass_enabled p = true
      /\ In f (range_elements (pass_range sc p)).
Proof.
  unfold due_passes. rewrite list_elem_of_filter, enumerate_from_lookup. cbn [snd].
  unfold pass_due. rewrite <- list_elem_of_In. split.
  - intros [Hd (j & -> & Hj)]. apply Is_true_true in Hd.
    apply andb_true_iff in Hd. destruct Hd as [He Hin].
    apply bool_decide_eq_true in Hin. auto.
  - intros (Hi & He & Hin). split; [|exists i; auto].
    apply Is_true_true. apply andb_true_iff. split; [exact He|].
    now apply bool_decide_eq_true.
Qed.

(** C8.  After [_update_directory], for every pass [p] at index [i] of the
    collection and every frame [f]: the range of [p] is
    [range(start, end + 1, step)] for its frame-range triple, with a step
    that is not zero, and the test of [export_rib] is true iff [p] is
    enabled and [f] is an element of that range.  [export_rib] sets the
    frame being exported to the scene's current frame and then does its
    per-pass work for the passes due at that frame, one after the other in
    the order of the collection, and for no other pass; it returns when that
    work does.  The passes due at a frame are the enabled passes whose range
    has the frame.  A pass with the triple (1, 10, 2) has the frames 1, 3,
    5, 7, 9. *)
Theorem export_rib_pass_frame_membership os export_pass scene m m' :
  _update_directory os scene m = (Ok tt, m') ->
  exists sc,
    export_scene m' = Some sc
    /\ (forall i p f, export_passes m' !! i = Some p ->
          (let '(start, end_, step) := pass_frame_range sc p in
           pass_range sc p = MkRange start (end_ + 1) step /\ step <> 0%Z)
          /\ exists b, pass_selected m' f i p = Returns b
               /\ (b = true <->
                   pass_enabled p = true /\ In f (range_elements (pass_range sc p))))
    /\ (forall w,
          export_rib export_pass (m', w)
          = export_passes_in_turn export_pass sc (frame_current sc)
              (due_passes sc (frame_current sc) (export_passes m'))
              (with_export_frame (frame_current sc) m', w))
    /\ (forall i p f,
          (i, p) ∈ due_passes sc f (export_passes m')
          <-> export_passes m' !! i = Some p /\ pass_enabled p = true
              /\ In f (range_elements (pass_range sc p)))
    /\ (forall p, pass_frame_range sc p = (1, 10, 2)%Z ->
          range_elements (pass_range sc p) = [1; 3; 5; 7; 9]%Z).
Proof.
  intros E. destruct (update_directory_ranges os scene m m' E) as (sc & Hsc & Hp & Hr & Hs).
  exists sc. split; [exact Hsc|split; [|split; [|split]]].
  - intros i p f Hi. split.
    + assert (Hstep : range_step (pass_range sc p) <> 0%Z).
      { eapply (Forall_lookup_1 _ _ _ _ Hs); eauto. }
      unfold pass_range in *. destruct (pass_frame_range sc p) as [[start end_] step].
      split; [reflexivity|exact Hstep].
    + now apply (pass_selected_spec sc).
  - intros w. unfold export_rib.
    unfold bind at 1, get. cbn [fst]. rewrite Hsc.
    unfold bind at 1, modify. cbn [fst snd].
    apply (export_rib_loop_due export_pass sc (frame_current sc) (export_passes m') 0).
    intros j q Hq. cbn. rewrite Hr, list_lookup_fmap, Hq. cbn. split; [reflexivity|].
    eapply (Forall_lookup_1 _ _ _ _ Hs); eauto.
  - intros i p f. apply due_passes_spec.
  - intros p Hp'. unfold pass_range. rewrite Hp'. reflexivity.
Qed.

(** C8, an instance: the scene with three passes, at frame 3, and the
    stand-in that queues a RENDER command for every pass it is run for. *)
Lemma export_rib_pass_frame_membership_witness :
  let m' := snd (_update_directory quiet_platform (Some (three_pass_scene 3)) new_manager) in
  exists sc,
    export_scene m' = Some sc
    /\ (forall i p f, export_passes m' !! i = Some p ->
          (let '(start, end_, step) := pass_frame_range sc p in
           pass_range sc p = MkRange start (end_ + 1) step /\ step <> 0%Z)
          /\ exists b, pass_selected m' f i p = Returns b
               /\ (b = true <->
                   pass_enabled p = true /\ In f (range_elements (pass_range sc p))))
    /\ (forall w,
          export_rib (queue_render script_pipeline) (m', w)
          = export_passes_in_turn (queue_render script_pipeline) sc (frame_current sc)
              (due_passes sc (frame_current sc) (export_passes m'))
              (with_export_frame (frame_current sc) m', w))
    /\ (forall i p f,
          (i, p) ∈ due_passes sc f (export_passes m')
          <-> export_passes m' !! i = Some p /\ pass_enabled p = true
              /\ In f (range_elements (pass_range sc p)))
    /\ (forall p, pass_frame_range sc p = (1, 10, 2)%Z ->
          range_elements (pass_range sc p) = [1; 3; 5; 7; 9]%Z).
Proof.
  intros m'.
  apply (export_rib_pass_frame_membership quiet_platform (queue_render script_pipeline)
           (Some (three_pass_scene 3)) new_manager m').
  reflexivity.
Defined.

(** The run itself: at the frames 3 and 9 [export_rib] does its work for the
    first pass and no other, at the frames 4 and 10 for the second, and at
    the frames 0 and 11 for none. *)
Lemma export_rib_runs_due_passes :
  map render_names_at [0; 3; 4; 9; 10; 11]%Z
  = [[]; ["RENDER_P1.sh"]; ["RENDER_P2.sh"]; ["RENDER_P1.sh"]; ["RENDER_P2.sh"]; []].
Proof. vm_compute. reflexivity. Qed.

(** The pass of the examples is selected at the frames 1, 3, 5, 7 and 9 and
    at no other frame from 0 to 12. *)
Lemma odd_frames_selected :
  let m' := snd (_update_directory quiet_platform (Some odd_frames_scene) new_manager) in
  map (fun f => pass_selected m' f 0 (MkPass true 1 10 2))
      [0; 1; 2; 3; 4; 5; 6; 7; 8; 9; 10; 11; 12]%Z
  = map Returns [false; true; false; true; false; true; false; true; false; true;
                 false; false; false].
Proof. vm_compute. reflexivity. Qed.

(** * Invariants of methods *)

Lemma inv_ret {S A} (I : S -> Prop) (a : A) : inv I (ret a).
Proof. intros s H. exact H. Qed.

Lemma inv_raise {S A} (I : S -> Prop) e : inv I (@raise S A e).
Proof. intros s H. exact H. Qed.

Lemma inv_of_result {S A} (I : S -> Prop) (r : result A) : inv I (of_result r).
Proof. intros s H. exact H. Qed.

Lemma inv_bind {S A B} (I : S -> Prop) (m : M S A) (k : A -> M S B) :
  inv I m -> (forall a, inv I (k a)) -> inv I (bind m k).
Proof.
  intros Hm Hk s H. unfold bind. specialize (Hm s H).
  destruct (m s) as [[a|e|] s1]; cbn in *; [now apply Hk|exact Hm|exact Hm].
Qed.

Lemma inv_try {S A} (I : S -> Prop) (m h : M S A) :
  inv I m -> inv I h -> inv I (try_except m h).
Proof.
  intros Hm Hh s H. unfold try_except. specialize (Hm s H).
  destruct (m s) as [[a|e|] s1]; cbn in *; [exact Hm|now apply Hh|exact Hm].
Qed.

Lemma inv_when {S} (I : S -> Prop) (c : bool) (m : M S unit) :
  inv I m -> inv I (when c m).
Proof. intros Hm. destruct c; [exact Hm|apply (inv_ret I)]. Qed.

Lemma inv_for_each {S A} (I : S -> Prop) (l : list A) (body : A -> M S unit) :
  (forall x, inv I (body x)) -> inv I (for_each l body).
Proof.
  intros Hb. induction l as [|x l IH]; cbn.
  - apply inv_ret.
  - apply inv_bind; auto.
Qed.

Section Invariants.

(** [W] is what the world keeps and [own] which file objects a method may
    touch; an archive is inside when its file objects are its own and its
    name is [n]. *)
Variable W : world -> Prop.
Variable own : nat -> Prop.

Hypothesis W_fs : forall f w, W w -> W (set_fs f w).
Hypothesis W_executable : forall f w, W w -> W (set_executable f w).
Hypothesis W_lists : forall l w, W w -> W (set_lists (fun ls => ls ++ [l]) w).
Hypothesis W_procs : forall f w, W w -> W (set_procs f w).
Hypothesis W_ticks : forall f w, W w -> W (set_ticks f w).
Hypothesis W_emit : forall e w, W w -> W (emit e w).
Hypothesis W_new : forall fo w, W w -> W (set_files (fun l => l ++ [fo]) w).
Hypothesis W_update : forall h fo w, own h -> W w -> W (set_files (fun l => <[h := fo]> l) w).
Hypothesis W_fresh : forall w, W w -> own (length (files w)).

#[local] Abbreviation owns := (owns own).
#[local] Abbreviation ainv := (ainv W own).
#[local] Abbreviation cinv := (cinv W own).

Lemma W_py_open path mode gz w : W w -> W (snd (py_open path mode gz w)).
Proof.
  intros H. unfold py_open, open_world. destruct (decide _); [exact H|].
  destruct mode, (fs w !! path); cbn; auto.
Qed.

Lemma W_py_close h w : own h -> W w -> W (snd (py_close h w)).
Proof.
  intros Ho H. unfold py_close. destruct (files w !! h) as [fo|]; [|exact H].
  cbn. destruct (fo_closed fo); [exact H|].
  unfold close_world. destruct (fo_mode fo); auto.
Qed.

Lemma W_py_read h w : W w -> W (snd (py_read h w)).
Proof. intros H. unfold py_read. repeat case_match; exact H. Qed.

Lemma W_py_write h t w : own h -> W w -> W (snd (py_write h t w)).
Proof.
  intros Ho H. unfold py_write. repeat case_match; cbn; auto.
Qed.

Lemma W_chmod p w : W w -> W (snd (os_chmod_exec p w)).
Proof. intros H. unfold os_chmod_exec. case_match; cbn; auto. Qed.

Lemma W_list_new l w : W w -> W (snd (list_new l w)).
Proof. intros H. unfold list_new. cbn [snd]. now apply W_lists. Qed.

Lemma owns_configured n g e a : owns n a -> owns n (configured g e a).
Proof. intros H. destruct g, e; exact H. Qed.

Lemma W_opened_world g e mode a w : W w -> W (opened_world g e mode a w).
Proof.
  intros H. unfold opened_world.
  assert (H1 : W (open_world (archive_file a) mode (is_gzip (configured g e a)) w)).
  { unfold open_world. destruct mode, (fs w !! archive_file a); auto. }
  unfold mark_exec. destruct (is_exec (configured g e a)); auto.
Qed.

(** [open_archive] *)
Lemma ainv_open_archive n g e mode : inv (ainv n) (open_archive g e mode).
Proof.
  intros [a w] [Ho Hw]. cbn [fst snd] in *.
  destruct (open_archive_cases g e mode a w) as [E|[msg E]]; rewrite E; cbn.
  - split.
    + unfold opened. destruct (owns_configured n g e a Ho) as (H1 & H2 & H3).
      split; [|split]; cbn; auto.
      intros h Hh. inversion Hh. subst h. now apply W_fresh.
    + now apply W_opened_world.
  - split; [now apply owns_configured|exact Hw].
Qed.

Lemma ainv_pointer_read n : inv (ainv n) pointer_read.
Proof.
  intros [a w] [Ho Hw]. unfold pointer_read, bind, self. cbn.
  destruct (_pointer_file a) as [h|]; [|split; assumption].
  rewrite in_world_run. split; cbn [fst snd]; [exact Ho|now apply W_py_read].
Qed.

Lemma ainv_pointer_close n : inv (ainv n) pointer_close.
Proof.
  intros [a w] [Ho Hw]. unfold pointer_close, bind, self. cbn.
  destruct (_pointer_file a) as [h|] eqn:Hp; [|split; assumption].
  rewrite in_world_run. split; cbn [fst snd]; [exact Ho|]. apply W_py_close; [|exact Hw].
  now apply (proj1 Ho).
Qed.

Lemma ainv_write_text_body n text : inv (ainv n) (write_text_body text).
Proof.
  intros [a w] [Ho Hw]. unfold write_text_body, when.
  destruct (pytext_truthy text); [|split; assumption].
  unfold bind, self. cbn.
  destruct (_pointer_file a) as [h|] eqn:Hp; [|split; assumption].
  assert (Hown : own h) by now apply (proj1 Ho).
  destruct (is_gzip a).
  - unfold of_result. destruct (py_encode text); cbn; [|split; assumption].
    rewrite in_world_run. split; cbn [fst snd]; [exact Ho|now apply W_py_write].
  - rewrite in_world_run. split; cbn [fst snd]; [exact Ho|now apply W_py_write].
Qed.

Lemma owns_drop_pointer n a : owns n a -> owns n (with_pointer_file None a).
Proof. intros (H1 & H2 & H3). split; [|split]; cbn; auto. discriminate. Qed.

Lemma owns_drop_cache n a : owns n a -> owns n (with_pointer_cache None a).
Proof. intros (H1 & H2 & H3). split; [|split]; cbn; auto. discriminate. Qed.

Lemma ainv_update n f :
  (forall a, owns n a -> owns n (f a)) -> inv (ainv n) (update f).
Proof. intros Hf [a w] [Ho Hw]. split; cbn; auto. Qed.

Lemma ainv_pure n {A} (m : M astate A) :
  (forall s, snd (m s) = s) -> inv (ainv n) m.
Proof. intros H s Hs. now rewrite H. Qed.

Lemma ainv_rewrite_archive pm os n : inv (ainv n) (rewrite_archive pm os).
Proof.
  unfold rewrite_archive.
  repeat first
    [ apply ainv_open_archive | apply ainv_pointer_read | apply ainv_pointer_close
    | apply ainv_write_text_body
    | apply (ainv_update n); apply owns_drop_pointer
    | apply inv_of_result
    | apply (ainv_pure n); reflexivity
    | apply inv_bind; [|intros ?] ].
Qed.

Lemma ainv_self n {B} (k : ExporterArchive -> M astate B) :
  (forall a0, owns n a0 -> inv (ainv n) (k a0)) -> inv (ainv n) (bind self k).
Proof.
  intros H [a w] Hs. unfold bind, self. cbn [fst].
  apply (H a (proj1 Hs)). exact Hs.
Qed.

Lemma ainv_close_owned n h : own h -> inv (ainv n) (in_world (py_close h)).
Proof.
  intros Ho [a w] [Ha Hw]. rewrite in_world_run. split; cbn [fst snd]; [exact Ha|].
  now apply W_py_close.
Qed.

Lemma ainv_world n {A} (m : M world A) :
  (forall w, W w -> W (snd (m w))) -> inv (ainv n) (in_world m).
Proof.
  intros H [a w] [Ha Hw]. rewrite in_world_run. split; cbn [fst snd]; auto.
Qed.

Ltac ainv_step n :=
  first
    [ apply ainv_open_archive | apply ainv_pointer_read | apply ainv_pointer_close
    | apply ainv_write_text_body | apply ainv_rewrite_archive
    | apply (ainv_update n); first [apply owns_drop_pointer | apply owns_drop_cache]
    | apply inv_of_result | apply inv_ret | apply inv_raise
    | apply (ainv_pure n); reflexivity
    | apply inv_try
    | apply inv_when
    | apply inv_for_each; intros ?
    | apply inv_bind; [|intros ?] ].

Lemma ainv_close_archive pm os n : inv (ainv n) (close_archive pm os).
Proof.
  unfold close_archive. apply ainv_self. intros a (Hp & Hc & Hn).
  apply inv_when. apply inv_bind; [|intros _].
  - destruct (_pointer_cache a) as [c|]; [|apply inv_ret].
    apply inv_bind; [apply ainv_close_owned; auto|intros _].
    apply (ainv_update n). apply owns_drop_cache.
  - destruct (_pointer_file a) as [h|]; [|apply inv_ret].
    apply inv_bind; [|intros _].
    + apply inv_try; [|apply inv_raise].
      apply inv_bind; [apply ainv_close_owned; auto|intros _].
      apply (ainv_update n). apply owns_drop_pointer.
    + unfold archive_regexes_now. repeat ainv_step n.
Qed.

Lemma ainv_write_text pm os n text close : inv (ainv n) (write_text pm os text close).
Proof.
  unfold write_text. apply inv_bind; [apply ainv_write_text_body|intros _].
  apply inv_when. apply ainv_close_archive.
Qed.

Lemma ainv_list_targets os n target : inv (ainv n) (list_targets os target).
Proof.
  unfold list_targets. apply ainv_self. intros a _.
  repeat first [ ainv_step n | match goal with |- inv _ (if ?c then _ else _) => destruct c end ].
Qed.

Lemma owns_with_target n p t a : owns n a -> owns n (with_target p t a).
Proof. intros H. exact H. Qed.

Lemma ainv_write_code pm os n xmlpath close : inv (ainv n) (write_code pm os xmlpath close).
Proof.
  unfold write_code. apply ainv_self. intros a _.
  apply inv_bind; [apply inv_of_result|intros target].
  apply inv_bind; [apply ainv_list_targets|intros targets].
  apply inv_bind; [|intros _; apply inv_when; apply ainv_close_archive].
  apply inv_for_each. intros t.
  apply inv_bind; [apply inv_when; apply (ainv_update n); intros ?; apply owns_with_target|intros _].
  apply inv_bind; [apply inv_when; apply (ainv_update n); intros ?; apply owns_with_target|intros _].
  apply ainv_self. intros a' _.
  apply inv_bind; [apply inv_of_result|intros text].
  apply ainv_write_text.
Qed.

Lemma ainv_test_break os n : inv (ainv n) (_test_break os).
Proof.
  unfold _test_break. apply ainv_world. intros w Hw.
  destruct (user_break os (ticks w)); cbn [snd]; auto.
Qed.

Lemma ainv_on_local n n' {A} obj (m : M astate A) :
  owns n' obj -> inv (ainv n') m -> inv (ainv n) (on_local obj m).
Proof.
  intros Ho Hm [a w] [Ha Hw]. unfold on_local. cbn [fst snd].
  specialize (Hm (obj, w) (conj Ho Hw)).
  destruct (m (obj, w)) as [r [obj' w']]. cbn in *. split; [exact Ha|exact (proj2 Hm)].
Qed.

Lemma init_from_archive_eq parent path name w :
  ExporterArchive_init (ArchiveObject parent) path name w
  = (Ok (child_archive parent path name), w).
Proof.
  unfold ExporterArchive_init, child_archive, bind, ret. cbn.
  now destruct (nonempty path), (nonempty name).
Qed.

Lemma owns_child n parent path name :
  owns n parent ->
  owns (archive_name (child_archive parent path name)) (child_archive parent path name).
Proof.
  intros (Hp & Hc & _). unfold child_archive.
  destruct (nonempty path), (nonempty name); split; [|split| |split| |split| |split];
    cbn; auto.
Qed.

(** The loop of [apply_regextargets] over the target rules of [s]. *)
Lemma ainv_regextargets_loop pm os n (s : ExporterArchive) :
  inv (ainv n)
    (do w <- the_world;
     for_each (list_read (_target_regexes s) w)
       (fun xmlpath =>
          do s1 <- self;
          do target <- of_result (get_attr pm s1 xmlpath "target" false "");
          do targets <- list_targets os target;
          for_each (filter (fun t => nonempty (snd t)) targets)
            (fun t =>
               _test_break os >>
               do s2 <- self;
               do archive <- in_world (ExporterArchive_init (ArchiveObject s2) (fst t) (snd t));
               do l1 <- in_world (list_new [xmlpath]);
               do l2 <- in_world (list_new []);
               on_local (with_target_regexes l2 (with_archive_regexes l1 archive))
                 (open_archive None None ModeR >> close_archive pm os)))).
Proof.
  apply inv_bind; [apply (ainv_pure n); reflexivity|intros w].
  apply inv_for_each. intros xmlpath.
  apply ainv_self. intros s1 _.
  apply inv_bind; [apply inv_of_result|intros target].
  apply inv_bind; [apply ainv_list_targets|intros targets].
  apply inv_for_each. intros t.
  apply inv_bind; [apply ainv_test_break|intros _].
  apply ainv_self. intros s2 Hs2.
  assert (K : forall (k : ExporterArchive -> M astate unit),
             inv (ainv n) (k (child_archive s2 (fst t) (snd t))) ->
             inv (ainv n)
               (bind (in_world (ExporterArchive_init (ArchiveObject s2) (fst t) (snd t))) k)).
  { intros k Hk [a1 w1] Hst. unfold bind.
    rewrite in_world_run, init_from_archive_eq. cbn [fst snd]. now apply Hk. }
  apply K.
  apply inv_bind; [apply ainv_world; intros w' Hw'; now apply W_list_new|intros l1].
  apply inv_bind; [apply ainv_world; intros w' Hw'; now apply W_list_new|intros l2].
  apply (ainv_on_local n (archive_name (child_archive s2 (fst t) (snd t)))).
  - destruct (owns_child n s2 (fst t) (snd t) Hs2) as (H1 & H2 & H3).
    split; [|split]; cbn; auto.
  - apply inv_bind; [apply ainv_open_archive|intros _]. apply ainv_close_archive.
Qed.

Lemma ainv_apply_regextargets pm os n : inv (ainv n) (apply_regextargets pm os).
Proof.
  unfold apply_regextargets. apply ainv_self. intros a _.
  apply inv_bind; [apply ainv_world; intros w Hw; cbn [snd]; unfold modify; cbn; auto|intros _].
  apply ainv_regextargets_loop.
Qed.

(** ** Commands *)


Lemma cinv_inherited n {A} (m : M astate A) :
  inv (ainv n) m -> inv (cinv n) (inherited m).
Proof.
  intros Hm [c w] [Hc Hw]. unfold inherited, zoom. cbn [fst snd].
  specialize (Hm (archive c, w) (conj Hc Hw)).
  destruct (m (archive c, w)) as [r [a' w']]. exact Hm.
Qed.

Lemma cinv_world n {A} (m : M world A) :
  (forall w, W w -> W (snd (m w))) -> inv (cinv n) (in_world m).
Proof.
  intros H [c w] [Hc Hw]. rewrite in_world_run. split; cbn [fst snd]; auto.
Qed.

Lemma cinv_this n {B} (k : ExporterCommand -> M cstate B) :
  (forall c0, inv (cinv n) (k c0)) -> inv (cinv n) (bind this k).
Proof. intros H [c w] Hs. unfold bind, this. cbn [fst]. now apply H. Qed.

Lemma W_signal_process pid p w : W w -> W (snd (signal_process pid p w)).
Proof. intros H. unfold signal_process, modify. cbn [snd]. auto. Qed.

Lemma W_os_killpg os pid w : W w -> W (snd (os_killpg os pid w)).
Proof.
  intros H. unfold os_killpg, bind, get, raise.
  destruct (posix os); [|exact H].
  destruct (procs w !! pid) as [p|]; [|exact H].
  destruct (p_returncode p); [exact H|now apply W_signal_process].
Qed.

Lemma W_popen_terminate pid w : W w -> W (snd (popen_terminate pid w)).
Proof.
  intros H. unfold popen_terminate, bind, get, raise, ret.
  destruct (procs w !! pid) as [p|]; [|exact H].
  destruct (p_returncode p); [exact H|now apply W_signal_process].
Qed.

Lemma W_popen_poll pid w : W w -> W (snd (popen_poll pid w)).
Proof.
  intros H. unfold popen_poll, bind, get, raise, ret, modify.
  destruct (procs w !! pid) as [p|]; [|exact H].
  destruct (p_returncode p), (p_left p) as [[|k]|]; cbn [snd]; auto.
Qed.

Lemma W_popen os command w : W w -> W (snd (popen os command w)).
Proof.
  intros H. unfold popen, bind, get, raise, ret, modify.
  destruct (can_spawn os command); cbn [snd]; auto.
Qed.

Lemma cinv_process_pid n c : inv (cinv n) (process_pid c).
Proof. unfold process_pid. destruct (command_process c); [apply inv_ret|apply inv_raise]. Qed.

Lemma cinv_terminate_command os n : inv (cinv n) (terminate_command os).
Proof.
  unfold terminate_command.
  apply inv_try; [|apply inv_ret].
  apply inv_try; apply cinv_this; intros c;
    (apply inv_bind; [apply cinv_process_pid|intros pid]); apply cinv_world; intros w Hw.
  - now apply W_os_killpg.
  - now apply W_popen_terminate.
Qed.

Lemma cinv_test_break os n : inv (cinv n) (_test_break os).
Proof.
  unfold _test_break. apply cinv_world. intros w Hw.
  destruct (user_break os (ticks w)); cbn [snd]; auto.
Qed.

Lemma cinv_poll_loop os n fuel : inv (cinv n) (poll_loop os fuel).
Proof.
  induction fuel as [|fuel IH]; cbn [poll_loop].
  - intros s Hs. exact Hs.
  - apply cinv_this. intros c.
    apply inv_bind; [apply cinv_process_pid|intros pid].
    apply inv_bind; [apply cinv_world; intros w Hw; now apply W_popen_poll|intros rc].
    destruct rc; [apply inv_ret|].
    apply inv_bind; [|intros _; exact IH].
    apply inv_try; [apply cinv_test_break|apply cinv_terminate_command].
Qed.

Lemma cinv_build_code pm os n element close : inv (cinv n) (build_code pm os element close).
Proof.
  unfold build_code. apply cinv_this. intros c.
  apply cinv_inherited. apply ainv_write_code.
Qed.

Lemma cinv_set_process n p :
  inv (cinv n) (modify (fun s : cstate => (with_command_process p (fst s), snd s))).
Proof. intros [c w] Hs. exact Hs. Qed.

Lemma cinv_execute_command pm os n fuel : inv (cinv n) (execute_command pm os fuel).
Proof.
  unfold execute_command. apply cinv_this. intros c.
  apply inv_bind; [|intros _].
  { apply inv_when. apply inv_bind; [|intros _; apply cinv_inherited, ainv_close_archive].
    apply inv_when.
    repeat (apply inv_bind; [apply cinv_build_code|intros _]). apply cinv_build_code. }
  apply inv_bind; [|intros execute].
  { apply inv_try; [|apply inv_raise]. apply cinv_this. intros c1.
    apply inv_bind; [apply inv_of_result|intros a]. apply inv_of_result. }
  apply inv_when.
  apply inv_bind; [|intros _].
  { apply inv_try; [apply cinv_inherited, ainv_close_archive|apply inv_raise]. }
  apply cinv_this. intros c2.
  apply inv_bind; [|intros _].
  { apply inv_try; [|apply inv_raise].
    apply inv_bind; [|intros pid; apply cinv_set_process].
    apply inv_try.
    - destruct (posix os); [|apply inv_raise].
      apply cinv_world. intros w Hw. now apply W_popen.
    - apply cinv_world. intros w Hw. now apply W_popen. }
  apply cinv_this. intros c3.
  apply inv_bind; [|intros interactive].
  { destruct (pointer_datablock (context (archive c3))); [apply inv_ret|apply inv_raise]. }
  apply inv_when.
  apply inv_bind; [apply cinv_poll_loop|intros _].
  apply cinv_inherited, ainv_apply_regextargets.
Qed.

End Invariants.

(** * The root script of [execute_commands] *)

Lemma bind_ok_inv {S A B} (m : M S A) (k : A -> M S B) s b s' :
  bind m k s = (Ok b, s') ->
  exists a s1, m s = (Ok a, s1) /\ k a s1 = (Ok b, s').
Proof.
  unfold bind. destruct (m s) as [[a|e|] s1]; try discriminate. eauto.
Qed.

Lemma string_app_assoc (a b c : string) : (a +:+ b) +:+ c = a +:+ (b +:+ c).
Proof.
  induction a as [|x a IH]; [reflexivity|].
  change (String x ((a +:+ b) +:+ c) = String x (a +:+ (b +:+ c))). now rewrite IH.
Qed.

Lemma join_app l1 l2 : join (l1 ++ l2) = join l1 +:+ join l2.
Proof.
  induction l1 as [|x l1 IH]; [reflexivity|].
  cbn [app join fold_right]. fold (join (l1 ++ l2)). fold (join l1).
  now rewrite IH, string_app_assoc.
Qed.

(** A command's execution keeps a file object it does not hold, the empty
    list of the root script, and the command's name. *)
Lemma frame_execute_command pm os fuel h0 fo0 r0 n :
  inv (cinv (kept h0 fo0 r0) (other_than h0) n) (execute_command pm os fuel).
Proof.
  apply cinv_execute_command; unfold kept, other_than.
  - intros f w H. exact H.
  - intros f w H. exact H.
  - intros l w [H1 H2]. split; [exact H1|]. cbn. now apply lookup_app_l_Some.
  - intros f w H. exact H.
  - intros f w H. exact H.
  - intros e w H. exact H.
  - intros fo w [H1 H2]. split; [|exact H2]. cbn. now apply lookup_app_l_Some.
  - intros h fo w Hh [H1 H2]. split; [|exact H2]. cbn.
    now rewrite list_lookup_insert_ne.
  - intros w [H1 _]. apply lookup_lt_Some in H1. lia.
Qed.

Section RootScript.

Variable pm : pipeline_manager.
Variable os : platform.
Variable fuel : nat.
Variables c o r : bool.
Variables h0 r0 : nat.
Variable path : string.

Let line (t : category) (name : string) : string :=
  if bool_decide (t = INFO) then "" else script_line os name.

(** One command of bucket [t]: it is executed when its category is enabled,
    and its line goes to the root script unless [t] is INFO. *)
Lemma execute_one_step t i s buf st st' :
  einv h0 r0 path buf st ->
  command_scripts (snd (fst st)) t !! i = Some s ->
  execute_one pm os fuel t c o r i st = (Ok tt, st') ->
  einv h0 r0 path (buf +:+ line t (archive_name (archive s))) st'
  /\ (forall t', bucket_names (snd (fst st')) t' = bucket_names (snd (fst st)) t')
  /\ (forall t', length (command_scripts (snd (fst st')) t')
                 = length (command_scripts (snd (fst st)) t')).
Proof.
  destruct st as [[root mgr] w]. cbn [fst snd].
  intros (Hp & Hc & Hr & Hg & Hl & Hk & Ho) Hs E. cbn [fst snd] in *.
  unfold execute_one in E.
  apply bind_ok_inv in E. destruct E as ([] & st1 & E1 & E2).
  (* the execution *)
  assert (H1 : exists s1 mgr1 w1,
             st1 = ((root, mgr1), w1)
             /\ (forall t', command_scripts mgr1 t'
                            = if decide (t' = t) then <[i := s1]> (command_scripts mgr t)
                              else command_scripts mgr t')
             /\ owns (other_than h0) (archive_name (archive s)) (archive s1)
             /\ kept h0 (FileObject path ModeA false false buf) r0 w1).
  { unfold when in E1.
    destruct (_ || _ || _) in E1.
    - unfold on_command in E1. cbn [fst snd] in E1. rewrite Hs in E1.
      pose proof (frame_execute_command pm os fuel h0 _ r0 (archive_name (archive s))
                    (s, w) (conj (Ho t i s Hs) Hk)) as Hf.
      destruct (execute_command pm os fuel (s, w)) as [r1 [s1 w1]].
      inversion E1. subst r1 st1.
      exists s1, (with_command_scripts t (<[i := s1]> (command_scripts mgr t)) mgr), w1.
      destruct Hf as [Hf1 Hf2].
      split; [reflexivity|split; [reflexivity|auto]].
    - unfold ret in E1. inversion E1. subst st1. exists s, mgr, w.
      split; [reflexivity|split; [|split; [apply (Ho t i s Hs)|exact Hk]]].
      intros t'. destruct (decide (t' = t)) as [->|]; [|reflexivity].
      now rewrite list_insert_id. }
  destruct H1 as (s1 & mgr1 & w1 & -> & Hb1 & Ho1 & Hk1).
  assert (Hlen : i < length (command_scripts mgr t)) by (eapply lookup_lt_Some; eauto).
  assert (Hname1 : archive_name (archive s1) = archive_name (archive s)) by apply Ho1.
  assert (Hnames : forall t', bucket_names mgr1 t' = bucket_names mgr t').
  { intros t'. unfold bucket_names. rewrite Hb1. destruct (decide (t' = t)) as [->|]; [|reflexivity].
    rewrite list_fmap_insert, Hname1. apply list_insert_id.
    now rewrite list_lookup_fmap, Hs. }
  assert (Hlens : forall t', length (command_scripts mgr1 t') = length (command_scripts mgr t')).
  { intros t'. rewrite Hb1. destruct (decide (t' = t)) as [->|]; [|reflexivity].
    apply length_insert. }
  assert (Ho' : forall t' j s', command_scripts mgr1 t' !! j = Some s' ->
                  owns (other_than h0) (archive_name (archive s')) (archive s')).
  { intros t' j s' Hj. rewrite Hb1 in Hj. destruct (decide (t' = t)) as [->|]; [|eauto].
    destruct (decide (i = j)) as [->|Hne].
    - rewrite list_lookup_insert_eq in Hj by assumption. inversion Hj. subst s'.
      now rewrite Hname1.
    - rewrite list_lookup_insert_ne in Hj by assumption. eauto. }
  (* the line *)
  unfold when, line in *. destruct (decide (t = INFO)) as [Hinfo|Hinfo].
  2:{ (* not INFO *)
    rewrite (bool_decide_true (t <> INFO)) in E2 by assumption.
    rewrite bool_decide_false by assumption.
    apply bind_ok_inv in E2. destruct E2 as (s2 & st2 & E2 & E3).
    assert (Hs1 : command_scripts mgr1 t !! i = Some s1).
    { rewrite Hb1. destruct (decide (t = t)); [|congruence].
      now apply list_lookup_insert_eq. }
    unfold on_command, this in E2. cbn [fst snd] in E2.
    rewrite Hs1 in E2.
    inversion E2. subst s2 st2. clear E2.
    set (mgr2 := with_command_scripts t (<[i := s1]> (command_scripts mgr1 t)) mgr1) in *.
    assert (Hb2 : forall t', command_scripts mgr2 t' = command_scripts mgr1 t').
    { intros t'. unfold mgr2. cbn. destruct (decide (t' = t)) as [->|]; [|reflexivity].
      now apply list_insert_id. }
    unfold on_root, zoom in E3. cbn [fst snd] in E3.
    assert (Hw : write_text pm os
                   (PyStr ("." +:+ os_sep os +:+ archive_name (archive s1) +:+ newline))
                   false (archive root, w1)
                 = (Ok tt, (archive root,
                            written h0 (script_line os (archive_name (archive s))) w1))).
    { unfold write_text. erewrite bind_ok.
      - reflexivity.
      - rewrite Hname1.
        apply (write_text_body_str (archive root) w1 h0 (FileObject path ModeA false false buf));
          [exact Hp|exact Hg|exact (proj1 Hk1)|reflexivity|discriminate|reflexivity]. }
    rewrite Hw in E3. inversion E3. subst st'. clear E3 Hw. cbn [fst snd].
    assert (Hroot : with_archive (archive root) root = root) by now destruct root.
    rewrite Hroot. unfold einv. cbn [fst snd].
    split; [|split].
    + split; [exact Hp|split; [exact Hc|split; [exact Hr|split; [exact Hg|split; [exact Hl|]]]]].
      split.
      * destruct Hk1 as [Hf1 Hl1]. unfold kept. split; [|exact Hl1].
        now rewrite (written_lookup h0 _ _ w1 Hf1).
      * intros t' j s' Hj. rewrite Hb2 in Hj. eauto.
    + intros t'. unfold bucket_names. rewrite Hb2. apply Hnames.
    + intros t'. rewrite Hb2. apply Hlens. }
  - (* INFO *)
    rewrite (bool_decide_false (t <> INFO)) in E2 by tauto.
    rewrite bool_decide_true by assumption.
    unfold ret in E2. inversion E2. subst st'. unfold einv. cbn [fst snd].
    rewrite append_empty_r.
    split; [|split; [exact Hnames|exact Hlens]].
    split; [exact Hp|split; [exact Hc|split; [exact Hr|split; [exact Hg|split; [exact Hl|]]]]].
    split; [exact Hk1|exact Ho'].
Qed.


Lemma join_cons x l : join (x :: l) = x +:+ join l.
Proof. reflexivity. Qed.

(** The loop over the commands of bucket [t], from index [k] on. *)
Lemma bucket_loop t n :
  forall k buf st st',
    einv h0 r0 path buf st ->
    length (command_scripts (snd (fst st)) t) = k + n ->
    for_each (seq k n) (execute_one pm os fuel t c o r) st = (Ok tt, st') ->
    einv h0 r0 path
      (buf +:+ join (map (line t) (drop k (bucket_names (snd (fst st)) t)))) st'
    /\ (forall t', bucket_names (snd (fst st')) t' = bucket_names (snd (fst st)) t')
    /\ (forall t', length (command_scripts (snd (fst st')) t')
                   = length (command_scripts (snd (fst st)) t')).
Proof.
  induction n as [|n IH]; intros k buf st st' Hinv Hlen E.
  - cbn in E. unfold ret in E. inversion E. subst st'.
    rewrite drop_ge by (unfold bucket_names; rewrite length_map; lia).
    cbn. rewrite append_empty_r. auto.
  - cbn [seq for_each] in E. apply bind_ok_inv in E. destruct E as ([] & st1 & E1 & E2).
    destruct (lookup_lt_is_Some_2 (command_scripts (snd (fst st)) t) k) as [s Hs]; [lia|].
    destruct (execute_one_step t k s buf st st1 Hinv Hs E1) as (Hinv1 & Hn1 & Hl1).
    destruct (IH (S k) _ st1 st' Hinv1) as (Hinv' & Hn' & Hl'); [rewrite Hl1; lia|exact E2|].
    split; [|split].
    + rewrite Hn1 in Hinv'.
      assert (Hd : drop k (bucket_names (snd (fst st)) t)
                   = archive_name (archive s) :: drop (S k) (bucket_names (snd (fst st)) t)).
      { apply drop_S. unfold bucket_names. now rewrite list_lookup_fmap, Hs. }
      rewrite Hd. cbn [map]. rewrite join_cons, <- string_app_assoc. exact Hinv'.
    + intros t'. now rewrite Hn', Hn1.
    + intros t'. now rewrite Hl', Hl1.
Qed.

Lemma join_lines_info l : join (map (line INFO) l) = "".
Proof. induction l as [|x l IH]; [reflexivity|]. cbn [map]. now rewrite join_cons, IH. Qed.

Lemma bucket_loop_lines mgr t :
  join (map (line t) (bucket_names mgr t)) = bucket_lines os mgr t.
Proof.
  unfold bucket_lines. destruct (decide (t = INFO)) as [->|Hne].
  - rewrite bool_decide_true by reflexivity. apply join_lines_info.
  - rewrite bool_decide_false by assumption. f_equal. apply map_ext.
    intros x. unfold line. now rewrite bool_decide_false by assumption.
Qed.

(** The loop over the categories [ts]: each bucket's lines, in the order of
    [ts]. *)
Lemma category_loop interactive mgr0 ts :
  NoDup ts ->
  forall buf st st',
    einv h0 r0 path buf st ->
    (forall t, t ∈ ts -> bucket_names (snd (fst st)) t = bucket_names mgr0 t) ->
    for_each ts
      (fun t =>
         do m <- manager;
         for_each (seq 0 (length (command_scripts m t))) (execute_one pm os fuel t c o r) >>
         when (negb interactive)
           (modify (fun st : estate =>
              ((fst (fst st), with_command_scripts t [] (snd (fst st))), snd st)))) st
    = (Ok tt, st') ->
    einv h0 r0 path (buf +:+ join (map (bucket_lines os mgr0) ts)) st'.
Proof.
  induction 1 as [|t ts Hnot Hnd IH]; intros buf st st' Hinv Hnames E.
  - cbn in E. unfold ret in E. inversion E. subst st'. cbn. now rewrite append_empty_r.
  - cbn [for_each] in E. apply bind_ok_inv in E. destruct E as ([] & st1 & E1 & E2).
    unfold bind at 1, manager in E1.
    apply bind_ok_inv in E1. destruct E1 as ([] & st2 & E1 & E3).
    destruct (bucket_loop t _ 0 buf st st2 Hinv eq_refl E1) as (Hinv2 & Hn2 & Hl2).
    rewrite drop_0, bucket_loop_lines in Hinv2.
    assert (Hlines : bucket_lines os (snd (fst st)) t = bucket_lines os mgr0 t).
    { unfold bucket_lines. rewrite Hnames by (left). reflexivity. }
    rewrite Hlines in Hinv2.
    assert (H1 : einv h0 r0 path (buf +:+ bucket_lines os mgr0 t) st1
                 /\ forall t', t' <> t ->
                      bucket_names (snd (fst st1)) t' = bucket_names (snd (fst st2)) t').
    { unfold when in E3. destruct (negb interactive).
      - unfold modify in E3. inversion E3. subst st1. clear E3.
        destruct st2 as [[root2 mgr2] w2]. unfold einv in *. cbn [fst snd] in *.
        destruct Hinv2 as (Hp & Hc & Hr & Hg & Hl & Hk & Ho).
        split.
        + split; [exact Hp|split; [exact Hc|split; [exact Hr|split; [exact Hg|
            split; [exact Hl|split; [exact Hk|]]]]]].
          intros t' j s' Hj. unfold with_command_scripts in Hj.
          cbn [command_scripts] in Hj.
          destruct (decide (t' = t)) as [->|Hne].
          * destruct j; discriminate.
          * eauto.
        + intros t' Hne. unfold bucket_names, with_command_scripts.
          cbn [command_scripts].
          destruct (decide (t' = t)); [contradiction|reflexivity].
      - unfold ret in E3. inversion E3. subst st1. auto. }
    destruct H1 as [Hinv1 Hn1].
    cbn [map]. rewrite join_cons, <- string_app_assoc.
    apply (IH _ st1 st' Hinv1); [|exact E2].
    intros t' Ht'. rewrite Hn1, Hn2 by (intros ->; contradiction).
    apply Hnames. now right.
Qed.

End RootScript.

(** The root script as [ExporterCommand.__init__] leaves it. *)
Lemma root_script_init pm target name mode w root w0 :
  nonempty target = true -> nonempty name = true ->
  ExporterCommand_init pm NoObject "" false target name mode w = (Ok root, w0) ->
  let h0 := length (files w) in
  let r0 := length (lists w) in
  _pointer_file (archive root) = Some h0 /\ _pointer_cache (archive root) = None
  /\ is_root (archive root) = true /\ is_gzip (archive root) = false
  /\ _archive_regexes (archive root) = r0
  /\ archive_file (archive root) = target +:+ name
  /\ kept h0 (FileObject (target +:+ name) mode false false "") r0 w0.
Proof.
  intros Ht Hn E. unfold ExporterCommand_init in E. cbn [nonempty andb] in E.
  apply bind_ok_inv in E. destruct E as (name' & w1 & E1 & E).
  unfold ret in E1. inversion E1. subst name' w1. clear E1.
  apply bind_ok_inv in E. destruct E as (a & w1 & E1 & E).
  destruct (init_from_context NoObject target name w) as (a' & E1' & Ha & Htr & Hr & Hp & Hc & Hg & Hpath & Hname);
    [discriminate|].
  rewrite E1 in E1'. inversion E1'. subst a' w1. clear E1'.
  unfold when, bind at 1, ret at 1 in E.
  destruct (open_archive None (Some true) mode (a, _)) as [[[]|e|] [a1 w1]] eqn:Eo;
    try discriminate.
  inversion E. subst root w0. clear E. cbn [archive].
  destruct (open_archive_ok_inv _ _ _ _ _ _ _ Eo) as (-> & -> & _).
  assert (Hfile : archive_file a = target +:+ name).
  { unfold archive_file. now rewrite Hpath, Hname. }
  cbn -[opened_world]. rewrite Hc, Hg, Ha.
  repeat split; try reflexivity.
  - unfold archive_file. cbn. now rewrite Hpath, Hname.
  - rewrite <- Hfile.
    pose proof (opened_world_new None (Some true) mode a
                  (set_lists (fun ls => (ls ++ [[]]) ++ [[]]) w)) as Hnew.
    change (is_gzip (configured None (Some true) a)) with (is_gzip a) in Hnew.
    rewrite Hg in Hnew. exact Hnew.
  - rewrite opened_world_lists. cbn.
    rewrite <- app_assoc. now apply list_lookup_middle.
Qed.

Lemma on_root_run {A} (m : M astate A) root mgr w r a' w' :
  m (archive root, w) = (r, (a', w')) ->
  on_root m ((root, mgr), w) = (r, ((with_archive a' root, mgr), w')).
Proof. unfold on_root, zoom. cbn [fst snd]. now intros ->. Qed.

(** C2 (amended).  When no command raises while the buckets are drained,
    [execute_commands] returns, and the text that went through the root
    script's file object, closed by then, is one line [./name] for every
    command of the buckets OPTIMIZE, COMPILE, RENDER and POSTRENDER, bucket
    by bucket in the fixed order and in each bucket's order, whether the
    command was executed or not; the commands of INFO get no line.  The file
    START.sh.bat ends with these lines. *)
Theorem execute_commands_root_script pm os fuel mgr sc w root w0 st1 :
  export_scene mgr = Some sc ->
  bucket_handles_exist mgr w ->
  ExporterCommand_init pm NoObject "" false ("." +:+ os_sep os) "START.sh.bat" ModeA w
  = (Ok root, w0) ->
  drain_buckets pm os fuel (ribmosaic_compileshd sc) (ribmosaic_optimizetex sc)
    (if ribmosaic_interactive sc then true else ribmosaic_renderrib sc)
    (ribmosaic_interactive sc) ((root, mgr), w0) = (Ok tt, st1) ->
  exists mgr' w',
    execute_commands pm os fuel mgr w = (Ok mgr', w')
    /\ files w' !! length (files w)
       = Some (FileObject (root_script_path os) ModeA false true (root_lines os mgr))
    /\ exists d prior,
         fs w' !! root_script_path os = Some d
         /\ fd_data d = prior +:+ root_lines os mgr.
Proof.
  intros Hsc Hex Einit Edrain.
  destruct (root_script_init pm ("." +:+ os_sep os) "START.sh.bat" ModeA w root w0)
    as (Hp & Hc & Hr & Hg & Hl & Hfile & Hk); [reflexivity|reflexivity|exact Einit|].
  set (h0 := length (files w)) in *. set (r0 := length (lists w)) in *.
  assert (Hinv0 : einv h0 r0 (root_script_path os) "" ((root, mgr), w0)).
  { unfold einv. cbn [fst snd].
    split; [exact Hp|split; [exact Hc|split; [exact Hr|split; [exact Hg|
      split; [exact Hl|split; [exact Hk|]]]]]].
    intros t i s Hs. destruct (Hex t i s Hs) as [H1 H2].
    split; [|split; [|reflexivity]]; intros h Hh; unfold other_than, h0.
    - specialize (H1 h Hh). lia.
    - specialize (H2 h Hh). lia. }
  assert (Hnd : NoDup [OPTIMIZE; COMPILE; INFO; RENDER; POSTRENDER]).
  { apply (bool_decide_unpack _). vm_compute. exact I. }
  pose proof (category_loop pm os fuel _ _ _ h0 r0 (root_script_path os)
                (ribmosaic_interactive sc) mgr
                [OPTIMIZE; COMPILE; INFO; RENDER; POSTRENDER]
                Hnd "" _ st1 Hinv0 (fun _ _ => eq_refl) Edrain) as Hloop.
  change ("" +:+ ?x) with x in Hloop. fold (root_lines os mgr) in Hloop.
  destruct st1 as [[root1 mgr1] w1].
  destruct Hloop as (Hp1 & Hc1 & Hr1 & Hg1 & Hl1 & [Hf1 Hls1] & _). cbn [fst snd] in *.
  assert (Eclose : close_archive pm os (archive root1, w1)
                   = (Ok tt, (with_pointer_file None (archive root1), released h0 w1))).
  { apply (close_archive_no_rules pm os _ _ h0 _ Hr1 Hc1 Hp1 Hf1).
    unfold list_read. now rewrite Hl1, Hls1. }
  exists mgr1, (released h0 w1). split; [|split].
  - unfold execute_commands. rewrite Hsc. cbv zeta.
    erewrite bind_ok by exact Einit.
    erewrite bind_ok by (apply try_except_ok; exact Edrain).
    erewrite on_root_run by exact Eclose. reflexivity.
  - destruct (released_closed h0 _ w1 Hf1) as (fo' & Hfo & Hcl & Hpath & Hbuf).
    unfold released, py_close in *. rewrite Hf1 in *. cbn in *.
    unfold close_world in *. cbn in *. rewrite list_lookup_insert_eq; [reflexivity|].
    now apply lookup_lt_Some in Hf1.
  - rewrite (released_write_fs h0 _ w1 Hf1) by (cbn; congruence).
    cbn [fo_path fo_buffer fo_gzip]. rewrite lookup_insert_eq.
    eexists _, _. split; reflexivity.
Qed.

Lemma execute_commands_root_script_witness :
  let mgr := fst queued_manager in
  let w := snd queued_manager in
  exists mgr' w',
    execute_commands script_pipeline quiet_platform 1 mgr w = (Ok mgr', w')
    /\ files w' !! length (files w)
       = Some (FileObject (root_script_path quiet_platform) ModeA false true
                 (root_lines quiet_platform mgr))
    /\ exists d prior,
         fs w' !! root_script_path quiet_platform = Some d
         /\ fd_data d = prior +:+ root_lines quiet_platform mgr.
Proof.
  cbv zeta.
  eapply (execute_commands_root_script script_pipeline quiet_platform 1
            (fst queued_manager) batch_scene (snd queued_manager)).
  - reflexivity.
  - intros t i s Hs.
    destruct t; (destruct i as [|i]; [|try destruct i; discriminate Hs]);
      vm_compute in Hs; try discriminate Hs;
      injection Hs as <-; vm_compute; split; intros h Hh;
      try discriminate Hh; injection Hh as <-; lia.
  - vm_compute. reflexivity.
  - vm_compute. reflexivity.
Defined.

(** C2, as stated, fails for the bucket INFO: the command [info.sh] of that
    bucket is executed (process 2 runs it), and the root script gets the lines
    of the three other commands only. *)
Lemma execute_commands_info_no_line :
  let mgr := fst queued_manager in
  let w := snd queued_manager in
  bucket_names mgr INFO = ["info.sh"]
  /\ exists mgr' w',
       execute_commands script_pipeline quiet_platform 1 mgr w = (Ok mgr', w')
       /\ p_command <$> procs w' !! 2 = Some "./info.sh"
       /\ fd_data <$> fs w' !! "./START.sh.bat"
          = Some ("./tex.sh" +:+ newline +:+ "./shader.sh" +:+ newline
                  +:+ "./render.sh" +:+ newline).
Proof.
  cbv zeta. split; [reflexivity|].
  eexists _, _. split; [vm_compute; reflexivity|].
  split; vm_compute; reflexivity.
Qed.

(** A command that raises ends the loops: [execute_commands] returns all the
    same, the commands after it are neither run nor written to the root
    script. *)
Lemma execute_commands_stops_at_first_raise :
  let run := execute_commands stubborn_pipeline quiet_platform 1
               (fst queued_manager) (snd queued_manager) in
  (exists mgr', fst run = Ok mgr')
  /\ procs (snd run) = []
  /\ fd_data <$> fs (snd run) !! "./START.sh.bat" = Some "".
Proof.
  cbv zeta. split; [eexists; vm_compute; reflexivity|].
  split; vm_compute; reflexivity.
Qed.

(** * Cancellation of a running command *)

Lemma close_archive_closed pm os a w :
  _pointer_cache a = None -> _pointer_file a = None ->
  close_archive pm os (a, w) = (Ok tt, (a, w)).
Proof.
  intros Hc Hp.
  unfold close_archive, bind, self, when, ret. cbn. rewrite Hc, Hp.
  now destruct (is_root a).
Qed.

(** [apply_regextargets] records that it was entered before it does anything
    else, and the log only grows after that. *)
Lemma apply_regextargets_log pm os a w :
  exists l,
    log (snd (snd (apply_regextargets pm os (a, w))))
    = log w ++ [EvRegexTargets (archive_name a)] ++ l.
Proof.
  unfold apply_regextargets, bind at 1, self. cbn [fst].
  unfold bind at 1. rewrite in_world_run. unfold modify at 1. cbn [fst snd].
  pose proof (ainv_regextargets_loop
                (log_from (log w ++ [EvRegexTargets (archive_name a)])) (fun _ => True))
    as Hloop.
  assert (Hinv : ainv (log_from (log w ++ [EvRegexTargets (archive_name a)]))
                   (fun _ => True) (archive_name a)
                   (a, emit (EvRegexTargets (archive_name a)) w)).
  { split; [repeat split|]. exists []. cbn. now rewrite app_nil_r. }
  assert (Hfin : ainv (log_from (log w ++ [EvRegexTargets (archive_name a)]))
                   (fun _ => True) (archive_name a)
                   (snd ((do w0 <- the_world;
     for_each (list_read (_target_regexes a) w0)
       (fun xmlpath =>
          do s1 <- self;
          do target <- of_result (get_attr pm s1 xmlpath "target" false "");
          do targets <- list_targets os target;
          for_each (filter (fun t => nonempty (snd t)) targets)
            (fun t =>
               _test_break os >>
               do s2 <- self;
               do archive <- in_world (ExporterArchive_init (ArchiveObject s2) (fst t) (snd t));
               do l1 <- in_world (list_new [xmlpath]);
               do l2 <- in_world (list_new []);
               on_local (with_target_regexes l2 (with_archive_regexes l1 archive))
                 (open_archive None None ModeR >> close_archive pm os))))
                     (a, emit (EvRegexTargets (archive_name a)) w)))).
  { apply Hloop; try exact Hinv; intros; try exact I.
    all: match goal with H : log_from _ _ |- _ => destruct H as [evs Hevs] end.
    all: first [ now exists evs
               | eexists; cbn; rewrite Hevs, <- app_assoc; reflexivity ]. }
  destruct Hfin as [_ [l Hl]]. exists l. rewrite <- app_assoc in Hl. exact Hl.
Qed.

(** [poll()] on a process that has not exited yet. *)
Lemma popen_poll_running pid p n w :
  procs w !! pid = Some p -> p_returncode p = None -> p_left p = Some (S n) ->
  popen_poll pid w
  = (Ok None,
     set_procs (fun l => <[pid := Process (p_command p) (Some n) (p_on_term p)
                                      (p_signalled p) None]> l)
       (emit (EvPoll pid) w)).
Proof.
  intros Hp Hr Hl. unfold popen_poll, bind at 1, get. rewrite Hp, Hr, Hl.
  reflexivity.
Qed.

Lemma popen_poll_exit pid p w :
  procs w !! pid = Some p -> p_returncode p = None -> p_left p = Some 0 ->
  exists rc w', popen_poll pid w = (Ok (Some rc), w') /\ log w' = log w ++ [EvPoll pid].
Proof.
  intros Hp Hr Hl. unfold popen_poll, bind at 1, get. rewrite Hp, Hr, Hl.
  eexists _, _. split; reflexivity.
Qed.

(** [terminate_command] on a process that has not exited: the signal is
    delivered, by [os.killpg] or by [Popen.terminate]. *)
Lemma terminate_command_running os c w pid p :
  command_process c = Some pid -> procs w !! pid = Some p -> p_returncode p = None ->
  terminate_command os (c, w)
  = (Ok tt, (c, emit (EvTerminate pid)
                  (set_procs (fun l => <[pid := signalled p]> l) w))).
Proof.
  intros Hc Hp Hr.
  unfold terminate_command, try_except, bind, this, process_pid, in_world, zoom,
    os_killpg, popen_terminate, get, raise, ret.
  cbn. rewrite Hc. cbn.
  destruct (posix os); cbn; rewrite ?Hc; cbn; rewrite Hp, Hr; reflexivity.
Qed.

Lemma test_break_run os {X} (x : X) w :
  @_test_break os X (x, w)
  = (if user_break os (ticks w) then Raise (RibmosaicError "Export canceled") else Ok tt,
     (x, emit (EvBreakTest (user_break os (ticks w))) (set_ticks S w))).
Proof.
  unfold _test_break. rewrite in_world_run. now destruct (user_break os (ticks w)).
Qed.

(** The polling loop on a process that exits after [m] more polls at most:
    [m + 1] iterations are enough.  A break while the process runs delivers
    the termination signal, and the loop goes on polling. *)
Lemma poll_loop_exits os fuel :
  forall c w pid p m,
    command_process c = Some pid -> procs w !! pid = Some p ->
    p_returncode p = None -> p_left p = Some m -> m < fuel ->
    exists w' l,
      poll_loop os fuel (c, w) = (Ok tt, (c, w'))
      /\ log w' = log w ++ l
      /\ (EvBreakTest true ∈ l -> EvTerminate pid ∈ l)
      /\ (0 < m -> user_break os (ticks w) = true -> EvTerminate pid ∈ l).
Proof.
  induction fuel as [|fuel IH]; intros c w pid p m Hc Hp Hr Hl Hm; [lia|].
  cbn [poll_loop]. unfold bind at 1, this. cbn [fst].
  unfold process_pid. rewrite Hc. unfold bind at 1, ret at 1.
  unfold bind at 1. rewrite in_world_run.
  destruct m as [|m].
  - destruct (popen_poll_exit pid p w Hp Hr Hl) as (rc & w' & E & Hlog).
    rewrite E. cbn [fst snd]. exists w', [EvPoll pid].
    split; [reflexivity|split; [exact Hlog|split; [|intros; lia]]].
    intros Hin. apply list_elem_of_singleton in Hin. discriminate Hin.
  - rewrite (popen_poll_running pid p m w Hp Hr Hl). cbn [fst snd].
    set (p1 := Process (p_command p) (Some m) (p_on_term p) (p_signalled p) None).
    set (w1 := set_procs (fun l => <[pid := p1]> l) (emit (EvPoll pid) w)).
    assert (Hlt : pid < length (procs w)) by (now apply lookup_lt_Some in Hp).
    unfold bind at 1, try_except at 1. rewrite test_break_run.
    change (ticks w1) with (ticks w).
    set (w2 := emit (EvBreakTest (user_break os (ticks w))) (set_ticks S w1)).
    assert (Hp2 : procs w2 !! pid = Some p1).
    { cbn. now apply list_lookup_insert_eq. }
    destruct (user_break os (ticks w)) eqn:Hb.
    + rewrite (terminate_command_running os c w2 pid p1 Hc Hp2 eq_refl).
      set (w3 := emit (EvTerminate pid) (set_procs (fun l => <[pid := signalled p1]> l) w2)).
      assert (Hp3 : procs w3 !! pid = Some (signalled p1)).
      { cbn. apply list_lookup_insert_eq. now rewrite length_insert. }
      assert (Hl3 : exists k, p_left (signalled p1) = Some k /\ k <= m).
      { cbn. destruct (p_on_term p) as [k|]; eexists; split; try reflexivity; lia. }
      destruct Hl3 as (k & Hk & Hkm).
      destruct (IH c w3 pid (signalled p1) k Hc Hp3 eq_refl Hk ltac:(lia))
        as (w' & l & E & Hlog & _).
      exists w', ([EvPoll pid; EvBreakTest true; EvTerminate pid] ++ l).
      split; [exact E|split; [|split]].
      * rewrite Hlog. cbn. rewrite <- !app_assoc. reflexivity.
      * intros _. cbn. rewrite !elem_of_cons. auto.
      * intros _ _. cbn. rewrite !elem_of_cons. auto.
    + destruct (IH c w2 pid p1 m Hc Hp2 eq_refl eq_refl ltac:(lia))
        as (w' & l & E & Hlog & Hbt & _).
      exists w', ([EvPoll pid; EvBreakTest false] ++ l).
      split; [exact E|split; [|split]].
      * rewrite Hlog. cbn. rewrite <- !app_assoc. reflexivity.
      * cbn. rewrite !elem_of_cons.
        intros [Hin|[Hin|Hin]]; try discriminate Hin. auto.
      * intros _ Hx. discriminate Hx.
Qed.

Lemma fuel_free_test_break os {X} : fuel_free (@_test_break os X).
Proof.
  intros [x w]. rewrite test_break_run. cbn. now destruct (user_break os (ticks w)).
Qed.

Lemma fuel_free_apply_regextargets pm os : fuel_free (apply_regextargets pm os).
Proof.
  unfold apply_regextargets, list_targets, ExporterArchive_init, self, the_world.
  repeat first
    [ apply fuel_free_for_each; intros ?
    | apply fuel_free_on_local
    | apply fuel_free_test_break
    | apply fuel_free_open_archive | apply fuel_free_close_archive
    | fuel_free_prim | fuel_free_step ].
Qed.

Lemma inherited_run {A} (m : M astate A) c w :
  inherited m (c, w)
  = (fst (m (archive c, w)),
     (with_archive (fst (snd (m (archive c, w)))) c, snd (snd (m (archive c, w))))).
Proof.
  unfold inherited, zoom. cbn [fst snd]. now destruct (m (archive c, w)) as [r [a' w']].
Qed.

Lemma with_archive_same c : with_archive (archive c) c = c.
Proof. now destruct c. Qed.

Lemma popen_run os cmd w :
  can_spawn os cmd = true ->
  popen os cmd w
  = (Ok (length (procs w)),
     emit (EvSpawn (length (procs w)))
       (set_procs (fun l => l ++ [Process cmd (fst (process_plan os cmd))
                                    (snd (process_plan os cmd)) false None]) w)).
Proof. intros H. unfold popen, bind at 1, get. now rewrite H. Qed.

(** ** What the methods that run before the process leave alone *)

Section SameScript.

Variable a0 : ExporterArchive.

#[local] Abbreviation sinv := (fun st : astate => same_script a0 (fst st)).

Lemma sinv_in_world {A} (m : M world A) : inv sinv (in_world m).
Proof. intros [a w] H. now rewrite in_world_run. Qed.

Lemma sinv_self {B} (k : ExporterArchive -> M astate B) :
  (forall a, inv sinv (k a)) -> inv sinv (bind self k).
Proof. intros H [a w] Hs. unfold bind, self. cbn [fst]. now apply H. Qed.

Lemma sinv_update f :
  (forall a, same_script a0 a -> same_script a0 (f a)) -> inv sinv (update f).
Proof. intros Hf [a w] H. cbn. auto. Qed.

Lemma sinv_pure {A} (m : M astate A) : (forall s, snd (m s) = s) -> inv sinv m.
Proof. intros H s Hs. now rewrite H. Qed.

Lemma sinv_open_archive g e mode : inv sinv (open_archive g e mode).
Proof.
  intros [a w] H. cbn [fst] in H.
  destruct (open_archive_cases g e mode a w) as [E|[msg E]]; rewrite E; cbn [fst snd];
    destruct g, e; exact H.
Qed.

Ltac sinv_step :=
  first
    [ apply sinv_open_archive | apply sinv_in_world
    | apply sinv_update; intros ? ?; assumption
    | apply inv_of_result | apply inv_ret | apply inv_raise
    | apply sinv_pure; reflexivity
    | apply inv_try
    | apply inv_when
    | apply inv_for_each; intros ?
    | apply sinv_self; intros ?
    | apply inv_bind; [|intros ?]
    | match goal with
      | |- inv _ (match ?x with _ => _ end) => destruct x
      end ].

Lemma sinv_write_text_body text : inv sinv (write_text_body text).
Proof. unfold write_text_body. repeat sinv_step. Qed.

Lemma sinv_rewrite_archive pm os : inv sinv (rewrite_archive pm os).
Proof.
  unfold rewrite_archive, pointer_read, pointer_close, archive_regexes_now.
  repeat first [apply sinv_write_text_body | sinv_step].
Qed.

Lemma sinv_close_archive pm os : inv sinv (close_archive pm os).
Proof.
  unfold close_archive, archive_regexes_now.
  repeat first [apply sinv_rewrite_archive | sinv_step].
Qed.

Lemma sinv_write_code pm os xmlpath close : inv sinv (write_code pm os xmlpath close).
Proof.
  unfold write_code, write_text, list_targets.
  repeat first [apply sinv_close_archive | apply sinv_write_text_body | sinv_step].
Qed.

End SameScript.

Lemma same_script_inherited a0 {A} (m : M astate A) :
  inv (fun st : astate => same_script a0 (fst st)) m ->
  inv (fun st : cstate => same_script a0 (archive (fst st))) (inherited m).
Proof.
  intros Hm [c w] H. rewrite inherited_run. cbn [fst snd] in *.
  exact (Hm (archive c, w) H).
Qed.

Lemma same_script_build_code a0 pm os element close :
  inv (fun st : cstate => same_script a0 (archive (fst st)))
      (build_code pm os element close).
Proof.
  unfold build_code. intros [c w] H. unfold bind, this. cbn [fst].
  now apply (same_script_inherited a0 _ (sinv_write_code a0 pm os _ close)).
Qed.

Lemma fuel_free_write_code pm os xmlpath close : fuel_free (write_code pm os xmlpath close).
Proof.
  unfold write_code, write_text, list_targets, self, the_world, update.
  repeat first
    [ apply fuel_free_for_each; intros ?
    | apply fuel_free_close_archive | apply fuel_free_write_text_body
    | fuel_free_prim | fuel_free_step ].
Qed.

(** What [execute_command] does before it looks at the [execute] attribute:
    the delayed build and the closing of the script. *)
Lemma execute_command_prelude pm os (c : ExporterCommand) w :
  let prelude :=
    when (bool_decide (_pointer_file (archive c) <> None))
      (when (delay_build c)
         (build_code pm os "begin" false >> build_code pm os "middle" false >>
          build_code pm os "end" false) >>
       inherited (close_archive pm os)) in
  fst (prelude (c, w)) <> OutOfFuel
  /\ quiet_since w (snd (snd (prelude (c, w))))
  /\ same_script (archive c) (archive (fst (snd (prelude (c, w))))).
Proof.
  intros prelude.
  assert (Hff : fuel_free prelude).
  { unfold prelude, build_code, this.
    repeat first
      [ apply fuel_free_close_archive | apply fuel_free_write_code | fuel_free_step ]. }
  split; [apply Hff|]. split.
  - assert (H : inv (cinv (quiet_since w) (fun _ => True) (archive_name (archive c))) prelude).
    { unfold prelude.
      apply inv_when. apply inv_bind; [|intros _].
      - apply inv_when.
        repeat (apply inv_bind; [|intros _]); apply cinv_build_code;
          unfold quiet_since; cbn; auto.
      - apply cinv_inherited. apply ainv_close_archive; unfold quiet_since; cbn; auto. }
    apply (H (c, w)). split; [|repeat split]. repeat split.
  - assert (H : inv (fun st : cstate => same_script (archive c) (archive (fst st))) prelude).
    { unfold prelude.
      apply inv_when. apply inv_bind; [|intros _].
      - apply inv_when.
        repeat (apply inv_bind; [|intros _]); apply same_script_build_code.
      - apply same_script_inherited. apply sinv_close_archive. }
    apply (H (c, w)). repeat split.
Qed.

(** The closing of the script before the process is started. *)
Lemma execute_command_close pm os (c : ExporterCommand) w :
  fst (inherited (close_archive pm os) (c, w)) <> OutOfFuel
  /\ quiet_since w (snd (snd (inherited (close_archive pm os) (c, w))))
  /\ same_script (archive c) (archive (fst (snd (inherited (close_archive pm os) (c, w))))).
Proof.
  split; [|split].
  - apply fuel_free_zoom. apply fuel_free_close_archive.
  - assert (H : inv (cinv (quiet_since w) (fun _ => True) (archive_name (archive c)))
                  (inherited (close_archive pm os))).
    { apply cinv_inherited. apply ainv_close_archive; unfold quiet_since; cbn; auto. }
    apply (H (c, w)). split; [|repeat split]. repeat split.
  - apply (same_script_inherited (archive c) _ (sinv_close_archive (archive c) pm os) (c, w)).
    repeat split.
Qed.




(** * Archive files: what opening, writing and closing do to them *)

Lemma write_text_run pm os a w h path mode buf t :
  _pointer_file a = Some h -> mode <> ModeR ->
  files w !! h = Some (FileObject path mode (is_gzip a) false buf) ->
  exists w',
    write_text pm os (PyStr t) false (a, w) = (Ok tt, (a, w'))
    /\ files w' !! h = Some (FileObject path mode (is_gzip a) false (buf +:+ t))
    /\ fs w' = fs w /\ lists w' = lists w /\ length (files w') = length (files w)
    /\ executable w' = executable w /\ procs w' = procs w /\ log w' = log w
    /\ (forall h', h' <> h -> files w' !! h' = files w !! h').
Proof.
  intros Hp Hm Hf. unfold write_text. unfold when at 1.
  destruct t as [|c t].
  - rewrite (bind_ok _ _ _ tt (a, w)) by (now apply write_text_body_empty).
    exists w. rewrite append_empty_r. unfold ret. auto 10.
  - assert (E : write_text_body (PyStr (String c t)) (a, w)
                = (Ok tt, (a, written h (String c t) w))).
    { unfold write_text_body, when, pytext_truthy. cbn [pytext_data nonempty].
      unfold bind at 1, self. cbn [fst]. rewrite Hp.
      destruct (is_gzip a) eqn:Hg.
      - unfold bind at 1, of_result, py_encode. rewrite in_world_run.
        rewrite (py_write_run h _ (PyBytes (String c t)) w Hf) by (cbn; auto).
        reflexivity.
      - rewrite in_world_run.
        rewrite (py_write_run h _ (PyStr (String c t)) w Hf) by (cbn; auto).
        reflexivity. }
    rewrite (bind_ok _ _ _ tt _ E). exists (written h (String c t) w).
    split; [reflexivity|]. rewrite (written_lookup h _ _ w Hf).
    rewrite written_fs, written_lists.
    split; [reflexivity|]. split; [reflexivity|]. split; [reflexivity|].
    unfold written. cbn. rewrite Hf. cbn. rewrite length_insert.
    split; [reflexivity|]. split; [reflexivity|]. split; [reflexivity|].
    split; [reflexivity|]. intros h' Hne. now rewrite list_lookup_insert_ne.
Qed.

Lemma write_texts_run pm os a h path mode texts :
  _pointer_file a = Some h -> mode <> ModeR ->
  forall w buf,
    files w !! h = Some (FileObject path mode (is_gzip a) false buf) ->
    exists w',
      for_each texts (fun t => write_text pm os (PyStr t) false) (a, w) = (Ok tt, (a, w'))
      /\ files w' !! h = Some (FileObject path mode (is_gzip a) false (buf +:+ join texts))
      /\ fs w' = fs w /\ lists w' = lists w /\ length (files w') = length (files w)
      /\ executable w' = executable w.
Proof.
  intros Hp Hm. induction texts as [|t texts IH]; intros w buf Hf.
  - exists w. cbn. rewrite append_empty_r. unfold ret. auto 10.
  - destruct (write_text_run pm os a w h path mode buf t Hp Hm Hf)
      as (w1 & E1 & Hf1 & Hfs1 & Hl1 & Hn1 & Hx1 & _).
    destruct (IH w1 _ Hf1) as (w2 & E2 & Hf2 & Hfs2 & Hl2 & Hn2 & Hx2).
    exists w2. cbn [for_each]. rewrite (bind_ok _ _ _ tt _ E1).
    split; [exact E2|]. rewrite join_cons, <- string_app_assoc.
    split; [exact Hf2|]. repeat split; congruence.
Qed.







(** * Rules, targets and panel code *)

Lemma list_append_read loc x w :
  loc < length (lists w) ->
  list_read loc (snd (list_append loc x w)) = list_read loc w ++ [x].
Proof.
  intros H. unfold list_append, modify, list_read. cbn.
  now rewrite list_lookup_insert_eq.
Qed.

Lemma list_append_read_ne loc loc' x w :
  loc' <> loc -> list_read loc' (snd (list_append loc x w)) = list_read loc' w.
Proof.
  intros H. unfold list_append, modify, list_read. cbn.
  now rewrite list_lookup_insert_ne by congruence.
Qed.

(** X4.  [add_regexes] registers a panel's rule path in exactly one of the
    archive's two rule lists, at its end: the target list when the element
    has a [target] attribute, the whole-archive list otherwise; nothing is
    registered for an empty path or an element without sub-elements.  The
    archive and the files are untouched. *)
Theorem add_regexes_registers_in_one_list pm xmlpath a w target :
  get_attr pm a xmlpath "target" false "" = Returns target ->
  _archive_regexes a < length (lists w) ->
  _target_regexes a < length (lists w) ->
  _archive_regexes a <> _target_regexes a ->
  let registered := nonempty xmlpath && bool_decide (list_elements pm xmlpath <> []) in
  exists w',
    add_regexes pm xmlpath (a, w) = (Ok tt, (a, w'))
    /\ list_read (_archive_regexes a) w'
       = list_read (_archive_regexes a) w
         ++ (if registered && negb (nonempty target) then [xmlpath] else [])
    /\ list_read (_target_regexes a) w'
       = list_read (_target_regexes a) w
         ++ (if registered && nonempty target then [xmlpath] else [])
    /\ fs w' = fs w /\ files w' = files w.
Proof.
  intros Hg Ha Ht Hne registered. unfold registered, add_regexes, when.
  destruct (nonempty xmlpath); cbn [andb].
  2:{ exists w. rewrite !app_nil_r. unfold ret. auto. }
  destruct (bool_decide (list_elements pm xmlpath <> [])); cbn [andb].
  2:{ exists w. rewrite !app_nil_r. unfold ret. auto. }
  unfold bind at 1, self. cbn [fst]. unfold bind at 1. rewrite Hg. unfold of_result.
  destruct (nonempty target); cbn [negb]; rewrite in_world_run; cbn [fst snd].
  - exists (snd (list_append (_target_regexes a) xmlpath w)).
    split; [reflexivity|].
    rewrite list_append_read by exact Ht.
    rewrite list_append_read_ne by exact Hne.
    rewrite app_nil_r. auto.
  - exists (snd (list_append (_archive_regexes a) xmlpath w)).
    split; [reflexivity|].
    rewrite list_append_read by exact Ha.
    rewrite list_append_read_ne by congruence.
    rewrite app_nil_r. auto.
Qed.

Lemma add_regexes_registers_in_one_list_witness :
  let a := fst open_scene_archive in
  let w := snd open_scene_archive in
  exists w',
    add_regexes target_pipeline "Tex/targets" (a, w) = (Ok tt, (a, w'))
    /\ list_read (_archive_regexes a) w' = list_read (_archive_regexes a) w ++ []
    /\ list_read (_target_regexes a) w' = list_read (_target_regexes a) w ++ ["Tex/targets"]
    /\ fs w' = fs w /\ files w' = files w.
Proof.
  cbv zeta.
  apply (add_regexes_registers_in_one_list target_pipeline "Tex/targets"
           (fst open_scene_archive) (snd open_scene_archive) "maps/wood.tx").
  - reflexivity.
  - vm_compute. lia.
  - vm_compute. lia.
  - vm_compute. discriminate.
Defined.

(** X5.  [list_targets] only reads: the archive and the world are as before,
    whatever the target.  Its only exception is [RibmosaicError].  A target
    without a wildcard yields exactly one (path, file) pair; the results of
    a wildcard search all lie in the searched directory and have the
    extension asked for. *)
Theorem list_targets_outcome os target a w :
  snd (list_targets os target (a, w)) = (a, w)
  /\ match fst (list_targets os target (a, w)) with
     | Ok l =>
         (String.prefix "*" (snd (os_path_split os target)) = false -> length l = 1)
         /\ (nonempty target = true ->
             String.prefix "*" (snd (os_path_split os target)) = true ->
             Forall (fun t =>
                       nonempty (fst t) = true ->
                       fst t = (if nonempty (fst (os_path_split os target))
                                then fst (os_path_split os target) +:+ os_sep os
                                else target_path (context a))
                       /\ snd (os_path_splitext os (snd t))
                          = string_tail (snd (os_path_split os target))) l)
     | Raise e => exists msg, e = RibmosaicError msg
     | OutOfFuel => False
     end.
Proof.
  set (dir := fst (os_path_split os target)).
  set (file := snd (os_path_split os target)).
  set (path := if nonempty dir then dir +:+ os_sep os else target_path (context a)).
  assert (E : list_targets os target (a, w)
              = (if nonempty target then
                   if String.prefix "*" file then
                     if nonempty path then
                       match os_listdir os (fs w) path with
                       | Returns names =>
                           Ok (map (pair path)
                                 (filter (fun f => String.eqb (snd (os_path_splitext os f))
                                                     (string_tail file)) names))
                       | Raises _ =>
                           Raise (RibmosaicError "Cannot find target directory/file, check export and/or library paths")
                       end
                     else Ok [("", "")]
                   else Ok [(path, if nonempty file then file else target_name (context a))]
                 else Ok [("", "")],
                 (a, w))).
  { unfold list_targets, bind, self, try_except, the_world, of_result, ret, raise.
    cbn [fst snd]. fold dir file path.
    destruct (nonempty target); [|reflexivity].
    destruct (String.prefix "*" file).
    - destruct (nonempty path); [|reflexivity].
      cbn [fst snd]. now destruct (os_listdir os (fs w) path).
    - now destruct (nonempty file). }
  rewrite E. cbn [fst snd]. split; [reflexivity|].
  destruct (nonempty target) eqn:Hn.
  2:{ split; [reflexivity|]. intros H. discriminate H. }
  destruct (String.prefix "*" file) eqn:Hw.
  2:{ split; [reflexivity|]. intros _ H. discriminate H. }
  destruct (nonempty path) eqn:Hp.
  2:{ split; [reflexivity|]. intros _ _. constructor; [|constructor].
      cbn. intros H. discriminate H. }
  destruct (os_listdir os (fs w) path) as [names|e].
  - split; [intros H; discriminate H|]. intros _ _.
    apply Forall_forall. intros t Ht _.
    apply list_elem_of_fmap in Ht. destruct Ht as (f & -> & Hf).
    apply list_elem_of_filter in Hf. destruct Hf as [Hf _].
    cbn. split; [reflexivity|].
    apply Is_true_true in Hf. now apply String.eqb_eq in Hf.
  - eexists. reflexivity.
Qed.
